(** * Verification of the resolvers error normalizer and the Joi adapter

    Source files covered:
    - [src/unnamed/part_000]: [toNestErrors], [isNameInFieldArray], [escapeBrackets];
    - [src/joi/src/joi.ts]: [parseErrorSchema], [joiResolver].

    The code is JavaScript that mutates shared objects, so the embedding is a
    small object heap with explicit state passing.  The helpers imported from
    react-hook-form ([get], [set], [appendErrors]) are not part of this
    repository; they are transcribed from the published implementation of that
    library (v7) so that the repository's own functions can be run and
    reasoned about.

    Modelling boundary, stated once:
    - strings are sequences of 8-bit code units (ASCII);
    - the objects of the heap are ordinary, extensible objects with writable,
      enumerable data properties; on the heap a property lookup consults the
      own properties only, and an array's [length] is not stored.  A
      statement that depends on a lookup or on an assignment through [get] or
      [set] therefore carries the conditions under which neither an inherited
      property nor a [length] is involved: no segment named [length], and a
      walk of the field registry that meets own properties only
      ([fields_walk]);
    - the accumulator of [parseErrorSchema] is an object literal, so there the
      properties of [Object.prototype] are modelled: an inherited name is
      found by a lookup, and where the outcome would need the inherited
      value itself the step is [Beyond];
    - the regular expression built in [isNameInFieldArray] is interpreted only
      when the interpolated name is made of literal characters and dots, and is
      known to be rejected when it has an unclosed group; every other shape is
      reported as [Beyond]. *)

From Stdlib Require Import ZArith NArith List String Ascii Bool Lia DecimalString.
From Stdlib Require DecimalPos.
From stdpp Require Import base list strings.

Local Open Scope string_scope.
Local Open Scope list_scope.

(** ** Outcomes: normal return, JavaScript exception, or outside the model *)

Inductive exn := SyntaxError | TypeError | HostError.

Inductive outcome (A : Type) : Type :=
| Ret (a : A)
| Throw (e : exn)
| Beyond.

Arguments Ret {A} a.
Arguments Throw {A} e.
Arguments Beyond {A}.

Definition obind {A B} (m : outcome A) (f : A -> outcome B) : outcome B :=
  match m with
  | Ret a => f a
  | Throw e => Throw e
  | Beyond => Beyond
  end.

Notation "'let*' x ':=' m 'in' k" := (obind m (fun x => k))
  (at level 10, x name, m at level 100, k at level 200).

(** ** Values and the object heap *)

Abbreviation loc := nat.

Inductive value :=
| VUndef
| VNull
| VBool (b : bool)
| VNum (n : Z)
| VStr (s : string)
| VRef (l : loc).

#[global] Instance value_eq_dec : EqDecision value.
Proof. solve_decision. Defined.

(** What [typeof], [Array.isArray] and the [Date] test tell apart: an
    ordinary object (a DOM element counts as one), an array, a [Date], a
    function. *)
Inductive okind := KPlain | KArray | KDate | KFunction.

Record obj := Obj { kind : okind; props : list (string * value) }.

Abbreviation heap := (list obj).

Definition value_eqb (a b : value) : bool :=
  match a, b with
  | VUndef, VUndef => true
  | VNull, VNull => true
  | VBool x, VBool y => Bool.eqb x y
  | VNum x, VNum y => Z.eqb x y
  | VStr x, VStr y => String.eqb x y
  | VRef x, VRef y => Nat.eqb x y
  | _, _ => false
  end.

(** JavaScript truthiness ([!!v]). *)
Definition truthy (v : value) : bool :=
  match v with
  | VUndef | VNull => false
  | VBool b => b
  | VNum n => negb (Z.eqb n 0)
  | VStr s => negb (String.eqb s EmptyString)
  | VRef _ => true
  end.

(** [a && b] and [a || b] on values. *)
Definition js_and (a b : value) : value := if truthy a then b else a.
Definition js_or (a b : value) : value := if truthy a then a else b.

(** *** Insertion-ordered property lists *)

Fixpoint assoc_get {A} (k : string) (ps : list (string * A)) : option A :=
  match ps with
  | [] => None
  | (k', v) :: r => if String.eqb k k' then Some v else assoc_get k r
  end.

(** [o[k] = v]: overwrite in place when [k] is present, append otherwise. *)
Fixpoint assoc_set {A} (k : string) (v : A) (ps : list (string * A))
  : list (string * A) :=
  match ps with
  | [] => [(k, v)]
  | (k', v') :: r =>
      if String.eqb k k' then (k, v) :: r else (k', v') :: assoc_set k v r
  end.

Definition obj_get (o : obj) (k : string) : value :=
  match assoc_get k (props o) with Some v => v | None => VUndef end.

(** [v[k]]: a property read, answered from the own properties of a heap
    object.  What a prototype provides, the [length] of an array and the
    properties of a primitive are not represented. *)
Definition read_prop (h : heap) (v : value) (k : string) : value :=
  match v with
  | VRef l => match h !! l with Some o => obj_get o k | None => VUndef end
  | _ => VUndef
  end.

(** [l[k] = v]. *)
Definition write_prop (h : heap) (l : loc) (k : string) (v : value) : heap :=
  match h !! l with
  | Some o => <[l := Obj (kind o) (assoc_set k v (props o))]> h
  | None => h
  end.

(** A fresh object is placed at the end of the heap. *)
Definition alloc (h : heap) (o : obj) : heap * loc := (h ++ [o], length h).

Definition kind_of (h : heap) (v : value) : option okind :=
  match v with
  | VRef l => kind <$> (h !! l)
  | _ => None
  end.

(** react-hook-form [isObject]: not null/undefined, not an array, [typeof]
    is ['object'], not a [Date]. *)
Definition isObject (h : heap) (v : value) : bool :=
  match kind_of h v with
  | Some KPlain => true
  | _ => false
  end.

Definition isArray (h : heap) (v : value) : bool :=
  match kind_of h v with
  | Some KArray => true
  | _ => false
  end.

Definition isNullOrUndefined (v : value) : bool :=
  match v with VUndef | VNull => true | _ => false end.

Definition isUndefined (v : value) : bool :=
  match v with VUndef => true | _ => false end.

(** ** Strings *)

Definition code (c : ascii) : nat := nat_of_ascii c.

Definition is_digit (c : ascii) : bool :=
  ((48 <=? code c) && (code c <=? 57))%nat.

(** [\w]: [A-Za-z0-9_]. *)
Definition is_word_char (c : ascii) : bool :=
  is_digit c
  || ((65 <=? code c) && (code c <=? 90))%nat
  || ((97 <=? code c) && (code c <=? 122))%nat
  || (code c =? 95)%nat.

Fixpoint string_forall (p : ascii -> bool) (s : string) : bool :=
  match s with
  | EmptyString => true
  | String c r => p c && string_forall p r
  end.

Fixpoint string_exists (p : ascii -> bool) (s : string) : bool :=
  match s with
  | EmptyString => false
  | String c r => p c || string_exists p r
  end.

(** [s.replace(/[...]/g, '')] for a set of single characters. *)
Fixpoint remove_chars (p : ascii -> bool) (s : string) : string :=
  match s with
  | EmptyString => EmptyString
  | String c r => if p c then remove_chars p r else String c (remove_chars p r)
  end.

(** [s.split(re)] where [re] matches exactly one character of a set. *)
Fixpoint split_on (sep : ascii -> bool) (s : string) : list string :=
  match s with
  | EmptyString => [EmptyString]
  | String c r =>
      if sep c then EmptyString :: split_on sep r
      else match split_on sep r with
           | x :: xs => String c x :: xs
           | [] => [String c EmptyString]
           end
  end.

Definition nonempty (s : string) : bool := negb (String.eqb s EmptyString).

(** react-hook-form [compact]: [value.filter(Boolean)]. *)
Definition compact (l : list string) : list string := List.filter nonempty l.

Definition ascii_in (cs : list ascii) (c : ascii) : bool :=
  existsb (Ascii.eqb c) cs.

(** react-hook-form [isKey]: [/^\w*$/.test(value)]. *)
Definition isKey (s : string) : bool := string_forall is_word_char s.

(** react-hook-form [stringToPath]:
    the characters double quote, bar, single quote and closing bracket are
    removed, the rest is split at every dot or opening bracket, and empty
    pieces are dropped ([compact]). *)
Definition stringToPath (input : string) : list string :=
  compact
    (split_on (ascii_in ["."%char; "["%char])
       (remove_chars (ascii_in ["034"%char; "|"%char; "'"%char; "]"%char]) input)).

(** The segment list both [get] and [set] walk:
    [isKey(path) ? [path] : stringToPath(path)]. *)
Definition pathSegments (path : string) : list string :=
  if isKey path then [path] else stringToPath path.

(** [escapeBrackets] (part_000:53): [input.replace(/\]|\[/g, '')]. *)
Definition escapeBrackets (input : string) : string :=
  remove_chars (ascii_in ["]"%char; "["%char]) input.

(** *** Numeric strings *)

(** White space that [Number(s)] strips at both ends (ASCII part). *)
Definition is_space (c : ascii) : bool :=
  ((code c =? 32) || ((9 <=? code c) && (code c <=? 13)))%nat.

Fixpoint drop_while (p : ascii -> bool) (s : string) : string :=
  match s with
  | EmptyString => EmptyString
  | String c r => if p c then drop_while p r else s
  end.

Fixpoint string_rev_onto (s acc : string) : string :=
  match s with
  | EmptyString => acc
  | String c r => string_rev_onto r (String c acc)
  end.

Definition string_rev (s : string) : string := string_rev_onto s EmptyString.

Definition trim (s : string) : string :=
  string_rev (drop_while is_space (string_rev (drop_while is_space s))).

(** Splits off the longest prefix of decimal digits; returns its length. *)
Fixpoint span_digits (s : string) : nat * string :=
  match s with
  | EmptyString => (0, EmptyString)
  | String c r =>
      if is_digit c then let '(n, t) := span_digits r in (S n, t) else (0, s)
  end.

Definition is_sign (c : ascii) : bool := ascii_in ["+"%char; "-"%char] c.

Definition strip_sign (s : string) : string :=
  match s with
  | String c r => if is_sign c then r else s
  | EmptyString => s
  end.

(** An optional [ExponentPart] followed by the end of the string. *)
Definition exponent_opt (s : string) : bool :=
  match s with
  | EmptyString => true
  | String c r =>
      if ascii_in ["e"%char; "E"%char] c then
        let '(n, t) := span_digits (strip_sign r) in
        (0 <? n)%nat && String.eqb t EmptyString
      else false
  end.

Definition unsigned_decimal (s : string) : bool :=
  if String.eqb s "Infinity" then true
  else
    let '(n1, r1) := span_digits s in
    match r1 with
    | String "."%char r2 =>
        let '(n2, r3) := span_digits r2 in
        if ((n1 =? 0) && (n2 =? 0))%nat then false else exponent_opt r3
    | _ => if (n1 =? 0)%nat then false else exponent_opt r1
    end.

Definition is_hex_digit (c : ascii) : bool :=
  is_digit c
  || ((65 <=? code c) && (code c <=? 70))%nat
  || ((97 <=? code c) && (code c <=? 102))%nat.

Definition is_octal_digit (c : ascii) : bool :=
  ((48 <=? code c) && (code c <=? 55))%nat.

Definition is_binary_digit (c : ascii) : bool :=
  ((48 <=? code c) && (code c <=? 49))%nat.

Definition digits_of (p : ascii -> bool) (s : string) : bool :=
  nonempty s && string_forall p s.

(** [!isNaN(+s)]: does the string convert to a number?  Follows the
    [StringNumericLiteral] grammar: optional white space around either
    nothing, a signed decimal literal, or an unsigned [0x]/[0o]/[0b] literal. *)
Definition js_numeric (s : string) : bool :=
  match trim s with
  | EmptyString => true
  | String "0"%char (String c r) as t =>
      if ascii_in ["x"%char; "X"%char] c then digits_of is_hex_digit r
      else if ascii_in ["o"%char; "O"%char] c then digits_of is_octal_digit r
      else if ascii_in ["b"%char; "B"%char] c then digits_of is_binary_digit r
      else unsigned_decimal t
  | t => unsigned_decimal (strip_sign t)
  end.

(** *** Property enumeration order *)

Fixpoint parse_decimal (s : string) (acc : N) : option N :=
  match s with
  | EmptyString => Some acc
  | String c r =>
      if is_digit c
      then parse_decimal r (acc * 10 + N.of_nat (code c - 48))%N
      else None
  end.

(** An array index is the canonical decimal form of an integer below
    [2^32 - 1]. *)
Definition array_index (s : string) : option N :=
  match s with
  | EmptyString => None
  | String "0"%char EmptyString => Some 0%N
  | String "0"%char _ => None
  | _ =>
      match parse_decimal s 0 with
      | Some n => if (n <? 4294967295)%N then Some n else None
      | None => None
      end
  end.

Fixpoint insert_sorted {A} (n : N) (x : A) (l : list (N * A)) : list (N * A) :=
  match l with
  | [] => [(n, x)]
  | (m, y) :: r =>
      if (n <=? m)%N then (n, x) :: l else (m, y) :: insert_sorted n x r
  end.

Fixpoint index_entries {A} (ps : list (string * A)) : list (N * (string * A)) :=
  match ps with
  | [] => []
  | (k, v) :: r =>
      match array_index k with
      | Some n => insert_sorted n (k, v) (index_entries r)
      | None => index_entries r
      end
  end.

Definition named_entries {A} (ps : list (string * A)) : list (string * A) :=
  List.filter (fun kv => match array_index (fst kv) with Some _ => false | None => true end) ps.

(** The order of [for ... in], [Object.keys] and [Object.assign]: integer
    keys ascending, then the other keys in insertion order. *)
Definition ordered_entries {A} (ps : list (string * A)) : list (string * A) :=
  List.map snd (index_entries ps) ++ named_entries ps.

Definition own_keys (h : heap) (l : loc) : list string :=
  match h !! l with
  | Some o => List.map fst (ordered_entries (props o))
  | None => []
  end.

(** The elements an array callback such as [some] visits: the values at the
    index keys, ascending, holes skipped. *)
Definition array_values (o : obj) : list value :=
  List.map (fun e => snd (snd e)) (index_entries (props o)).

(** ** react-hook-form [get] and [set] *)

(** The [reduce] of [get]:
    [(result, key) => isNullOrUndefined(result) ? result : result[key]]. *)
Fixpoint nav (h : heap) (v : value) (segs : list string) : value :=
  match segs with
  | [] => v
  | k :: r => nav h (if isNullOrUndefined v then v else read_prop h v k) r
  end.

(** [get(object, path, defaultValue)]. *)
Definition get (h : heap) (object : value) (path : string) (defaultValue : value)
  : value :=
  if negb (nonempty path) || negb (isObject h object) then defaultValue
  else
    let result := nav h object (pathSegments path) in
    if isUndefined result || value_eqb result object
    then
      if isUndefined (read_prop h object path) then defaultValue
      else read_prop h object path
    else result.

Definition forbidden_key (k : string) : bool :=
  String.eqb k "__proto__" || String.eqb k "constructor" || String.eqb k "prototype".

(** The [while] loop of [set], one segment per iteration.  For every segment
    but the last the slot keeps its object or array, or receives a fresh
    array (next segment numeric) or object; the last segment receives
    [value].  A forbidden key ends the call.  [object = object[key]] reads
    the slot back.  The assignment is that of an ordinary data property: an
    assignment to the [length] of an array, which the engine may refuse, is
    not represented. *)
Fixpoint set_walk (h : heap) (object : loc) (segs : list string) (v : value)
  : heap :=
  match segs with
  | [] => h
  | key :: rest =>
      match rest with
      | [] => if forbidden_key key then h else write_prop h object key v
      | next :: _ =>
          let objValue := read_prop h (VRef object) key in
          let '(h1, newValue) :=
            if isObject h objValue || isArray h objValue then (h, objValue)
            else
              let '(h', l) :=
                alloc h (Obj (if js_numeric next then KArray else KPlain) []) in
              (h', VRef l) in
          if forbidden_key key then h1
          else
            let h2 := write_prop h1 object key newValue in
            match read_prop h2 (VRef object) key with
            | VRef l' => set_walk h2 l' rest v
            | _ => h2
            end
      end
  end.

(** [set(object, path, value)]. *)
Definition set (h : heap) (object : loc) (path : string) (v : value) : heap :=
  set_walk h object (pathSegments path) v.

(** ** The array-field test (part_000:38-44) *)

Inductive pat_atom := PChar (c : ascii) | PAny.

(** Characters with a syntactic role in a pattern, the dot apart. *)
Definition regex_special (c : ascii) : bool :=
  ascii_in ["\"%char; "^"%char; "$"%char; "*"%char; "+"%char; "?"%char;
            "("%char; ")"%char; "["%char; "]"%char; "{"%char; "}"%char;
            "|"%char] c.

Fixpoint atoms_of (s : string) : list pat_atom :=
  match s with
  | EmptyString => []
  | String c r => (if Ascii.eqb c "."%char then PAny else PChar c) :: atoms_of r
  end.

Definition has_char (c : ascii) (s : string) : bool :=
  string_exists (Ascii.eqb c) s.

(** What the engine makes of the interpolated name in
    [`^${path}\\.\\d+`]: a sequence of literal characters and dots when no
    other special character occurs; a syntax error when a group is opened
    and can be neither closed nor escaped; not interpreted otherwise. *)
Definition compile_name (path : string) : outcome (list pat_atom) :=
  if string_forall (fun c => negb (regex_special c)) path then Ret (atoms_of path)
  else if has_char "("%char path
          && negb (has_char ")"%char path)
          && negb (has_char "\"%char path)
  then Throw SyntaxError
  else Beyond.

(** The dot matches any character except a line terminator. *)
Definition line_terminator (c : ascii) : bool :=
  ((code c =? 10) || (code c =? 13))%nat.

Fixpoint match_atoms (p : list pat_atom) (s : string) : option string :=
  match p with
  | [] => Some s
  | a :: p' =>
      match s with
      | EmptyString => None
      | String c r =>
          let ok := match a with
                    | PChar x => Ascii.eqb x c
                    | PAny => negb (line_terminator c)
                    end in
          if ok then match_atoms p' r else None
      end
  end.

(** [s.match(/^<atoms>\.\d+/)] is not [null]. *)
Definition regex_match (p : list pat_atom) (s : string) : bool :=
  match match_atoms p s with
  | Some (String "."%char (String d _)) => is_digit d
  | _ => false
  end.

(** [names.some((n) => escapeBrackets(n).match(`^${path}\\.\\d+`))]: the
    callback runs on the elements in order and stops at the first match;
    [escapeBrackets] needs a string. *)
Fixpoint some_match (names : list value) (path : string) : outcome bool :=
  match names with
  | [] => Ret false
  | n :: r =>
      match n with
      | VStr s =>
          let* p := compile_name path in
          if regex_match p (escapeBrackets s) then Ret true else some_match r path
      | VRef _ => Beyond
      | _ => Throw TypeError
      end
  end.

Definition isNameInFieldArray (names : list value) (name : string) : outcome bool :=
  let path := escapeBrackets name in
  some_match names path.

(** ** [toNestErrors] (part_000:12-36) *)

(** [options.names || Object.keys(errors)], read as the list [some] walks. *)
Definition field_names (h : heap) (errors options : loc) : outcome (list value) :=
  let names := read_prop h (VRef options) "names" in
  if truthy names then
    match names with
    | VRef l =>
        match h !! l with
        | Some o =>
            match kind o with
            | KArray => Ret (array_values o)
            | _ => Throw TypeError
            end
        | None => Beyond
        end
    | _ => Throw TypeError
    end
  else Ret (List.map VStr (own_keys h errors)).

(** [Object.assign(errors[path] || {}, { ref: field && field.ref })]: the
    target is the record itself when there is one, a fresh object otherwise,
    and [ref] is written onto it; the one-property source object is not kept.
    A truthy primitive would be boxed, which the model does not cover. *)
Definition assign_ref (h : heap) (target ref : value) : outcome (heap * loc) :=
  if truthy target then
    match target with
    | VRef l => Ret (write_prop h l "ref" ref, l)
    | _ => Beyond
    end
  else
    let '(h1, l) := alloc h (Obj KPlain []) in
    Ret (write_prop h1 l "ref" ref, l).

(** [Object.assign({}, source)]: the own properties of [source] in
    enumeration order; [undefined] and [null] contribute nothing. *)
Definition copy_props (h : heap) (source : value) : outcome (list (string * value)) :=
  match source with
  | VRef l =>
      match h !! l with
      | Some o => Ret (ordered_entries (props o))
      | None => Beyond
      end
  | VStr _ => Beyond
  | _ => Ret []
  end.

Section Normalizer.

(** [validateFieldsNatively] is imported from a file that is not among the
    sources; it is a parameter here.  It reports validity on the host
    elements, so on the object heap it can only complete or throw. *)
Variable validateFieldsNatively : heap -> value -> value -> outcome unit.

(** Lines 20-32, the body of the [for ... in] loop. *)
Definition toNestErrors_body (errors options fieldErrors : loc)
    (h : heap) (path : string) : outcome heap :=
  let field := get h (read_prop h (VRef options) "fields") path VUndef in
  let* assigned :=
    assign_ref h (read_prop h (VRef errors) path)
      (js_and field (read_prop h field "ref")) in
  let '(h1, error) := assigned in
  let* names := field_names h1 errors options in
  let* inArray := isNameInFieldArray names path in
  if inArray then
    let* ps := copy_props h1 (get h1 (VRef fieldErrors) path VUndef) in
    let '(h2, fieldArrayErrors) := alloc h1 (Obj KPlain ps) in
    let h3 := set h2 fieldArrayErrors "root" (VRef error) in
    Ret (set h3 fieldErrors path (VRef fieldArrayErrors))
  else Ret (set h1 fieldErrors path (VRef error)).

Fixpoint toNestErrors_loop (errors options fieldErrors : loc)
    (h : heap) (paths : list string) : outcome heap :=
  match paths with
  | [] => Ret h
  | path :: rest =>
      let* h' := toNestErrors_body errors options fieldErrors h path in
      toNestErrors_loop errors options fieldErrors h' rest
  end.

(** Returns the new heap and the location of [fieldErrors]. *)
Definition toNestErrors (h : heap) (errors options : loc) : outcome (heap * loc) :=
  let* _ :=
    if truthy (read_prop h (VRef options) "shouldUseNativeValidation")
    then validateFieldsNatively h (VRef errors) (VRef options)
    else Ret tt in
  let '(h0, fieldErrors) := alloc h (Obj KPlain []) in
  let* h' := toNestErrors_loop errors options fieldErrors h0 (own_keys h0 errors) in
  Ret (h', fieldErrors).

End Normalizer.

(** ** The Joi adapter (joi.ts) *)

(** One element of a Joi error path: an object key or an array index. *)
Inductive PathItem := PKey (s : string) | PIndex (n : N).

(** An entry of [error.details]. *)
Record ErrorItem := {
  item_path : list PathItem;
  item_message : string;
  item_type : string
}.

(** An index as [join] prints it: in decimal. *)
Definition N_to_string (n : N) : string := NilEmpty.string_of_uint (N.to_uint n).

Definition item_string (p : PathItem) : string :=
  match p with
  | PKey s => s
  | PIndex n => N_to_string n
  end.

(** [parts.join('.')]. *)
Fixpoint join_dot (parts : list string) : string :=
  match parts with
  | [] => EmptyString
  | [x] => x
  | x :: r => x ++ "." ++ join_dot r
  end.

(** [error.path.join('.')]. *)
Definition joined_path (e : ErrorItem) : string :=
  join_dot (List.map item_string (item_path e)).

(** What a [types] entry holds: [true], one message, or an array of them. *)
Inductive msg := MsgTrue | MsgStr (s : string).

Inductive ValidateResult := Single (m : msg) | Several (l : list msg).

(** The [message] argument of [appendErrors] before [|| true]. *)
Inductive MsgArg := ArgStr (s : string) | ArgArr (l : list msg).

(** A [FieldError] as [parseErrorSchema] builds it; every member is optional. *)
Record FieldError := {
  fe_message : option string;
  fe_type : option string;
  fe_types : option (list (string * ValidateResult))
}.

Definition empty_FieldError : FieldError :=
  {| fe_message := None; fe_type := None; fe_types := None |}.

Definition result_truthy (r : ValidateResult) : bool :=
  match r with
  | Single MsgTrue => true
  | Single (MsgStr s) => nonempty s
  | Several _ => true
  end.

(** [message || true]. *)
Definition or_true (m : MsgArg) : ValidateResult :=
  match m with
  | ArgStr s => if nonempty s then Single (MsgStr s) else Single MsgTrue
  | ArgArr l => Several l
  end.

(** [([] as string[]).concat(messages, message)]: an array argument is
    spread, anything else is one element. *)
Definition concat_messages (messages : ValidateResult) (message : string) : list msg :=
  match messages with
  | Single m => [m; MsgStr message]
  | Several l => l ++ [MsgStr message]
  end.

(** react-hook-form [appendErrors]: with all-criteria validation on, the
    record at [name] is copied and its [types] receive [type] mapped to
    [message || true]; otherwise the result is an empty object. *)
Definition appendErrors (name : string) (validateAllFieldCriteria : bool)
    (errors : list (string * FieldError)) (type : string) (message : MsgArg)
  : FieldError :=
  if validateAllFieldCriteria then
    let current := assoc_get name errors in
    let base := match current with Some r => r | None => empty_FieldError end in
    let types := match current with
                 | Some r => match fe_types r with Some ts => ts | None => [] end
                 | None => []
                 end in
    {| fe_message := fe_message base;
       fe_type := fe_type base;
       fe_types := Some (assoc_set type (or_true message) types) |}
  else empty_FieldError.

(** The string-keyed properties of [Object.prototype].  An object literal
    inherits them: looking one of these names up on an object that does not
    have it as own property finds a function (for [__proto__] the prototype
    itself), which is truthy and has no [types]. *)
Definition object_proto_keys : list string :=
  [ "constructor"; "__defineGetter__"; "__defineSetter__"; "hasOwnProperty";
    "__lookupGetter__"; "__lookupSetter__"; "isPrototypeOf";
    "propertyIsEnumerable"; "toString"; "valueOf"; "__proto__";
    "toLocaleString" ].

Definition proto_key (k : string) : bool :=
  existsb (String.eqb k) object_proto_keys.

(** The callback of the [reduce] in [parseErrorSchema] (joi.ts:11-34).  The
    accumulator is a local object literal that nothing else refers to, so it
    is a value here: the insertion-ordered list of its own properties.
    - [!previous[_path]] is false when the path is an own key and also when
      it names an inherited property: no record is made then;
    - [previous[_path].types] is [undefined] for an inherited value;
    - [types[error.type]] on an own [types] object finds an own entry, or
      an inherited value when the type names one, which the model does not
      follow;
    - [previous[_path] = ...] adds or replaces an own property, except for
      [__proto__], where it would replace the prototype, which the model
      does not follow. *)
Definition parse_step (validateAllFieldCriteria : bool)
    (previous : list (string * FieldError)) (error : ErrorItem)
  : outcome (list (string * FieldError)) :=
  let _path := joined_path error in
  let previous1 :=
    match assoc_get _path previous with
    | Some _ => previous
    | None =>
        if proto_key _path then previous
        else
          assoc_set _path
            {| fe_message := Some (item_message error);
               fe_type := Some (item_type error);
               fe_types := None |} previous
    end in
  if validateAllFieldCriteria then
    if String.eqb _path "__proto__" then Beyond
    else
      let types := match assoc_get _path previous1 with
                   | Some r => fe_types r
                   | None => None
                   end in
      let* message :=
        match types with
        | Some ts =>
            match assoc_get (item_type error) ts with
            | Some m =>
                Ret (if result_truthy m
                     then ArgArr (concat_messages m (item_message error))
                     else ArgStr (item_message error))
            | None =>
                if proto_key (item_type error) then Beyond
                else Ret (ArgStr (item_message error))
            end
        | None => Ret (ArgStr (item_message error))
        end in
      Ret (assoc_set _path
             (appendErrors _path validateAllFieldCriteria previous1
                (item_type error) message)
             previous1)
  else Ret previous1.

(** The [reduce] itself. *)
Fixpoint parse_details (validateAllFieldCriteria : bool)
    (details : list ErrorItem) (previous : list (string * FieldError))
  : outcome (list (string * FieldError)) :=
  match details with
  | [] => Ret previous
  | error :: rest =>
      let* next := parse_step validateAllFieldCriteria previous error in
      parse_details validateAllFieldCriteria rest next
  end.

(** [parseErrorSchema] (joi.ts:6-35), on [error.details]. *)
Definition parseErrorSchema (details : list ErrorItem)
    (validateAllFieldCriteria : bool) : outcome (list (string * FieldError)) :=
  match details with
  | [] => Ret []
  | _ => parse_details validateAllFieldCriteria details []
  end.

(** A detail whose path and type name no inherited property. *)
Definition plain_detail (d : ErrorItem) : bool :=
  negb (proto_key (joined_path d)) && negb (proto_key (item_type d)).

(** What the callback comes to on such a detail, where every lookup is
    decided by the own properties; [parse_step] is shown to agree with it
    there. *)
Definition own_step (validateAllFieldCriteria : bool)
    (previous : list (string * FieldError)) (error : ErrorItem)
  : list (string * FieldError) :=
  let _path := joined_path error in
  let previous1 :=
    match assoc_get _path previous with
    | Some _ => previous
    | None =>
        assoc_set _path
          {| fe_message := Some (item_message error);
             fe_type := Some (item_type error);
             fe_types := None |} previous
    end in
  if validateAllFieldCriteria then
    let types := match assoc_get _path previous1 with
                 | Some r => fe_types r
                 | None => None
                 end in
    let messages := match types with
                    | Some ts => assoc_get (item_type error) ts
                    | None => None
                    end in
    let message :=
      match messages with
      | Some m =>
          if result_truthy m then ArgArr (concat_messages m (item_message error))
          else ArgStr (item_message error)
      | None => ArgStr (item_message error)
      end in
    assoc_set _path
      (appendErrors _path validateAllFieldCriteria previous1 (item_type error) message)
      previous1
  else previous1.

Definition own_parse (details : list ErrorItem)
    (validateAllFieldCriteria : bool) : list (string * FieldError) :=
  match details with
  | [] => []
  | _ => List.fold_left (own_step validateAllFieldCriteria) details []
  end.

(** *** The mapping as the specification words it

    Stated independently of [parse_step], to compare the code against: the
    first detail reported for a path, and the messages of one path and one
    error type collected in order. *)

Definition first_for (k : string) (details : list ErrorItem) : option ErrorItem :=
  List.find (fun e => String.eqb (joined_path e) k) details.

Definition first_record (d : ErrorItem) : FieldError :=
  {| fe_message := Some (item_message d);
     fe_type := Some (item_type d);
     fe_types := None |}.

Definition messages_for (k t : string) (details : list ErrorItem) : list string :=
  List.map item_message
    (List.filter (fun e => String.eqb (joined_path e) k && String.eqb (item_type e) t)
       details).

(** An empty message is recorded as [true] when it comes first. *)
Definition first_element (m : string) : msg :=
  if nonempty m then MsgStr m else MsgTrue.

Definition collected (l : list string) : option ValidateResult :=
  match l with
  | [] => None
  | [m] => Some (Single (first_element m))
  | m :: rest => Some (Several (first_element m :: List.map MsgStr rest))
  end.

(** [mapping[k].types[t]], when both exist. *)
Definition types_entry (k t : string) (mapping : list (string * FieldError))
  : option ValidateResult :=
  match assoc_get k mapping with
  | Some r => match fe_types r with Some ts => assoc_get t ts | None => None end
  | None => None
  end.

Definition is_some {A} (o : option A) : bool :=
  match o with Some _ => true | None => false end.

(** *** Placing the parsed mapping on the heap *)

Definition msg_value (m : msg) : value :=
  match m with
  | MsgTrue => VBool true
  | MsgStr s => VStr s
  end.

Fixpoint index_props (i : N) (l : list msg) : list (string * value) :=
  match l with
  | [] => []
  | m :: r => (N_to_string i, msg_value m) :: index_props (N.succ i) r
  end.

Definition store_result (h : heap) (r : ValidateResult) : heap * value :=
  match r with
  | Single m => (h, msg_value m)
  | Several l =>
      let '(h1, a) := alloc h (Obj KArray (index_props 0 l)) in (h1, VRef a)
  end.

Fixpoint store_types (h : heap) (ts : list (string * ValidateResult))
  : heap * list (string * value) :=
  match ts with
  | [] => (h, [])
  | (k, r) :: rest =>
      let '(h1, v) := store_result h r in
      let '(h2, ps) := store_types h1 rest in
      (h2, (k, v) :: ps)
  end.

Definition opt_prop (k : string) (o : option string) : list (string * value) :=
  match o with
  | Some s => [(k, VStr s)]
  | None => []
  end.

Definition store_field_error (h : heap) (e : FieldError) : heap * loc :=
  let '(h1, tprops) :=
    match fe_types e with
    | Some ts =>
        let '(h', ps) := store_types h ts in
        let '(h'', t) := alloc h' (Obj KPlain ps) in
        (h'', [("types", VRef t)])
    | None => (h, [])
    end in
  alloc h1 (Obj KPlain (opt_prop "message" (fe_message e)
                          ++ opt_prop "type" (fe_type e) ++ tprops)).

Fixpoint store_records (h : heap) (l : list (string * FieldError))
  : heap * list (string * value) :=
  match l with
  | [] => (h, [])
  | (k, e) :: rest =>
      let '(h1, r) := store_field_error h e in
      let '(h2, ps) := store_records h1 rest in
      (h2, (k, VRef r) :: ps)
  end.

Definition store_errors (h : heap) (l : list (string * FieldError)) : heap * loc :=
  let '(h1, ps) := store_records h l in
  alloc h1 (Obj KPlain ps).

(** *** The resolver *)

(** What validation can hand back as [error]: Joi's [ValidationError] with its
    [details], or any other thrown value. *)
Inductive failure :=
| ValidationError (details : list ErrorItem)
| Rejection (v : value).

Definition failure_truthy (e : failure) : bool :=
  match e with
  | ValidationError _ => true
  | Rejection v => truthy v
  end.

(** The object [schema.validate] returns. *)
Record ValidationResult := {
  result_error : option failure;
  result_value : value
}.

(** The external schema: its synchronous entry point returns a result or
    throws; its asynchronous one settles with a value or a rejection. *)
Record Schema := {
  validate : heap -> value -> loc -> outcome (heap * ValidationResult);
  validateAsync : heap -> value -> loc -> heap * (value + failure)
}.

Inductive SchemaCall :=
| CallValidate (values : value) (schemaOptions : loc)
| CallValidateAsync (values : value) (schemaOptions : loc).

(** A member of the returned object: the literal [{}] or a value at hand. *)
Inductive member := EmptyObject | Held (v : value).

Record ResolverResult := { values : member; errors : member }.

(** [parseErrorSchema(result.error, ...)] reads [error.details.length]. *)
Definition parse_failure (h : heap) (e : failure) (validateAllFieldCriteria : bool)
  : outcome (list (string * FieldError)) :=
  match e with
  | ValidationError details => parseErrorSchema details validateAllFieldCriteria
  | Rejection v =>
      if isNullOrUndefined (read_prop h v "details") then Throw TypeError else Beyond
  end.

(** [if (result.error)]: the error when there is one and it is truthy. *)
Definition truthy_error (e : option failure) : option failure :=
  match e with
  | Some f => if failure_truthy f then Some f else None
  | None => None
  end.

(** [Object.assign({}, schemaOptions, { context })] (joi.ts:63-65); the
    default [{ abortEarly: false }] stands in for a missing argument. *)
Definition merge_options (h : heap) (schemaOptions : option loc) (context : value)
  : heap * loc :=
  let given :=
    match schemaOptions with
    | Some l => match h !! l with Some o => ordered_entries (props o) | None => [] end
    | None => [("abortEarly", VBool false)]
    end in
  alloc h (Obj KPlain (assoc_set "context" context given)).

(** Lines 67-76: [result] after the branch on [resolverOptions.mode], with
    the entry point that was called.  A rejection of [validateAsync] is
    caught and becomes [result.error]. *)
Definition run_validation (schema : Schema) (mode : value) (h : heap)
    (values : value) (_schemaOptions : loc)
  : list SchemaCall * outcome (heap * ValidationResult) :=
  if value_eqb mode (VStr "sync") then
    ([CallValidate values _schemaOptions],
     validate schema h values _schemaOptions)
  else
    ([CallValidateAsync values _schemaOptions],
     let '(h2, settled) := validateAsync schema h values _schemaOptions in
     Ret (h2, match settled with
              | inl v => {| result_error := None; result_value := v |}
              | inr e => {| result_error := Some e; result_value := VUndef |}
              end)).


Definition reports (schema : Schema) (mode : value) (h1 : heap) (values : value)
    (so : loc) (h2 : heap) (e : failure) : Prop :=
  (mode = VStr "sync"
   /\ exists result,
        validate schema h1 values so = Ret (h2, result)
        /\ result_error result = Some e)
  \/ (mode <> VStr "sync" /\ validateAsync schema h1 values so = (h2, inr e)).

Section Resolver.

Variable validateFieldsNatively : heap -> value -> value -> outcome unit.

(** Lines 78-97: what is returned for a given [result]. *)
Definition respond (h2 : heap) (result : ValidationResult) (options : loc)
  : outcome (heap * ResolverResult) :=
  let native := truthy (read_prop h2 (VRef options) "shouldUseNativeValidation") in
  match truthy_error (result_error result) with
  | Some e =>
      let* parsed :=
        parse_failure h2 e
          (negb native
           && value_eqb (read_prop h2 (VRef options) "criteriaMode") (VStr "all")) in
      let '(h3, errs) := store_errors h2 parsed in
      let* nested := toNestErrors validateFieldsNatively h3 errs options in
      let '(h4, fieldErrors) := nested in
      Ret (h4, {| values := EmptyObject; errors := Held (VRef fieldErrors) |})
  | None =>
      let* _ :=
        if native then
          let '(h3, o) := alloc h2 (Obj KPlain []) in
          validateFieldsNatively h3 (VRef o) (VRef options)
        else Ret tt in
      Ret (h2, {| values := Held (result_value result); errors := EmptyObject |})
  end.

(** [joiResolver(schema, schemaOptions, resolverOptions)(values, context,
    options)] (joi.ts:54-98).  [schemaOptions] is [None] when the argument
    is left out, [mode] is [resolverOptions.mode].  The first component
    lists the schema entry points that were called; the second is how the
    returned promise settles. *)
Definition joiResolver (schema : Schema) (schemaOptions : option loc) (mode : value)
    (h : heap) (values context : value) (options : loc)
  : list SchemaCall * outcome (heap * ResolverResult) :=
  let '(h1, _schemaOptions) := merge_options h schemaOptions context in
  let '(calls, validated) := run_validation schema mode h1 values _schemaOptions in
  (calls,
   let* got := validated in
   let '(h2, result) := got in
   respond h2 result options).

End Resolver.

(** ** Inputs on which the normalizer is specified

    The conditions under which the tree holds every error at its own place:
    the records are separate objects that the options do not reach, every
    path can be walked by [set], and no place lies on the way to another. *)

(** The record [errors[path]] refers to. *)
Definition record_of (h : heap) (errors : loc) (path : string) : loc :=
  match read_prop h (VRef errors) path with
  | VRef r => r
  | _ => 0
  end.

(** The outcome of the array-field test for [path], when it has one. *)
Definition in_field_array (h : heap) (errors options : loc) (path : string) : bool :=
  match field_names h errors options with
  | Ret names =>
      match isNameInFieldArray names path with
      | Ret b => b
      | _ => false
      end
  | _ => false
  end.

(** Where the record of [path] is put: at the segments of the path, or one
    level below under [root] when the path names an array field. *)
Definition position (h : heap) (errors options : loc) (path : string) : list string :=
  pathSegments path
  ++ (if in_field_array h errors options path then ["root"] else []).

(** The value attached as [ref]: [field && field.ref]. *)
Definition field_ref (h : heap) (options : loc) (path : string) : value :=
  let field := get h (read_prop h (VRef options) "fields") path VUndef in
  js_and field (read_prop h field "ref").



Fixpoint prefixb (a b : list string) : bool :=
  match a, b with
  | [], _ => true
  | x :: a', y :: b' => String.eqb x y && prefixb a' b'
  | _ :: _, [] => false
  end.

Definition apart (a b : list string) : bool :=
  negb (prefixb a b) && negb (prefixb b a).

Fixpoint all_apart (l : list (list string)) : bool :=
  match l with
  | [] => true
  | a :: r => forallb (apart a) r && all_apart r
  end.

(** [set] reaches the last segment by ordinary assignments: there is a
    segment, none is forbidden, and none is [length]. *)
Definition walkable (segs : list string) : bool :=
  match segs with
  | [] => false
  | _ => forallb (fun k => negb (forbidden_key k) && negb (String.eqb k "length")) segs
  end.

Definition inb (l : loc) (F : list loc) : bool := existsb (Nat.eqb l) F.


(** Every reference held by an object of [F] stays in [F]. *)
Definition closed_under (h : heap) (F : list loc) : bool :=
  forallb
    (fun l =>
       match h !! l with
       | Some o =>
           forallb (fun kv => match snd kv with VRef r => inb r F | _ => true end)
             (props o)
       | None => false
       end) F.

(** A name in which, once its brackets are gone, the pattern engine finds
    literal characters and dots only. *)
Definition plain_name (name : string) : bool :=
  string_forall (fun c => negb (regex_special c)) (escapeBrackets name).

Definition is_string (v : value) : bool :=
  match v with VStr _ => true | _ => false end.

(** The array-field test runs on strings and on plain paths:
    [options.names] is not given or is an array of strings, and every path
    of the mapping is a plain name. *)
Definition names_plain (h : heap) (errors options : loc) : bool :=
  match field_names h errors options with
  | Ret names => forallb is_string names && forallb plain_name (own_keys h errors)
  | _ => false
  end.

Definition record_ok (h : heap) (errors : loc) (F : list loc) (path : string) : bool :=
  match read_prop h (VRef errors) path with
  | VRef r => (r <? length h)%nat && negb (r =? errors)%nat && negb (inb r F)
  | _ => false
  end.

(** [F] is a footprint of the options: it holds [options] and all that can
    be reached from it.  The mapping is tidy when
    - the names are strings and the paths plain names;
    - every path maps to an existing record, which is neither the mapping
      itself nor in [F];
    - every path is walkable;
    - the positions of the paths are pairwise apart. *)
Definition tidy (h : heap) (errors options : loc) (F : list loc) : bool :=
  let keys := own_keys h errors in
  names_plain h errors options
  && forallb (record_ok h errors F) keys
  && forallb (fun p => walkable (pathSegments p)) keys
  && all_apart (List.map (position h errors options) keys)
  && inb options F
  && closed_under h F.

(** *** The shape of the tree under construction

    The proof tracks which positions of [fieldErrors] hold what: nothing, a
    stored value, or an object that [set] created. *)

Inductive entry := EAbsent | ELeaf (v : value) | ENode (l : loc).

#[global] Instance entry_eq_dec : EqDecision entry.
Proof. solve_decision. Defined.

Definition entry_val (e : entry) : value :=
  match e with
  | EAbsent => VUndef
  | ELeaf v => v
  | ENode l => VRef l
  end.

Definition shape := list string -> entry.

Definition upd (T : shape) (P : list string) (e : entry) : shape :=
  fun t => if decide (t = P) then e else T t.

Definition navigable (h : heap) (v : value) : bool := isObject h v || isArray h v.

(** The heap represents the shape: nodes are objects allocated from [n0] on,
    each at one position only, whose properties are the entries one step
    below; every entry hangs from a node. *)
Record Rep (n0 : nat) (root : loc) (h : heap) (T : shape) : Prop := {
  rep_root : T [] = ENode root;
  rep_root_plain : isObject h (VRef root) = true;
  rep_node : forall s l, T s = ENode l ->
      n0 <= l /\ navigable h (VRef l) = true
      /\ forall k, read_prop h (VRef l) k = entry_val (T (s ++ [k]));
  rep_inj : forall s s' l, T s = ENode l -> T s' = ENode l -> s = s';
  rep_up : forall s k, T (s ++ [k]) <> EAbsent -> exists l, T s = ENode l
}.

(** *** Footprints and the loop invariant *)

(** [k] is an own property of the object at [l]. *)
Definition has_own (h : heap) (l : loc) (k : string) : bool :=
  match h !! l with
  | Some o => match assoc_get k (props o) with Some _ => true | None => false end
  | None => false
  end.

Definition in_footprint (F : list loc) (v : value) : Prop :=
  match v with
  | VRef l => In l F
  | _ => True
  end.

Definition agree_on (F : list loc) (h h' : heap) : Prop :=
  forall l, In l F -> h' !! l = h !! l.

(** What holds of the heap [hi] and the shape [T] once the paths [done] have
    been through the loop body, [h] being the heap at the call:
    objects of [h] that are no record of a path in [done] are as they were;
    a record differs from what it was in its [ref] only, which is the one
    computed from its field unless another path shares the record; and the
    shape stores these records, each at its position, with nothing else in
    it than the nodes leading there. *)
Record Inv (h : heap) (errors options : loc) (done : list string)
    (hi : heap) (T : shape) : Prop := {
  inv_rep : Rep (length h) (length h) hi T;
  inv_old : forall l, l < length h ->
      (forall q, In q done -> record_of h errors q <> l) -> hi !! l = h !! l;
  inv_ref : forall q, In q done ->
      (forall q', In q' done -> record_of h errors q' = record_of h errors q -> q' = q) ->
      read_prop hi (VRef (record_of h errors q)) "ref" = field_ref h options q;
  inv_has_ref : forall q, In q done ->
      has_own hi (record_of h errors q) "ref" = true;
  inv_rest : forall l k, l < length h -> k <> "ref" ->
      read_prop hi (VRef l) k = read_prop h (VRef l) k;
  inv_kind : forall l, l < length h -> kind_of hi (VRef l) = kind_of h (VRef l);
  inv_support : forall t, T t <> EAbsent ->
      t = [] \/ exists q u, In q done /\ position h errors options q = t ++ u;
  inv_leaf : forall t v, T t = ELeaf v ->
      exists q, In q done /\ t = position h errors options q;
  inv_placed : forall q, In q done ->
      T (position h errors options q) = ELeaf (VRef (record_of h errors q))
}.

(** *** Auxiliary statements *)

(** What the accumulator holds at key [k] once [done] has been folded. *)
Definition entry_ok (all : bool) (done : list ErrorItem) (k : string)
    (o : option FieldError) : Prop :=
  match o with
  | None => first_for k done = None
  | Some r =>
      exists d,
        first_for k done = Some d
        /\ fe_message r = Some (item_message d)
        /\ fe_type r = Some (item_type d)
        /\ if all
           then exists ts, fe_types r = Some ts
                           /\ forall t, assoc_get t ts = collected (messages_for k t done)
           else fe_types r = None
  end.


(** With all-criteria validation off the callback always returns, and the
    accumulator holds, for every path that names no inherited property, the
    first report of that path, and nothing else. *)
Definition first_only (done : list ErrorItem) (acc : list (string * FieldError)) : Prop :=
  forall k, assoc_get k acc
            = if proto_key k then None else option_map first_record (first_for k done).

(** An entry of the sorted index list carries the index of its own key. *)
Definition indexed_right {A} (e : N * (string * A)) : Prop :=
  array_index (fst (snd e)) = Some (fst e).


(** Native validation, when it is switched on, completes: once for the call
    made by [toNestErrors] on the errors, once for the call the resolver
    makes on a fresh empty object. *)
Definition native_allows (native : heap -> value -> value -> outcome unit)
    (h : heap) (errors options : loc) : Prop :=
  truthy (read_prop h (VRef options) "shouldUseNativeValidation") = true ->
  native h (VRef errors) (VRef options) = Ret tt.

Definition native_completes (native : heap -> value -> value -> outcome unit)
    (h : heap) (options : loc) : Prop :=
  truthy (read_prop h (VRef options) "shouldUseNativeValidation") = true ->
  native (h ++ [Obj KPlain []]) (VRef (length h)) (VRef options) = Ret tt.

(** *** The region the loop writes into

    [W] stands for the objects of the initial heap that the records and the
    options can reach; together with everything allocated from [n] on it is
    the only part of the heap the loop touches. *)

Definition in_region (n : nat) (W : list loc) (len : nat) (v : value) : Prop :=
  match v with
  | VRef l => In l W \/ (n <= l < len)
  | _ => True
  end.

Definition region_closed (n : nat) (W : list loc) (hi : heap) : Prop :=
  forall l k, In l W \/ (n <= l < length hi) ->
    in_region n W (length hi) (read_prop hi (VRef l) k).

(** Every object the mapping refers to lies in [W]. *)
Definition records_within (h : heap) (errors : loc) (W : list loc) : bool :=
  match h !! errors with
  | Some o =>
      forallb (fun kv => match snd kv with VRef r => inb r W | _ => true end) (props o)
  | None => true
  end.

(** The mapping is apart from what the loop writes into: [W] is closed under
    references, holds the options and every object the mapping refers to,
    and does not hold the mapping itself. *)
Definition separate (h : heap) (errors options : loc) (W : list loc) : bool :=
  closed_under h W && inb options W && negb (inb errors W)
  && records_within h errors W.

Record Confined (h : heap) (errors : loc) (W : list loc) (hi : heap) : Prop := {
  conf_closed : region_closed (length h) W hi;
  conf_length : length h < length hi;
  conf_outside : forall l, l < length h -> ~ In l W -> hi !! l = h !! l
}.
(** ** Notions used to state further properties of the code *)

(** [q] is [p] up to the dots of [p]: where [p] has a dot, [q] has any
    character that does not end a line; elsewhere they have the same
    character. *)
Fixpoint dot_loose (p q : string) : bool :=
  match p, q with
  | EmptyString, EmptyString => true
  | String a p', String b q' =>
      (if Ascii.eqb a "."%char then negb (line_terminator b) else Ascii.eqb a b)
      && dot_loose p' q'
  | _, _ => false
  end.

(** The distinct elements of a list in the order in which they first
    appear. *)
Fixpoint first_appearances (l : list string) : list string :=
  match l with
  | [] => []
  | k :: r => k :: List.filter (fun x => negb (String.eqb x k)) (first_appearances r)
  end.

(** [x] is not among [seen]. *)
Definition unseen (seen : list string) (x : string) : bool :=
  negb (existsb (String.eqb x) seen).

(** The characters [stringToPath] removes or splits at. *)
Definition path_special (c : ascii) : bool :=
  ascii_in ["."%char; "["%char; "]"%char; "034"%char; "|"%char; "'"%char] c.

(** A path element that survives the trip through a dotted string: an
    index, or a key that is not empty and has none of those characters. *)
Definition plain_item (p : PathItem) : bool :=
  match p with
  | PKey s => nonempty s && string_forall (fun c => negb (path_special c)) s
  | PIndex _ => true
  end.


(** [h'] is [h] with objects added at the end. *)
Definition extended (h h' : heap) : Prop := exists more, h' = h ++ more.

(** The value a record holds for an optional string member. *)
Definition member_value (o : option string) : value :=
  match o with
  | Some s => VStr s
  | None => VUndef
  end.

(** A name that opens a group and can neither close nor escape it. *)
Definition unclosed_group (name : string) : bool :=
  has_char "("%char name
  && negb (has_char ")"%char name)
  && negb (has_char "\"%char name).

(** The strings of a list of values, when all of them are strings. *)
Fixpoint strings_of (l : list value) : option (list string) :=
  match l with
  | [] => Some []
  | VStr s :: r => option_map (cons s) (strings_of r)
  | _ => None
  end.

(** The names the array-field test runs on, for a mapping whose keys are
    [keys]: [options.names] when it is an array of strings, the keys when
    no names are given. *)
Definition registered_names (h : heap) (options : loc) (keys : list string)
  : option (list string) :=
  let names := read_prop h (VRef options) "names" in
  if truthy names then
    match names with
    | VRef l =>
        match h !! l with
        | Some o =>
            match kind o with
            | KArray => strings_of (array_values o)
            | _ => None
            end
        | None => None
        end
    | _ => None
    end
  else Some keys.

(** Where the record of the key [k] is put, given the names: at the
    segments of [k], or under [root] below them when the test succeeds. *)
Definition keyed_position (names : list string) (k : string) : list string :=
  pathSegments k
  ++ match isNameInFieldArray (List.map VStr names) k with
     | Ret true => ["root"]
     | _ => []
     end.

(** Keys the tree can hold side by side: plain names that [set] can walk,
    no position on the way to another. *)
Definition clean_keys (names keys : list string) : bool :=
  forallb plain_name keys
  && forallb (fun k => walkable (pathSegments k)) keys
  && all_apart (List.map (keyed_position names) keys).

(** An entry of the sorted index list, without its value. *)
Definition entry_key {A} (e : N * (string * A)) : N * string :=
  (fst e, fst (snd e)).

(** The order in which [Object.keys] and [for...in] list properties that
    were created in the order [ks]: array indices first, ascending, then
    the other keys as created. *)
Definition key_order (ks : list string) : list string :=
  List.map fst (ordered_entries (List.map (fun k => (k, tt)) ks)).

(** ** Sample inputs used by the examples below *)

Definition completes : heap -> value -> value -> outcome unit :=
  fun _ _ _ => Ret tt.

(** Three reports for [items.0.name], two of them of one type, and one for
    [age] with an empty message. *)
Definition sample_details : list ErrorItem :=
  [ {| item_path := [PKey "items"; PIndex 0; PKey "name"];
       item_message := "must be a string"; item_type := "string.base" |};
    {| item_path := [PKey "items"; PIndex 0; PKey "name"];
       item_message := "too short"; item_type := "string.min" |};
    {| item_path := [PKey "items"; PIndex 0; PKey "name"];
       item_message := "still too short"; item_type := "string.min" |};
    {| item_path := [PKey "age"];
       item_message := EmptyString; item_type := "any.required" |} ].

(** A schema whose validation reports [details] whichever way it is asked. *)
Definition failing_schema (details : list ErrorItem) : Schema :=
  {| validate := fun h _ _ =>
       Ret (h, {| result_error := Some (ValidationError details);
                  result_value := VUndef |});
     validateAsync := fun h _ _ => (h, inr (ValidationError details)) |}.

(** A schema that accepts and hands back [v]. *)
Definition passing_schema (v : value) : Schema :=
  {| validate := fun h _ _ =>
       Ret (h, {| result_error := None; result_value := v |});
     validateAsync := fun h _ _ => (h, inl v) |}.

(** [options = { fields: {} }] at 0, the form values at 2. *)
Definition plain_options_heap : heap :=
  [ Obj KPlain [("fields", VRef 1)];
    Obj KPlain [];
    Obj KPlain [("age", VNum 7)] ].

(** A field whose name opens a group: [a(]. *)
Definition unclosed_details : list ErrorItem :=
  [ {| item_path := [PKey "a("];
       item_message := "is required"; item_type := "any.required" |} ].

(** A mapping with an array field: errors for [items.0], for [items] itself
    and for [name]; the only registered field is [name].
    Locations: 0 the mapping, 1 the options, 2, 3 and 5 the records,
    4 the field registry, 6 the field, 7 its element. *)
Definition array_field_heap : heap :=
  [ Obj KPlain [("items.0", VRef 2); ("items", VRef 3); ("name", VRef 5)];
    Obj KPlain [("fields", VRef 4)];
    Obj KPlain [("message", VStr "too short"); ("type", VStr "string.min")];
    Obj KPlain [("message", VStr "at least two"); ("type", VStr "array.min")];
    Obj KPlain [("name", VRef 6)];
    Obj KPlain [("message", VStr "is required"); ("type", VStr "any.required")];
    Obj KPlain [("ref", VRef 7); ("name", VStr "name")];
    Obj KPlain [] ].

Definition array_field_footprint : list loc := [1; 4; 6; 7].


(** Errors for [a.b] and then for [a]. *)
Definition overlapping_heap : heap :=
  [ Obj KPlain [("a.b", VRef 2); ("a", VRef 3)];
    Obj KPlain [("fields", VRef 4)];
    Obj KPlain [("message", VStr "is required"); ("type", VStr "any.required")];
    Obj KPlain [("message", VStr "needs b and c"); ("type", VStr "object.and")];
    Obj KPlain [] ].

(** A schema whose synchronous entry point throws and whose asynchronous
    one rejects with [v], a value that is no [ValidationError]. *)
Definition rejecting_schema (v : value) : Schema :=
  {| validate := fun _ _ _ => Throw HostError;
     validateAsync := fun h _ _ => (h, inr (Rejection v)) |}.

(** An error for a field named [a(], no names registered.
    Locations: 0 the mapping, 1 the options, 2 the record, 3 the registry. *)
Definition unclosed_heap : heap :=
  [ Obj KPlain [("a(", VRef 2)];
    Obj KPlain [("fields", VRef 3)];
    Obj KPlain [("message", VStr "is required"); ("type", VStr "any.required")];
    Obj KPlain [] ].

(** [options = { fields: {}, criteriaMode: 'all' }] at 0, the form values
    at 2. *)
Definition all_criteria_heap : heap :=
  [ Obj KPlain [("fields", VRef 1); ("criteriaMode", VStr "all")];
    Obj KPlain [];
    Obj KPlain [("age", VNum 7)] ].

(** An error for the array [items] itself and one for the name of its
    first element. *)
Definition array_details : list ErrorItem :=
  [ {| item_path := [PKey "items"];
       item_message := "at least two"; item_type := "array.min" |};
    {| item_path := [PKey "items"; PIndex 0; PKey "name"];
       item_message := "too short"; item_type := "string.min" |} ].

(** [options = { names: ['items.0.name'], fields: {} }] at 0, the registry
    at 1, the form values at 2, the names at 3. *)
Definition registered_heap : heap :=
  [ Obj KPlain [("names", VRef 3); ("fields", VRef 1)];
    Obj KPlain [];
    Obj KPlain [("items", VNull)];
    Obj KArray [("0", VStr "items.0.name")] ].

(** The overlapping mapping next to an object that neither the mapping nor
    the options refer to, at 5. *)
Definition bystander_heap : heap :=
  overlapping_heap ++ [ Obj KPlain [("untouched", VBool true)] ].

(** A report for a field named [toString]. *)
Definition inherited_details : list ErrorItem :=
  [ {| item_path := [PKey "toString"];
       item_message := "is required"; item_type := "any.required" |} ].

(** A report for a field named [total (net]. *)
Definition net_details : list ErrorItem :=
  [ {| item_path := [PKey "total (net"];
       item_message := "must be a number"; item_type := "number.base" |} ].


(** An error for a field named [a(] and then one for [b].
    Locations: 0 the mapping, 1 the options, 2 and 3 the records, 4 the
    registry. *)
Definition stopped_heap : heap :=
  [ Obj KPlain [("a(", VRef 2); ("b", VRef 3)];
    Obj KPlain [("fields", VRef 4)];
    Obj KPlain [("message", VStr "is required"); ("type", VStr "any.required")];
    Obj KPlain [("message", VStr "is required"); ("type", VStr "any.required")];
    Obj KPlain [] ].

(** * Proofs *)

(** ** Property lists *)

Lemma assoc_get_set {A} (k k' : string) (v : A) ps :
  assoc_get k (assoc_set k' v ps) = if String.eqb k k' then Some v else assoc_get k ps.
Proof.
  induction ps as [|[k0 v0] ps IH]; simpl.
  - destruct (String.eqb k k'); reflexivity.
  - destruct (String.eqb k' k0) eqn:E0; simpl.
    + apply String.eqb_eq in E0. subst k0.
      destruct (String.eqb k k'); reflexivity.
    + rewrite IH. destruct (String.eqb k k0) eqn:E1; [|reflexivity].
      apply String.eqb_eq in E1. subst k0.
      destruct (String.eqb k k') eqn:E2; [|reflexivity].
      apply String.eqb_eq in E2. subst k'. rewrite String.eqb_refl in E0. discriminate.
Qed.

Lemma assoc_get_set_eq {A} (k : string) (v : A) ps :
  assoc_get k (assoc_set k v ps) = Some v.
Proof. rewrite assoc_get_set, String.eqb_refl. reflexivity. Qed.

Lemma assoc_get_set_ne {A} (k k' : string) (v : A) ps :
  k <> k' -> assoc_get k (assoc_set k' v ps) = assoc_get k ps.
Proof.
  intros Hne. rewrite assoc_get_set.
  destruct (String.eqb k k') eqn:E; [|reflexivity].
  apply String.eqb_eq in E. contradiction.
Qed.

Lemma assoc_set_keys {A} (k : string) (v : A) ps x :
  In x (List.map fst (assoc_set k v ps)) -> x = k \/ In x (List.map fst ps).
Proof.
  induction ps as [|[k0 v0] ps IH]; simpl.
  - intros [H|[]]. left. congruence.
  - destruct (String.eqb k k0) eqn:E; simpl.
    + apply String.eqb_eq in E. subst k0. intros [H|H]; auto.
    + intros [H|H]; auto. destruct (IH H); auto.
Qed.

Lemma assoc_set_NoDup {A} (k : string) (v : A) ps :
  List.NoDup (List.map fst ps) -> List.NoDup (List.map fst (assoc_set k v ps)).
Proof.
  induction ps as [|[k0 v0] ps IH]; simpl; intros Hnd.
  - constructor; [intros []|constructor].
  - inversion Hnd as [|? ? Hnotin Hrest]; subst.
    destruct (String.eqb k k0) eqn:E; simpl.
    + apply String.eqb_eq in E. subst k0. constructor; assumption.
    + constructor; [|apply IH; assumption].
      intros Hin. apply assoc_set_keys in Hin. destruct Hin as [->|Hin].
      * rewrite String.eqb_refl in E. discriminate.
      * contradiction.
Qed.

Lemma assoc_get_In {A} (k : string) (v : A) ps :
  assoc_get k ps = Some v -> In (k, v) ps.
Proof.
  induction ps as [|[k0 v0] ps IH]; simpl; [discriminate|].
  destruct (String.eqb k k0) eqn:E.
  - apply String.eqb_eq in E. subst. intros [= ->]. left. reflexivity.
  - intros H. right. apply IH, H.
Qed.

(** ** The parsed mapping when no inherited name is involved *)

Lemma or_true_first (m : string) : or_true (ArgStr m) = Single (first_element m).
Proof. unfold or_true, first_element. destruct (nonempty m); reflexivity. Qed.

Lemma collected_truthy l r : collected l = Some r -> result_truthy r = true.
Proof.
  destruct l as [|m [|m' rest]]; simpl; intros [= <-]; try reflexivity.
  unfold first_element. destruct (nonempty m) eqn:E; simpl; auto.
Qed.

(** Collecting one more message is what [concat] then [|| true] compute. *)
Lemma collected_snoc l m :
  collected (l ++ [m]) =
  Some (match collected l with
        | Some prev => Several (concat_messages prev m)
        | None => Single (first_element m)
        end).
Proof.
  destruct l as [|a [|b rest]]; simpl; try reflexivity.
  rewrite List.map_app. reflexivity.
Qed.

Lemma first_for_snoc k done d :
  first_for k (done ++ [d]) =
  match first_for k done with
  | Some x => Some x
  | None => if String.eqb (joined_path d) k then Some d else None
  end.
Proof.
  unfold first_for. induction done as [|a done IH]; simpl.
  - reflexivity.
  - destruct (String.eqb (joined_path a) k); [reflexivity|exact IH].
Qed.

Lemma messages_for_snoc k t done d :
  messages_for k t (done ++ [d]) =
  messages_for k t done
  ++ (if String.eqb (joined_path d) k && String.eqb (item_type d) t
      then [item_message d] else []).
Proof.
  unfold messages_for. rewrite List.filter_app, List.map_app. simpl.
  destruct (String.eqb (joined_path d) k && String.eqb (item_type d) t); reflexivity.
Qed.

Lemma messages_for_none k t done :
  first_for k done = None -> messages_for k t done = [].
Proof.
  unfold first_for, messages_for. induction done as [|a done IH]; simpl; [reflexivity|].
  destruct (String.eqb (joined_path a) k); simpl; [discriminate|exact IH].
Qed.

Section ParseInvariant.

Lemma own_step_ok all done acc d :
  (forall k, entry_ok all done k (assoc_get k acc)) ->
  forall k, entry_ok all (done ++ [d]) k (assoc_get k (own_step all acc d)).
Proof.
  intros IH k. unfold own_step.
  set (p := joined_path d).
  assert (Hother : forall t, p <> k -> messages_for k t (done ++ [d]) = messages_for k t done).
  { intros t Hne. rewrite messages_for_snoc.
    destruct (String.eqb (joined_path d) k) eqn:E.
    - apply String.eqb_eq in E. contradiction.
    - simpl. apply List.app_nil_r. }
  assert (Hkeep : forall o, p <> k ->
             entry_ok all done k o -> entry_ok all (done ++ [d]) k o).
  { intros o Hne Ho. unfold entry_ok in *. rewrite first_for_snoc.
    assert (E : String.eqb (joined_path d) k = false) by (apply String.eqb_neq; exact Hne).
    destruct o as [r|].
    - destruct Ho as (d0 & Hf & Hm & Ht & Hall). exists d0. rewrite Hf.
      repeat split; auto. destruct all; auto.
      destruct Hall as (ts & Hts & Hagg). exists ts. split; auto.
      intros t. rewrite Hother by exact Hne. apply Hagg.
    - rewrite Ho, E. reflexivity. }
  pose proof (IH p) as Hp. unfold entry_ok in Hp.
  destruct (assoc_get p acc) as [r0|] eqn:Hget.
  - (* the path is already present *)
    destruct Hp as (d0 & Hf & Hm & Ht & Hall).
    destruct all eqn:Eall.
    + rewrite Hget. destruct Hall as (ts & Hts & Hagg). rewrite Hts.
      rewrite assoc_get_set. destruct (String.eqb k p) eqn:Ekp.
      * apply String.eqb_eq in Ekp. subst k.
        unfold appendErrors. rewrite Hget. simpl. rewrite Hts.
        exists d0. rewrite first_for_snoc, Hf. simpl.
        split; [reflexivity|]. split; [exact Hm|]. split; [exact Ht|].
        eexists. split; [reflexivity|]. intros t.
        rewrite assoc_get_set, messages_for_snoc.
        fold p. rewrite String.eqb_refl. simpl.
        destruct (String.eqb t (item_type d)) eqn:Et.
        -- apply String.eqb_eq in Et. subst t. rewrite String.eqb_refl.
           rewrite collected_snoc. rewrite <- Hagg.
           destruct (assoc_get (item_type d) ts) as [prev|] eqn:Eprev.
           ++ rewrite (collected_truthy (messages_for p (item_type d) done) prev)
                by (rewrite <- Hagg; exact Eprev).
              reflexivity.
           ++ rewrite or_true_first. reflexivity.
        -- assert (E' : String.eqb (item_type d) t = false).
           { rewrite String.eqb_sym. exact Et. }
           rewrite E'. rewrite List.app_nil_r. apply Hagg.
      * apply Hkeep; [|apply IH].
        intros ->. rewrite String.eqb_refl in Ekp. discriminate.
    + destruct (String.eqb k p) eqn:Ekp.
      * apply String.eqb_eq in Ekp. subst k. rewrite Hget. simpl.
        exists d0. rewrite first_for_snoc, Hf. repeat split; auto.
      * apply Hkeep; [|apply IH].
        intros ->. rewrite String.eqb_refl in Ekp. discriminate.
  - (* the path is new *)
    destruct all eqn:Eall.
    + unfold appendErrors.
      rewrite !assoc_get_set, !String.eqb_refl. simpl.
      destruct (String.eqb k p) eqn:Ekp.
      * apply String.eqb_eq in Ekp. subst k. simpl.
        exists d. rewrite first_for_snoc, Hp. fold p. rewrite String.eqb_refl.
        split; [reflexivity|]. split; [reflexivity|]. split; [reflexivity|].
        eexists. split; [reflexivity|]. intros t. simpl.
        rewrite messages_for_snoc, (messages_for_none _ _ _ Hp).
        fold p. rewrite String.eqb_refl. simpl.
        destruct (String.eqb t (item_type d)) eqn:Et.
        -- apply String.eqb_eq in Et. subst t. rewrite String.eqb_refl. simpl.
           unfold first_element. destruct (nonempty (item_message d)); reflexivity.
        -- assert (E' : String.eqb (item_type d) t = false).
           { rewrite String.eqb_sym. exact Et. }
           rewrite E'. reflexivity.
      * apply Hkeep; [|apply IH].
        intros ->. rewrite String.eqb_refl in Ekp. discriminate.
    + rewrite assoc_get_set. destruct (String.eqb k p) eqn:Ekp.
      * apply String.eqb_eq in Ekp. subst k. simpl.
        exists d. rewrite first_for_snoc, Hp. fold p. rewrite String.eqb_refl.
        repeat split; auto.
      * apply Hkeep; [|apply IH].
        intros ->. rewrite String.eqb_refl in Ekp. discriminate.
Qed.

Lemma parse_fold_ok all rest : forall done acc,
  (forall k, entry_ok all done k (assoc_get k acc)) ->
  forall k, entry_ok all (done ++ rest) k
              (assoc_get k (List.fold_left (own_step all) rest acc)).
Proof.
  induction rest as [|d rest IH]; intros done acc Hacc k; simpl.
  - rewrite List.app_nil_r. apply Hacc.
  - replace (done ++ d :: rest) with ((done ++ [d]) ++ rest)
      by (rewrite <- List.app_assoc; reflexivity).
    apply IH. apply own_step_ok. exact Hacc.
Qed.

Lemma own_parse_ok all details :
  forall k, entry_ok all details k (assoc_get k (own_parse details all)).
Proof.
  intros k. unfold own_parse.
  destruct details as [|d rest] eqn:E; [reflexivity|].
  rewrite <- E. change details with ([] ++ details) at 1.
  rewrite E. apply (parse_fold_ok all (d :: rest) [] []). intros k'. reflexivity.
Qed.

Lemma own_step_NoDup all acc d :
  List.NoDup (List.map fst acc) -> List.NoDup (List.map fst (own_step all acc d)).
Proof.
  intros Hnd. unfold own_step.
  destruct (assoc_get (joined_path d) acc); destruct all;
    repeat apply assoc_set_NoDup; exact Hnd.
Qed.

Lemma own_parse_NoDup all details :
  List.NoDup (List.map fst (own_parse details all)).
Proof.
  unfold own_parse. destruct details as [|d rest]; [constructor|].
  assert (H : forall l acc, List.NoDup (List.map fst acc) ->
              List.NoDup (List.map fst (List.fold_left (own_step all) l acc))).
  { induction l as [|x l IH]; intros acc Hacc; simpl; [exact Hacc|].
    apply IH, own_step_NoDup, Hacc. }
  apply H. constructor.
Qed.

End ParseInvariant.

(** ** Enumeration order does not change what a key holds *)

Lemma assoc_get_app {A} (k : string) (l1 l2 : list (string * A)) :
  assoc_get k (l1 ++ l2) =
  match assoc_get k l1 with Some v => Some v | None => assoc_get k l2 end.
Proof.
  induction l1 as [|[k0 v0] l1 IH]; simpl; [reflexivity|].
  destruct (String.eqb k k0); [reflexivity|exact IH].
Qed.

Lemma insert_sorted_indexed {A} n (x : string * A) L :
  array_index (fst x) = Some n -> List.Forall indexed_right L ->
  List.Forall indexed_right (insert_sorted n x L).
Proof.
  intros Hx. induction L as [|[m y] L IH]; simpl; intros HL.
  - constructor; [exact Hx|constructor].
  - destruct (n <=? m)%N.
    + constructor; [exact Hx|exact HL].
    + inversion HL; subst. constructor; [assumption|apply IH; assumption].
Qed.

Lemma index_entries_indexed {A} (ps : list (string * A)) :
  List.Forall indexed_right (index_entries ps).
Proof.
  induction ps as [|[k v] ps IH]; simpl; [constructor|].
  destruct (array_index k) eqn:E; [|exact IH].
  apply insert_sorted_indexed; [exact E|exact IH].
Qed.

Lemma assoc_get_insert_sorted {A} n k0 (v0 : A) L k :
  List.Forall indexed_right L -> array_index k0 = Some n ->
  assoc_get k (List.map snd (insert_sorted n (k0, v0) L)) =
  if String.eqb k k0 then Some v0 else assoc_get k (List.map snd L).
Proof.
  intros HL Hk0. induction L as [|[m [k1 v1]] L IH]; simpl.
  - reflexivity.
  - inversion HL as [|? ? H1 HL']; subst. unfold indexed_right in H1. simpl in H1.
    destruct (n <=? m)%N eqn:Enm; simpl; [reflexivity|].
    rewrite (IH HL').
    destruct (String.eqb k k1) eqn:E1; [|reflexivity].
    destruct (String.eqb k k0) eqn:E0; [|reflexivity].
    apply String.eqb_eq in E1, E0. subst k1 k0.
    rewrite H1 in Hk0. injection Hk0 as ->.
    apply N.leb_gt in Enm. lia.
Qed.

Lemma assoc_get_index {A} (ps : list (string * A)) k :
  assoc_get k (List.map snd (index_entries ps)) =
  match array_index k with Some _ => assoc_get k ps | None => None end.
Proof.
  induction ps as [|[k0 v0] ps IH]; simpl.
  - destruct (array_index k); reflexivity.
  - destruct (array_index k0) as [n|] eqn:E0.
    + rewrite (assoc_get_insert_sorted n k0 v0 _ k (index_entries_indexed ps) E0).
      destruct (String.eqb k k0) eqn:E; [|exact IH].
      apply String.eqb_eq in E. subst k0. rewrite E0. reflexivity.
    + rewrite IH. destruct (array_index k) eqn:Ek; [|reflexivity].
      destruct (String.eqb k k0) eqn:E; [|reflexivity].
      apply String.eqb_eq in E. subst k0. congruence.
Qed.

Lemma assoc_get_named {A} (ps : list (string * A)) k :
  assoc_get k (named_entries ps) =
  match array_index k with Some _ => None | None => assoc_get k ps end.
Proof.
  unfold named_entries. induction ps as [|[k0 v0] ps IH]; simpl.
  - destruct (array_index k); reflexivity.
  - destruct (array_index k0) as [n|] eqn:E0; simpl.
    + rewrite IH. destruct (array_index k) eqn:Ek; [reflexivity|].
      destruct (String.eqb k k0) eqn:E; [|reflexivity].
      apply String.eqb_eq in E. subst k0. congruence.
    + destruct (String.eqb k k0) eqn:E.
      * apply String.eqb_eq in E. subst k0. rewrite E0. reflexivity.
      * exact IH.
Qed.

Lemma assoc_get_ordered {A} (ps : list (string * A)) k :
  assoc_get k (ordered_entries ps) = assoc_get k ps.
Proof.
  unfold ordered_entries. rewrite assoc_get_app, assoc_get_index, assoc_get_named.
  destruct (array_index k); [|reflexivity].
  destruct (assoc_get k ps); reflexivity.
Qed.

(** ** [parseErrorSchema] in general *)

(** On a plain detail the callback is [own_step]. *)
Lemma parse_step_own all acc d :
  plain_detail d = true -> parse_step all acc d = Ret (own_step all acc d).
Proof.
  unfold plain_detail, parse_step, own_step. intros H.
  apply andb_prop in H. destruct H as [Hp Ht].
  apply negb_true_iff in Hp, Ht. rewrite Hp.
  assert (Hne : String.eqb (joined_path d) "__proto__" = false).
  { destruct (String.eqb (joined_path d) "__proto__") eqn:E; [|reflexivity].
    apply String.eqb_eq in E. rewrite E in Hp. discriminate. }
  destruct all; [|reflexivity]. rewrite Hne.
  set (previous1 := match assoc_get (joined_path d) acc with
                    | Some _ => acc
                    | None => assoc_set (joined_path d) _ acc
                    end).
  destruct (match assoc_get (joined_path d) previous1 with
            | Some r => fe_types r
            | None => None
            end) as [ts|]; [|reflexivity].
  destruct (assoc_get (item_type d) ts) as [m|]; [reflexivity|].
  rewrite Ht. reflexivity.
Qed.

Lemma parse_details_own all ds : forall acc,
  forallb plain_detail ds = true ->
  parse_details all ds acc = Ret (List.fold_left (own_step all) ds acc).
Proof.
  induction ds as [|d ds IH]; intros acc H; simpl; [reflexivity|].
  simpl in H. apply andb_prop in H. destruct H as [Hd Hds].
  rewrite (parse_step_own all acc d Hd). cbn [obind]. apply IH, Hds.
Qed.

Lemma parseErrorSchema_own all details :
  forallb plain_detail details = true ->
  parseErrorSchema details all = Ret (own_parse details all).
Proof.
  intros H. unfold parseErrorSchema, own_parse.
  destruct details as [|d ds]; [reflexivity|]. apply parse_details_own, H.
Qed.

Lemma parse_step_NoDup all acc d acc' :
  List.NoDup (List.map fst acc) -> parse_step all acc d = Ret acc' ->
  List.NoDup (List.map fst acc').
Proof.
  intros Hnd. unfold parse_step.
  set (previous1 := match assoc_get (joined_path d) acc with
                    | Some _ => acc
                    | None => if proto_key (joined_path d) then acc
                              else assoc_set (joined_path d) _ acc
                    end).
  assert (H1 : List.NoDup (List.map fst previous1)).
  { subst previous1. destruct (assoc_get (joined_path d) acc); [exact Hnd|].
    destruct (proto_key (joined_path d)); [exact Hnd|apply assoc_set_NoDup, Hnd]. }
  destruct all; [|intros [= <-]; exact H1].
  destruct (String.eqb (joined_path d) "__proto__"); [discriminate|].
  destruct (match match assoc_get (joined_path d) previous1 with
                  | Some r => fe_types r
                  | None => None
                  end with
            | Some ts => _
            | None => _
            end) as [message| |]; cbn [obind]; try discriminate.
  intros [= <-]. apply assoc_set_NoDup, H1.
Qed.

Lemma parse_details_NoDup all ds : forall acc acc',
  List.NoDup (List.map fst acc) -> parse_details all ds acc = Ret acc' ->
  List.NoDup (List.map fst acc').
Proof.
  induction ds as [|d ds IH]; intros acc acc' Hnd; simpl.
  - intros [= <-]. exact Hnd.
  - destruct (parse_step all acc d) as [acc1| |] eqn:E; cbn [obind]; try discriminate.
    apply IH. apply (parse_step_NoDup all acc d acc1 Hnd E).
Qed.

Lemma parseErrorSchema_NoDup all details m :
  parseErrorSchema details all = Ret m -> List.NoDup (List.map fst m).
Proof.
  unfold parseErrorSchema. destruct details as [|d ds].
  - intros [= <-]. constructor.
  - apply parse_details_NoDup. constructor.
Qed.

Lemma parse_step_first done acc d :
  first_only done acc ->
  exists acc', parse_step false acc d = Ret acc' /\ first_only (done ++ [d]) acc'.
Proof.
  intros H. unfold parse_step. eexists. split; [reflexivity|].
  intros k. rewrite first_for_snoc.
  pose proof (H (joined_path d)) as Hp. pose proof (H k) as Hk.
  destruct (String.eqb (joined_path d) k) eqn:E.
  - apply String.eqb_eq in E. subst k.
    destruct (proto_key (joined_path d)) eqn:Epk.
    + rewrite Hp. exact Hp.
    + rewrite Hp. destruct (first_for (joined_path d) done) as [d0|]; simpl.
      * exact Hp.
      * rewrite assoc_get_set_eq. reflexivity.
  - assert (Hne : k <> joined_path d).
    { intros ->. rewrite String.eqb_refl in E. discriminate. }
    assert (Hsame : assoc_get k
                      match assoc_get (joined_path d) acc with
                      | Some _ => acc
                      | None => if proto_key (joined_path d) then acc
                                else assoc_set (joined_path d)
                                       {| fe_message := Some (item_message d);
                                          fe_type := Some (item_type d);
                                          fe_types := None |} acc
                      end = assoc_get k acc).
    { destruct (assoc_get (joined_path d) acc); [reflexivity|].
      destruct (proto_key (joined_path d)); [reflexivity|].
      apply assoc_get_set_ne, Hne. }
    rewrite Hsame, Hk. destruct (proto_key k); [reflexivity|].
    destruct (first_for k done); reflexivity.
Qed.

Lemma parse_details_first ds : forall done acc,
  first_only done acc ->
  exists acc', parse_details false ds acc = Ret acc' /\ first_only (done ++ ds) acc'.
Proof.
  induction ds as [|d ds IH]; intros done acc H; cbn [parse_details].
  - exists acc. rewrite List.app_nil_r. split; [reflexivity|exact H].
  - destruct (parse_step_first done acc d H) as (acc1 & E1 & H1).
    rewrite E1. cbn [obind].
    destruct (IH (done ++ [d]) acc1 H1) as (acc' & E' & H').
    exists acc'. split; [exact E'|]. rewrite <- List.app_assoc in H'. exact H'.
Qed.

Lemma parseErrorSchema_first details :
  exists m, parseErrorSchema details false = Ret m /\ first_only details m.
Proof.
  unfold parseErrorSchema. destruct details as [|d ds].
  - exists []. split; [reflexivity|]. intros k. simpl. destruct (proto_key k); reflexivity.
  - apply (parse_details_first (d :: ds) [] []).
    intros k. simpl. destruct (proto_key k); reflexivity.
Qed.

(** ** Reading and writing the heap *)

Lemma assoc_set_same {A} (k : string) (v : A) ps :
  assoc_get k ps = Some v -> assoc_set k v ps = ps.
Proof.
  induction ps as [|[k0 v0] ps IH]; simpl; [discriminate|].
  destruct (String.eqb k k0) eqn:E.
  - apply String.eqb_eq in E. subst. intros [= ->]. reflexivity.
  - intros H. rewrite IH by exact H. reflexivity.
Qed.

Lemma lookup_write_eq (h : heap) l k v o :
  h !! l = Some o ->
  write_prop h l k v !! l = Some (Obj (kind o) (assoc_set k v (props o))).
Proof.
  intros H. unfold write_prop. rewrite H.
  apply list_lookup_insert_eq. eapply lookup_lt_Some, H.
Qed.

Lemma lookup_write_ne (h : heap) l l' k v :
  l <> l' -> write_prop h l k v !! l' = h !! l'.
Proof.
  intros Hne. unfold write_prop. destruct (h !! l); [|reflexivity].
  apply list_lookup_insert_ne, Hne.
Qed.

Lemma length_write (h : heap) l k v : length (write_prop h l k v) = length h.
Proof. unfold write_prop. destruct (h !! l); [apply length_insert|reflexivity]. Qed.

Lemma read_write_eq (h : heap) l k v :
  l < length h -> read_prop (write_prop h l k v) (VRef l) k = v.
Proof.
  intros Hl. apply lookup_lt_is_Some_2 in Hl. destruct Hl as [o Ho].
  unfold read_prop. rewrite (lookup_write_eq h l k v o Ho).
  unfold obj_get. simpl. rewrite assoc_get_set_eq. reflexivity.
Qed.

Lemma read_write_ne (h : heap) l k v l' k' :
  l <> l' \/ k <> k' ->
  read_prop (write_prop h l k v) (VRef l') k' = read_prop h (VRef l') k'.
Proof.
  intros Hne. unfold read_prop.
  destruct (decide (l = l')) as [<-|Hl].
  - destruct Hne as [Hne|Hk]; [contradiction|].
    destruct (h !! l) as [o|] eqn:Ho.
    + rewrite (lookup_write_eq h l k v o Ho). unfold obj_get. simpl.
      rewrite assoc_get_set_ne by congruence. reflexivity.
    + unfold write_prop. rewrite Ho, Ho. reflexivity.
  - rewrite lookup_write_ne by exact Hl. reflexivity.
Qed.

Lemma read_write_val (h : heap) l k v x k' :
  (forall l', x <> VRef l') ->
  read_prop (write_prop h l k v) x k' = read_prop h x k'.
Proof. intros Hx. destruct x; try reflexivity. exfalso. eapply Hx. reflexivity. Qed.

Lemma kind_write (h : heap) l k v x : kind_of (write_prop h l k v) x = kind_of h x.
Proof.
  destruct x as [| | | | |l']; try reflexivity. simpl.
  destruct (decide (l = l')) as [<-|Hl].
  - destruct (h !! l) as [o|] eqn:Ho.
    + rewrite (lookup_write_eq h l k v o Ho). reflexivity.
    + unfold write_prop. rewrite Ho, Ho. reflexivity.
  - rewrite lookup_write_ne by exact Hl. reflexivity.
Qed.

Lemma navigable_write (h : heap) l k v x :
  navigable (write_prop h l k v) x = navigable h x.
Proof. unfold navigable, isObject, isArray. rewrite kind_write. reflexivity. Qed.

Lemma isObject_write (h : heap) l k v x :
  isObject (write_prop h l k v) x = isObject h x.
Proof. unfold isObject. rewrite kind_write. reflexivity. Qed.

Lemma write_same (h : heap) l k v :
  read_prop h (VRef l) k = v -> v <> VUndef -> write_prop h l k v = h.
Proof.
  unfold read_prop, write_prop. destruct (h !! l) as [o|] eqn:Ho; [|reflexivity].
  unfold obj_get. destruct (assoc_get k (props o)) as [v0|] eqn:Hg.
  - intros -> _. rewrite (assoc_set_same _ _ _ Hg).
    apply list_insert_id. destruct o; exact Ho.
  - intros <- Hv. contradiction.
Qed.

Lemma lookup_alloc_old (h : heap) o l : l < length h -> (h ++ [o]) !! l = h !! l.
Proof. apply lookup_app_l. Qed.

Lemma lookup_alloc_new (h : heap) o : (h ++ [o]) !! length h = Some o.
Proof. apply list_lookup_middle. reflexivity. Qed.

Lemma navigable_exists (h : heap) l : navigable h (VRef l) = true -> l < length h.
Proof.
  unfold navigable, isObject, isArray, kind_of.
  destruct (h !! l) as [o|] eqn:Ho; simpl; [|discriminate].
  intros _. eapply lookup_lt_Some, Ho.
Qed.

Lemma isObject_navigable (h : heap) v : isObject h v = true -> navigable h v = true.
Proof. unfold navigable. intros ->. reflexivity. Qed.

Lemma read_alloc_old (h : heap) o l k :
  l < length h -> read_prop (h ++ [o]) (VRef l) k = read_prop h (VRef l) k.
Proof. intros Hl. unfold read_prop. rewrite lookup_alloc_old by exact Hl. reflexivity. Qed.

Lemma read_alloc_new (h : heap) o k :
  read_prop (h ++ [o]) (VRef (length h)) k = obj_get o k.
Proof. unfold read_prop. rewrite lookup_alloc_new. reflexivity. Qed.

Lemma kind_alloc_old (h : heap) o l :
  l < length h -> kind_of (h ++ [o]) (VRef l) = kind_of h (VRef l).
Proof. intros Hl. simpl. rewrite lookup_alloc_old by exact Hl. reflexivity. Qed.

Lemma navigable_alloc_old (h : heap) o l :
  l < length h -> navigable (h ++ [o]) (VRef l) = navigable h (VRef l).
Proof.
  intros Hl. unfold navigable, isObject, isArray.
  rewrite kind_alloc_old by exact Hl. reflexivity.
Qed.

Lemma nav_snoc (h : heap) s : forall v k,
  nav h v (s ++ [k]) =
  let r := nav h v s in if isNullOrUndefined r then r else read_prop h r k.
Proof.
  induction s as [|a s IH]; intros v k; simpl; [reflexivity|].
  apply IH.
Qed.

Lemma has_own_write hi l k v r k' :
  has_own hi r k' = true -> has_own (write_prop hi l k v) r k' = true.
Proof.
  unfold has_own. destruct (hi !! r) as [o|] eqn:Ho; [|discriminate].
  destruct (decide (l = r)) as [->|Hne].
  - rewrite (lookup_write_eq hi r k v o Ho). simpl. rewrite assoc_get_set.
    destruct (String.eqb k' k); [reflexivity|]. intros H. exact H.
  - rewrite lookup_write_ne by exact Hne. rewrite Ho. intros H. exact H.
Qed.

Lemma has_own_alloc hi o r k :
  has_own hi r k = true -> has_own (hi ++ [o]) r k = true.
Proof.
  unfold has_own. destruct (hi !! r) as [o'|] eqn:Ho; [|discriminate].
  rewrite (lookup_app_l_Some _ _ _ _ Ho). intros H. exact H.
Qed.

Lemma has_own_written hi l k v :
  l < length hi -> has_own (write_prop hi l k v) l k = true.
Proof.
  intros Hl. apply lookup_lt_is_Some_2 in Hl. destruct Hl as [o Ho].
  unfold has_own. rewrite (lookup_write_eq hi l k v o Ho). simpl.
  rewrite assoc_get_set_eq. reflexivity.
Qed.

(** ** The heap represents the shape *)

Lemma snoc_not_nil {A} (s : list A) k : s ++ [k] <> [].
Proof. destruct s; discriminate. Qed.

Section Representation.

Variables (n0 : nat) (root : loc).

Lemma rep_node_exists h T s l : Rep n0 root h T -> T s = ENode l -> l < length h.
Proof.
  intros HR Hs. destruct (rep_node _ _ _ _ HR s l Hs) as (_ & Hnav & _).
  apply navigable_exists, Hnav.
Qed.

Lemma rep_bound h T : Rep n0 root h T -> n0 <= length h.
Proof.
  intros HR. pose proof (rep_root _ _ _ _ HR) as H0.
  destruct (rep_node _ _ _ _ HR [] root H0) as (Hn & _).
  pose proof (rep_node_exists h T [] root HR H0). lia.
Qed.

Lemma rep_absent_below h T s :
  Rep n0 root h T -> T s = EAbsent -> forall t, T (s ++ t) = EAbsent.
Proof.
  intros HR Hs t. induction t as [|k t IH] using rev_ind.
  - rewrite List.app_nil_r. exact Hs.
  - destruct (T (s ++ t ++ [k])) eqn:E; [reflexivity| |].
    + rewrite List.app_assoc in E.
      destruct (rep_up _ _ _ _ HR (s ++ t) k) as [l Hl]; [rewrite E; discriminate|].
      rewrite IH in Hl. discriminate.
    + rewrite List.app_assoc in E.
      destruct (rep_up _ _ _ _ HR (s ++ t) k) as [l' Hl]; [rewrite E; discriminate|].
      rewrite IH in Hl. discriminate.
Qed.

(** Walking the segments from the root reads the shape, as long as no
    stored value lies strictly above the place asked for. *)
Lemma rep_nav h T : Rep n0 root h T -> forall s,
  (forall a b x, s = a ++ b -> b <> [] -> T a <> ELeaf x) ->
  nav h (VRef root) s = entry_val (T s).
Proof.
  intros HR s. induction s as [|k s IH] using rev_ind; intros Hleaf.
  - simpl. rewrite (rep_root _ _ _ _ HR). reflexivity.
  - rewrite nav_snoc. simpl. rewrite IH.
    + destruct (T s) as [|x|l] eqn:Es.
      * simpl. rewrite (rep_absent_below h T s HR Es [k]). reflexivity.
      * exfalso. apply (Hleaf s [k] x); [reflexivity|discriminate|exact Es].
      * simpl. destruct (rep_node _ _ _ _ HR s l Es) as (_ & _ & Hread).
        apply Hread.
    + intros a b x Hs Hb. apply (Hleaf a (b ++ [k]) x).
      * rewrite Hs, List.app_assoc. reflexivity.
      * destruct b; discriminate.
Qed.

Lemma rep_alloc h T o : Rep n0 root h T -> Rep n0 root (h ++ [o]) T.
Proof.
  intros HR. constructor.
  - apply (rep_root _ _ _ _ HR).
  - pose proof (rep_root_plain _ _ _ _ HR) as Hp.
    pose proof (navigable_exists h root (isObject_navigable _ _ Hp)) as Hlt.
    unfold isObject in *. rewrite kind_alloc_old by exact Hlt. exact Hp.
  - intros s l Hs. destruct (rep_node _ _ _ _ HR s l Hs) as (Hn & Hnav & Hread).
    pose proof (navigable_exists h l Hnav) as Hlt.
    split; [exact Hn|]. split.
    + rewrite navigable_alloc_old by exact Hlt. exact Hnav.
    + intros k. rewrite read_alloc_old by exact Hlt. apply Hread.
  - apply (rep_inj _ _ _ _ HR).
  - apply (rep_up _ _ _ _ HR).
Qed.

(** Writing to an object that is no node leaves the tree alone. *)
Lemma rep_write_other h T l k v :
  Rep n0 root h T -> (forall s, T s <> ENode l) -> Rep n0 root (write_prop h l k v) T.
Proof.
  intros HR Hl. constructor.
  - apply (rep_root _ _ _ _ HR).
  - rewrite isObject_write. apply (rep_root_plain _ _ _ _ HR).
  - intros s l' Hs. destruct (rep_node _ _ _ _ HR s l' Hs) as (Hn & Hnav & Hread).
    split; [exact Hn|]. split.
    + rewrite navigable_write. exact Hnav.
    + intros k'. rewrite read_write_ne; [apply Hread|].
      left. intros ->. apply (Hl s Hs).
  - apply (rep_inj _ _ _ _ HR).
  - apply (rep_up _ _ _ _ HR).
Qed.

End Representation.

(** ** Updating the shape *)

Lemma snoc_neq_self {A} (s : list A) k : s ++ [k] <> s.
Proof.
  intros H. apply (f_equal (@length A)) in H. rewrite length_app in H. simpl in H. lia.
Qed.

Lemma snoc_inj {A} (s s' : list A) k k' : s ++ [k] = s' ++ [k'] -> s = s' /\ k = k'.
Proof. apply List.app_inj_tail. Qed.

Lemma app_neq_self {A} (s t : list A) : t <> [] -> s ++ t <> s.
Proof.
  intros Ht H. apply (f_equal (@length A)) in H. rewrite length_app in H.
  destruct t; [contradiction|]. simpl in H. lia.
Qed.

Lemma upd_eq T P e : upd T P e P = e.
Proof. unfold upd. destruct (decide (P = P)); [reflexivity|contradiction]. Qed.

Lemma upd_ne T P e t : t <> P -> upd T P e t = T t.
Proof. intros H. unfold upd. destruct (decide (t = P)); [contradiction|reflexivity]. Qed.

Section Updates.

Variables (n0 : nat) (root : loc).

(** A stored value is written into a slot below which nothing hangs. *)
Lemma rep_leaf h T s l k v :
  Rep n0 root h T -> T s = ENode l ->
  (forall t, t <> [] -> T ((s ++ [k]) ++ t) = EAbsent) ->
  Rep n0 root (write_prop h l k v) (upd T (s ++ [k]) (ELeaf v)).
Proof.
  intros HR Hs Hbelow.
  pose proof (rep_node_exists n0 root h T s l HR Hs) as Hl.
  constructor.
  - rewrite upd_ne by (apply not_eq_sym, snoc_not_nil). apply (rep_root _ _ _ _ HR).
  - rewrite isObject_write. apply (rep_root_plain _ _ _ _ HR).
  - intros t l' Ht. destruct (decide (t = s ++ [k])) as [->|Hne].
    { rewrite upd_eq in Ht. discriminate. }
    rewrite upd_ne in Ht by exact Hne.
    destruct (rep_node _ _ _ _ HR t l' Ht) as (Hn & Hnav & Hread).
    split; [exact Hn|]. split; [rewrite navigable_write; exact Hnav|].
    intros k'. destruct (decide (t ++ [k'] = s ++ [k])) as [E|E].
    + apply snoc_inj in E. destruct E as [-> ->].
      rewrite Hs in Ht. injection Ht as <-.
      rewrite read_write_eq by exact Hl. rewrite upd_eq. reflexivity.
    + rewrite upd_ne by exact E. rewrite read_write_ne; [apply Hread|].
      destruct (decide (l = l')) as [<-|]; [|left; assumption].
      right. intros <-. apply E.
      rewrite (rep_inj _ _ _ _ HR t s l Ht Hs). reflexivity.
  - intros t t' x Ht Ht'.
    destruct (decide (t = s ++ [k])) as [->|Hne]; [rewrite upd_eq in Ht; discriminate|].
    destruct (decide (t' = s ++ [k])) as [->|Hne']; [rewrite upd_eq in Ht'; discriminate|].
    rewrite upd_ne in Ht, Ht' by assumption.
    apply (rep_inj _ _ _ _ HR t t' x Ht Ht').
  - intros t k' Hpres.
    destruct (decide (t ++ [k'] = s ++ [k])) as [E|E].
    + apply snoc_inj in E. destruct E as [-> ->].
      exists l. rewrite upd_ne by (apply not_eq_sym, snoc_neq_self). exact Hs.
    + rewrite upd_ne in Hpres by exact E.
      destruct (rep_up _ _ _ _ HR t k' Hpres) as [l' Hl'].
      destruct (decide (t = s ++ [k])) as [->|Hne].
      * exfalso. apply Hpres. apply Hbelow. discriminate.
      * exists l'. rewrite upd_ne by exact Hne. exact Hl'.
Qed.

(** An object [b] that is no node yet takes the slot [k] of [l]; its
    properties are the entries below that slot, except that under [kr] it
    holds the stored value [v]. *)
Lemma rep_graft h T s l k b kr v :
  Rep n0 root h T -> T s = ENode l ->
  n0 <= b -> navigable h (VRef b) = true -> (forall t, T t <> ENode b) ->
  (forall k', read_prop h (VRef b) k'
              = if String.eqb k' kr then v else entry_val (T ((s ++ [k]) ++ [k']))) ->
  (forall t, t <> [] -> T (((s ++ [k]) ++ [kr]) ++ t) = EAbsent) ->
  Rep n0 root (write_prop h l k (VRef b))
    (upd (upd T ((s ++ [k]) ++ [kr]) (ELeaf v)) (s ++ [k]) (ENode b)).
Proof.
  intros HR Hs Hn0 Hnavb Hfresh Hreads Hbelow.
  pose proof (rep_node_exists n0 root h T s l HR Hs) as Hl.
  assert (Hbl : l <> b) by (intros ->; apply (Hfresh s Hs)).
  set (P := s ++ [k]) in *. set (Q := P ++ [kr]) in *.
  assert (HQP : Q <> P) by apply snoc_neq_self.
  assert (HsP : s <> P) by (apply not_eq_sym, snoc_neq_self).
  assert (HsQ : s <> Q).
  { unfold Q, P. rewrite <- List.app_assoc. apply not_eq_sym, app_neq_self. discriminate. }
  constructor.
  - rewrite !upd_ne; [apply (rep_root _ _ _ _ HR)| |].
    + apply not_eq_sym, snoc_not_nil.
    + apply not_eq_sym, snoc_not_nil.
  - rewrite isObject_write. apply (rep_root_plain _ _ _ _ HR).
  - intros t l' Ht. destruct (decide (t = P)) as [->|HtP].
    + rewrite upd_eq in Ht. injection Ht as <-.
      split; [exact Hn0|]. split; [rewrite navigable_write; exact Hnavb|].
      intros k'. rewrite read_write_ne by (left; exact Hbl). rewrite Hreads.
      rewrite (upd_ne _ P) by apply snoc_neq_self.
      destruct (String.eqb k' kr) eqn:Ek.
      * apply String.eqb_eq in Ek. subst k'. fold Q. rewrite upd_eq. reflexivity.
      * rewrite upd_ne; [reflexivity|]. unfold Q. intros E.
        apply snoc_inj in E. destruct E as [_ ->].
        rewrite String.eqb_refl in Ek. discriminate.
    + rewrite upd_ne in Ht by exact HtP.
      destruct (decide (t = Q)) as [->|HtQ]; [rewrite upd_eq in Ht; discriminate|].
      rewrite upd_ne in Ht by exact HtQ.
      destruct (rep_node _ _ _ _ HR t l' Ht) as (Hn & Hnav & Hread).
      split; [exact Hn|]. split; [rewrite navigable_write; exact Hnav|].
      intros k'. destruct (decide (t ++ [k'] = P)) as [E|E].
      * unfold P in E. apply snoc_inj in E. destruct E as [-> ->].
        rewrite Hs in Ht. injection Ht as <-.
        rewrite read_write_eq by exact Hl. fold P. rewrite upd_eq. reflexivity.
      * rewrite upd_ne by exact E.
        assert (EQ : t ++ [k'] <> Q).
        { unfold Q. intros E'. apply snoc_inj in E'. destruct E' as [-> _].
          apply HtP. reflexivity. }
        rewrite upd_ne by exact EQ.
        rewrite read_write_ne; [apply Hread|].
        destruct (decide (l = l')) as [<-|]; [|left; assumption].
        right. intros <-. apply E. unfold P.
        rewrite (rep_inj _ _ _ _ HR t s l Ht Hs). reflexivity.
  - intros t t' x Ht Ht'.
    destruct (decide (t = P)) as [->|HtP]; destruct (decide (t' = P)) as [->|Ht'P];
      try reflexivity.
    + rewrite upd_eq in Ht. injection Ht as <-.
      rewrite upd_ne in Ht' by exact Ht'P.
      destruct (decide (t' = Q)) as [->|Ht'Q]; [rewrite upd_eq in Ht'; discriminate|].
      rewrite upd_ne in Ht' by exact Ht'Q. exfalso. apply (Hfresh t' Ht').
    + rewrite upd_eq in Ht'. injection Ht' as <-.
      rewrite upd_ne in Ht by exact HtP.
      destruct (decide (t = Q)) as [->|HtQ]; [rewrite upd_eq in Ht; discriminate|].
      rewrite upd_ne in Ht by exact HtQ. exfalso. apply (Hfresh t Ht).
    + rewrite upd_ne in Ht, Ht' by assumption.
      destruct (decide (t = Q)) as [->|HtQ]; [rewrite upd_eq in Ht; discriminate|].
      destruct (decide (t' = Q)) as [->|Ht'Q]; [rewrite upd_eq in Ht'; discriminate|].
      rewrite upd_ne in Ht, Ht' by assumption.
      apply (rep_inj _ _ _ _ HR t t' x Ht Ht').
  - intros t k' Hpres.
    destruct (decide (t = P)) as [->|HtP]; [exists b; apply upd_eq|].
    rewrite (upd_ne _ P _ t) by exact HtP.
    destruct (decide (t ++ [k'] = P)) as [E|E].
    + unfold P in E. apply snoc_inj in E. destruct E as [-> ->].
      exists l. rewrite upd_ne by exact HsQ. exact Hs.
    + rewrite upd_ne in Hpres by exact E.
      assert (EQ : t ++ [k'] <> Q).
      { unfold Q. intros E'. apply snoc_inj in E'. destruct E' as [-> _].
        apply HtP. reflexivity. }
      rewrite upd_ne in Hpres by exact EQ.
      destruct (rep_up _ _ _ _ HR t k' Hpres) as [l' Hl'].
      destruct (decide (t = Q)) as [->|HtQ].
      * exfalso. apply Hpres. apply Hbelow. discriminate.
      * exists l'. rewrite upd_ne by exact HtQ. exact Hl'.
Qed.

(** A fresh empty object or array is linked into an empty slot. *)
Lemma rep_link h T s l k kd :
  Rep n0 root h T -> T s = ENode l -> T (s ++ [k]) = EAbsent ->
  kd = KPlain \/ kd = KArray ->
  Rep n0 root (write_prop (h ++ [Obj kd []]) l k (VRef (length h)))
    (upd T (s ++ [k]) (ENode (length h))).
Proof.
  intros HR Hs Habs Hkd.
  pose proof (rep_node_exists n0 root h T s l HR Hs) as Hl.
  pose proof (rep_bound n0 root h T HR) as Hb.
  pose proof (rep_alloc n0 root h T (Obj kd []) HR) as HR'.
  assert (Hfresh : forall t, T t <> ENode (length h)).
  { intros t Ht. pose proof (rep_node_exists n0 root h T t _ HR Ht). lia. }
  set (P := s ++ [k]) in *.
  constructor.
  - rewrite upd_ne by (apply not_eq_sym, snoc_not_nil). apply (rep_root _ _ _ _ HR).
  - rewrite isObject_write. apply (rep_root_plain _ _ _ _ HR').
  - intros t l' Ht. destruct (decide (t = P)) as [->|HtP].
    + rewrite upd_eq in Ht. injection Ht as <-.
      split; [exact Hb|]. split.
      * rewrite navigable_write. unfold navigable, isObject, isArray, kind_of.
        rewrite lookup_alloc_new. simpl. destruct Hkd as [->| ->]; reflexivity.
      * intros k'. rewrite read_write_ne by (left; lia).
        rewrite read_alloc_new. rewrite upd_ne by apply snoc_neq_self.
        rewrite (rep_absent_below n0 root h T P HR Habs [k']). reflexivity.
    + rewrite upd_ne in Ht by exact HtP.
      destruct (rep_node _ _ _ _ HR' t l' Ht) as (Hn & Hnav & Hread).
      split; [exact Hn|]. split; [rewrite navigable_write; exact Hnav|].
      intros k'. destruct (decide (t ++ [k'] = P)) as [E|E].
      * unfold P in E. apply snoc_inj in E. destruct E as [-> ->].
        rewrite Hs in Ht. injection Ht as <-.
        rewrite read_write_eq by (rewrite length_app; simpl; lia).
        fold P. rewrite upd_eq. reflexivity.
      * rewrite upd_ne by exact E. rewrite read_write_ne; [apply Hread|].
        destruct (decide (l = l')) as [<-|]; [|left; assumption].
        right. intros <-. apply E. unfold P.
        rewrite (rep_inj _ _ _ _ HR t s l Ht Hs). reflexivity.
  - intros t t' x Ht Ht'.
    destruct (decide (t = P)) as [->|HtP]; destruct (decide (t' = P)) as [->|Ht'P];
      try reflexivity.
    + rewrite upd_eq in Ht. injection Ht as <-.
      rewrite upd_ne in Ht' by exact Ht'P. exfalso. apply (Hfresh t' Ht').
    + rewrite upd_eq in Ht'. injection Ht' as <-.
      rewrite upd_ne in Ht by exact HtP. exfalso. apply (Hfresh t Ht).
    + rewrite upd_ne in Ht, Ht' by assumption.
      apply (rep_inj _ _ _ _ HR t t' x Ht Ht').
  - intros t k' Hpres.
    destruct (decide (t = P)) as [->|HtP]; [exists (length h); apply upd_eq|].
    rewrite (upd_ne _ P _ t) by exact HtP.
    destruct (decide (t ++ [k'] = P)) as [E|E].
    + unfold P in E. apply snoc_inj in E. destruct E as [-> ->].
      exists l. exact Hs.
    + rewrite upd_ne in Hpres by exact E.
      apply (rep_up _ _ _ _ HR t k' Hpres).
Qed.

End Updates.

(** ** [set] walks the spine and writes the last slot *)

Lemma set_walk_last h l k v :
  set_walk h l [k] v = if forbidden_key k then h else write_prop h l k v.
Proof. reflexivity. Qed.

Lemma set_walk_step h l k k2 rest v :
  set_walk h l (k :: k2 :: rest) v =
  let objValue := read_prop h (VRef l) k in
  let '(h1, newValue) :=
    if navigable h objValue then (h, objValue)
    else
      let '(h', l0) := alloc h (Obj (if js_numeric k2 then KArray else KPlain) []) in
      (h', VRef l0) in
  if forbidden_key k then h1
  else
    let h2 := write_prop h1 l k newValue in
    match read_prop h2 (VRef l) k with
    | VRef l' => set_walk h2 l' (k2 :: rest) v
    | _ => h2
    end.
Proof. reflexivity. Qed.

Lemma navigable_ref h v : navigable h v = true -> exists l, v = VRef l.
Proof.
  unfold navigable, isObject, isArray, kind_of.
  destruct v; simpl; try discriminate. intros _. eexists. reflexivity.
Qed.

Section Spine.

Variables (n0 : nat) (root : loc).

(** Below a node, [set] keeps the nodes it meets, links a fresh one where
    nothing is stored, and ends with one write into the parent of the last
    segment.  Nothing but nodes of the shape is written on the way. *)
Lemma set_walk_spine : forall segs h T s l v,
  Rep n0 root h T -> T s = ENode l -> segs <> [] ->
  (forall a b x, segs = a ++ b -> a <> [] -> b <> [] -> T (s ++ a) <> ELeaf x) ->
  forallb (fun k => negb (forbidden_key k)) segs = true ->
  exists h1 T1 l1 init last,
    segs = init ++ [last]
    /\ set_walk h l segs v = write_prop h1 l1 last v
    /\ Rep n0 root h1 T1
    /\ T1 (s ++ init) = ENode l1
    /\ (forall t, T t <> EAbsent -> T1 t = T t)
    /\ (forall t, T1 t <> T t ->
          (exists a b, init = a ++ b /\ a <> [] /\ t = s ++ a)
          /\ exists l', T1 t = ENode l' /\ length h <= l')
    /\ length h <= length h1
    /\ (forall l', l' < length h -> (forall t, T t <> ENode l') -> h1 !! l' = h !! l').
Proof.
  induction segs as [|k rest IH]; intros h T s l v HR Hs Hne Hleaf Hforb;
    [contradiction|].
  simpl in Hforb. apply andb_prop in Hforb. destruct Hforb as [Hk Hrest].
  apply negb_true_iff in Hk.
  destruct rest as [|k2 rest].
  - (* the last segment *)
    exists h, T, l, [], k. rewrite set_walk_last, Hk, List.app_nil_r.
    split; [reflexivity|]. split; [reflexivity|]. split; [exact HR|].
    split; [exact Hs|]. split; [auto|]. split; [intros t Ht; contradiction|].
    split; [lia|auto].
  - rewrite set_walk_step. cbv zeta.
    pose proof (rep_node_exists n0 root h T s l HR Hs) as Hl.
    destruct (rep_node _ _ _ _ HR s l Hs) as (_ & _ & Hread).
    assert (Hleaf' : forall T', (forall t, t <> s ++ [k] -> T' t = T t) ->
              forall a b x, k2 :: rest = a ++ b -> a <> [] -> b <> [] ->
                            T' ((s ++ [k]) ++ a) <> ELeaf x).
    { intros T' Hsame a b x Hab Ha Hb.
      rewrite Hsame by (apply app_neq_self; exact Ha).
      rewrite <- List.app_assoc. simpl.
      apply (Hleaf (k :: a) b x); [simpl; rewrite Hab; reflexivity|discriminate|exact Hb]. }
    destruct (T (s ++ [k])) as [|x|l'] eqn:Ek.
    + (* nothing there: a fresh node is linked *)
      rewrite Hread, Ek. simpl entry_val.
      replace (navigable h VUndef) with false by reflexivity.
      unfold alloc. rewrite Hk.
      set (kd := if js_numeric k2 then KArray else KPlain).
      set (h2 := write_prop (h ++ [Obj kd []]) l k (VRef (length h))).
      assert (Hback : read_prop h2 (VRef l) k = VRef (length h)).
      { unfold h2. apply read_write_eq. rewrite length_app. simpl. lia. }
      rewrite Hback.
      assert (HR2 : Rep n0 root h2 (upd T (s ++ [k]) (ENode (length h)))).
      { apply rep_link; auto. unfold kd. destruct (js_numeric k2); auto. }
      destruct (IH h2 (upd T (s ++ [k]) (ENode (length h))) (s ++ [k]) (length h) v
                  HR2 (upd_eq _ _ _) ltac:(discriminate)) as
        (h1 & T1 & l1 & init & last & Hsegs & Hset & HR1 & Hl1 & Hkeep & Hchg & Hlen & Hfr).
      { apply Hleaf'. intros t Ht. apply upd_ne, Ht. }
      { exact Hrest. }
      assert (Hlen2 : length h2 = S (length h)).
      { unfold h2. rewrite length_write, length_app. simpl. lia. }
      exists h1, T1, l1, (k :: init), last.
      split; [simpl; rewrite Hsegs; reflexivity|].
      split; [exact Hset|]. split; [exact HR1|].
      split; [rewrite <- Hl1, <- List.app_assoc; reflexivity|].
      split; [|split; [|split]].
      * intros t Ht. rewrite Hkeep.
        -- apply upd_ne. intros ->. apply Ht, Ek.
        -- rewrite upd_ne; [exact Ht|]. intros ->. apply Ht, Ek.
      * intros t Ht. destruct (decide (T1 t = upd T (s ++ [k]) (ENode (length h)) t)) as [E|E].
        -- destruct (decide (t = s ++ [k])) as [->|Hts].
           ++ split; [exists [k], init; repeat split; [discriminate]|].
              exists (length h). rewrite E, upd_eq. split; [reflexivity|lia].
           ++ exfalso. apply Ht. rewrite E. apply upd_ne, Hts.
        -- destruct (Hchg t E) as ((a & b & Hab & Ha & Hta) & l'' & Hl'' & Hge).
           split.
           ++ exists (k :: a), b. rewrite Hab. repeat split; [discriminate|].
              rewrite Hta, <- List.app_assoc. reflexivity.
           ++ exists l''. split; [exact Hl''|lia].
      * lia.
      * intros l' Hl' Hnot. rewrite Hfr.
        -- unfold h2. rewrite lookup_write_ne by (intros ->; apply (Hnot s Hs)).
           apply lookup_alloc_old, Hl'.
        -- lia.
        -- intros t Ht. destruct (decide (t = s ++ [k])) as [->|Hts].
           ++ rewrite upd_eq in Ht. injection Ht as <-. lia.
           ++ rewrite upd_ne in Ht by exact Hts. apply (Hnot t Ht).
    + (* a stored value on the way: excluded *)
      exfalso. apply (Hleaf [k] (k2 :: rest) x); [reflexivity|discriminate|discriminate|exact Ek].
    + (* a node: kept *)
      destruct (rep_node _ _ _ _ HR (s ++ [k]) l' Ek) as (_ & Hnav' & _).
      rewrite Hread, Ek. simpl entry_val. rewrite Hnav', Hk.
      assert (Hsame : write_prop h l k (VRef l') = h).
      { apply write_same; [rewrite Hread, Ek; reflexivity|discriminate]. }
      rewrite Hsame.
      rewrite Hread, Ek. simpl entry_val.
      destruct (IH h T (s ++ [k]) l' v HR Ek ltac:(discriminate)) as
        (h1 & T1 & l1 & init & last & Hsegs & Hset & HR1 & Hl1 & Hkeep & Hchg & Hlen & Hfr).
      { apply Hleaf'. intros t _. reflexivity. }
      { exact Hrest. }
      exists h1, T1, l1, (k :: init), last.
      split; [simpl; rewrite Hsegs; reflexivity|].
      split; [exact Hset|]. split; [exact HR1|].
      split; [rewrite <- Hl1, <- List.app_assoc; reflexivity|].
      split; [exact Hkeep|]. split; [|split; [exact Hlen|exact Hfr]].
      intros t Ht. destruct (Hchg t Ht) as ((a & b & Hab & Ha & Hta) & Hnode).
      split; [|exact Hnode].
      exists (k :: a), b. rewrite Hab. repeat split; [discriminate|].
      rewrite Hta, <- List.app_assoc. reflexivity.
Qed.

End Spine.

(** ** Path segments *)

Lemma split_on_nonempty sep s : split_on sep s <> [].
Proof.
  destruct s as [|c r]; simpl; [discriminate|].
  destruct (sep c); [discriminate|]. destruct (split_on sep r); discriminate.
Qed.

Lemma split_on_pieces sep (P : ascii -> bool) s :
  string_forall P s = true ->
  forall t, In t (split_on sep s) ->
    string_forall P t = true /\ string_forall (fun c => negb (sep c)) t = true.
Proof.
  induction s as [|c r IH]; simpl; intros HP t Ht.
  - destruct Ht as [<-|[]]. split; reflexivity.
  - apply andb_prop in HP. destruct HP as [Hc Hr].
    destruct (sep c) eqn:Es.
    + destruct Ht as [<-|Ht]; [split; reflexivity|]. apply IH; assumption.
    + destruct (split_on sep r) as [|x xs] eqn:Ex.
      * destruct Ht as [<-|[]]. simpl. rewrite Hc, Es. split; reflexivity.
      * destruct Ht as [<-|Ht].
        -- destruct (IH Hr x (or_introl eq_refl)) as [H1 H2].
           simpl. rewrite Hc, Es, H1, H2. split; reflexivity.
        -- apply IH; [exact Hr|right; exact Ht].
Qed.

Lemma split_on_whole sep s :
  string_forall (fun c => negb (sep c)) s = true -> split_on sep s = [s].
Proof.
  induction s as [|c r IH]; simpl; [reflexivity|].
  intros H. apply andb_prop in H. destruct H as [Hc Hr].
  apply negb_true_iff in Hc. rewrite Hc, (IH Hr). reflexivity.
Qed.

Lemma remove_chars_clean p s : string_forall (fun c => negb (p c)) (remove_chars p s) = true.
Proof.
  induction s as [|c r IH]; simpl; [reflexivity|].
  destruct (p c) eqn:E; [exact IH|]. simpl. rewrite E, IH. reflexivity.
Qed.

Lemma remove_chars_id p s :
  string_forall (fun c => negb (p c)) s = true -> remove_chars p s = s.
Proof.
  induction s as [|c r IH]; simpl; [reflexivity|].
  intros H. apply andb_prop in H. destruct H as [Hc Hr].
  apply negb_true_iff in Hc. rewrite Hc, (IH Hr). reflexivity.
Qed.

(** A segment is a path of its own, with itself as only segment. *)
Lemma pathSegments_idem q t : In t (pathSegments q) -> pathSegments t = [t].
Proof.
  unfold pathSegments. destruct (isKey q) eqn:Eq.
  - intros [<-|[]]. rewrite Eq. reflexivity.
  - unfold stringToPath, compact. intros Ht. apply List.filter_In in Ht.
    destruct Ht as [Ht Hne].
    destruct (split_on_pieces _ _ _ (remove_chars_clean _ q) t Ht) as [Hrm Hsep].
    destruct (isKey t); [reflexivity|].
    rewrite (remove_chars_id _ t Hrm), (split_on_whole _ t Hsep).
    simpl. rewrite Hne. reflexivity.
Qed.

Lemma pathSegments_head_empty q rest : pathSegments q = EmptyString :: rest -> q = EmptyString.
Proof.
  unfold pathSegments. destruct (isKey q).
  - intros [= ->]. reflexivity.
  - unfold stringToPath, compact. intros H.
    assert (Hin : In EmptyString
                    (List.filter nonempty
                       (split_on (ascii_in ["."%char; "["%char])
                          (remove_chars (ascii_in ["034"%char; "|"%char; "'"%char; "]"%char]) q)))).
    { rewrite H. left. reflexivity. }
    apply List.filter_In in Hin. destruct Hin as [_ Hne]. discriminate.
Qed.

(** ** Prefixes *)

Lemma prefixb_spec a : forall b, prefixb a b = true <-> exists u, b = a ++ u.
Proof.
  induction a as [|x a IH]; intros b; simpl.
  - split; [intros _; exists b; reflexivity|reflexivity].
  - destruct b as [|y b]; [split; [discriminate|intros [u Hu]; discriminate]|].
    split.
    + intros H. apply andb_prop in H. destruct H as [Hx Hab].
      apply String.eqb_eq in Hx. subst y. apply IH in Hab. destruct Hab as [u ->].
      exists u. reflexivity.
    + intros [u Hu]. injection Hu as -> ->. rewrite String.eqb_refl. simpl.
      apply IH. exists u. reflexivity.
Qed.

Lemma apart_spec a b :
  apart a b = true -> (forall u, b <> a ++ u) /\ (forall u, a <> b ++ u).
Proof.
  unfold apart. intros H. apply andb_prop in H. destruct H as [H1 H2].
  apply negb_true_iff in H1, H2. split; intros u Hu.
  - assert (prefixb a b = true) by (apply prefixb_spec; exists u; exact Hu). congruence.
  - assert (prefixb b a = true) by (apply prefixb_spec; exists u; exact Hu). congruence.
Qed.

Lemma apart_sym a b : apart a b = apart b a.
Proof. unfold apart. apply andb_comm. Qed.

Lemma all_apart_split l1 x l2 :
  all_apart (l1 ++ x :: l2) = true ->
  (forall y, In y l1 -> apart x y = true) /\ all_apart l2 = true
  /\ (forall y, In y l2 -> apart x y = true).
Proof.
  induction l1 as [|a l1 IH]; simpl; intros H.
  - apply andb_prop in H. destruct H as [H1 H2]. split; [intros y []|].
    split; [exact H2|]. intros y Hy. rewrite List.forallb_forall in H1. apply H1, Hy.
  - apply andb_prop in H. destruct H as [H1 H2]. destruct (IH H2) as (Ha & Hb & Hc).
    split; [|split; assumption].
    intros y [<-|Hy]; [|apply Ha, Hy].
    rewrite List.forallb_forall in H1. rewrite apart_sym. apply H1.
    apply List.in_or_app. right. left. reflexivity.
Qed.

Lemma inb_In l F : inb l F = true <-> In l F.
Proof.
  unfold inb. rewrite List.existsb_exists. split.
  - intros (x & Hx & E). apply Nat.eqb_eq in E. subst. exact Hx.
  - intros H. exists l. split; [exact H|apply Nat.eqb_refl].
Qed.

(** ** Footprints *)

Lemma closed_under_spec h F :
  closed_under h F = true ->
  forall l, In l F ->
    l < length h /\ forall k, in_footprint F (read_prop h (VRef l) k).
Proof.
  unfold closed_under. rewrite List.forallb_forall. intros H l Hl.
  specialize (H l Hl). unfold read_prop.
  destruct (h !! l) as [o|] eqn:Ho; [|discriminate]. split.
  - eapply lookup_lt_Some, Ho.
  - intros k. unfold obj_get. destruct (assoc_get k (props o)) as [v|] eqn:Hg; [|exact I].
    apply assoc_get_In in Hg. rewrite List.forallb_forall in H.
    specialize (H _ Hg). simpl in H. destruct v; try exact I.
    simpl. apply inb_In, H.
Qed.

Lemma read_agree F h h' v k :
  agree_on F h h' -> in_footprint F v -> read_prop h' v k = read_prop h v k.
Proof.
  intros Ha Hv. destruct v; try reflexivity. simpl in *. rewrite (Ha _ Hv). reflexivity.
Qed.

Lemma kind_agree F h h' v :
  agree_on F h h' -> in_footprint F v -> kind_of h' v = kind_of h v.
Proof.
  intros Ha Hv. destruct v; try reflexivity. simpl in *. rewrite (Ha _ Hv). reflexivity.
Qed.

Lemma nav_agree F h h' :
  closed_under h F = true -> agree_on F h h' ->
  forall segs v, in_footprint F v ->
    nav h' v segs = nav h v segs /\ in_footprint F (nav h v segs).
Proof.
  intros Hc Ha. induction segs as [|k segs IH]; intros v Hv; simpl.
  - split; [reflexivity|exact Hv].
  - destruct (isNullOrUndefined v) eqn:En; [apply IH, Hv|].
    rewrite (read_agree F h h' v k Ha Hv). apply IH.
    destruct v; try exact I. simpl in Hv.
    apply (closed_under_spec h F Hc l Hv).
Qed.

Lemma get_agree F h h' v p :
  closed_under h F = true -> agree_on F h h' -> in_footprint F v ->
  get h' v p VUndef = get h v p VUndef /\ in_footprint F (get h v p VUndef).
Proof.
  intros Hc Ha Hv. unfold get, isObject.
  rewrite (kind_agree F h h' v Ha Hv).
  destruct (negb (nonempty p) || negb match kind_of h v with Some KPlain => true | _ => false end);
    [split; [reflexivity|exact I]|].
  destruct (nav_agree F h h' Hc Ha (pathSegments p) v Hv) as [-> Hin].
  rewrite (read_agree F h h' v p Ha Hv).
  assert (Hr : in_footprint F (read_prop h v p)).
  { destruct v; try exact I. apply (closed_under_spec h F Hc l Hv). }
  destruct (isUndefined (nav h v (pathSegments p)) || value_eqb (nav h v (pathSegments p)) v).
  - destruct (isUndefined (read_prop h v p)); split; auto; exact I.
  - split; [reflexivity|exact Hin].
Qed.

(** ** The array-field test on plain names *)

Lemma some_match_plain (names : list string) (path : string) :
  string_forall (fun c => negb (regex_special c)) path = true ->
  some_match (List.map VStr names) path
  = Ret (existsb (fun n => regex_match (atoms_of path) (escapeBrackets n)) names).
Proof.
  intros Hp. induction names as [|n names IH]; simpl; [reflexivity|].
  unfold compile_name. rewrite Hp. cbn [obind].
  destruct (regex_match (atoms_of path) (escapeBrackets n)); [reflexivity|exact IH].
Qed.

Lemma strings_are_strings (vs : list value) :
  forallb is_string vs = true -> exists names, vs = List.map VStr names.
Proof.
  induction vs as [|v vs IH]; simpl; intros H.
  - exists []. reflexivity.
  - apply andb_prop in H. destruct H as [Hv Hvs].
    destruct (IH Hvs) as (names & ->). destruct v; try discriminate.
    eexists (_ :: names). reflexivity.
Qed.

(** ** The loop of [toNestErrors] on a tidy mapping *)

Lemma set_unfold h object path v : set h object path v = set_walk h object (pathSegments path) v.
Proof. reflexivity. Qed.

Lemma field_names_agree F h h' errors options :
  closed_under h F = true -> In options F -> agree_on F h h' ->
  h' !! errors = h !! errors ->
  field_names h' errors options = field_names h errors options.
Proof.
  intros Hc Ho Ha He. unfold field_names.
  rewrite (read_agree F h h' (VRef options) "names" Ha Ho).
  destruct (closed_under_spec h F Hc options Ho) as [_ Hin].
  specialize (Hin "names").
  destruct (truthy (read_prop h (VRef options) "names")).
  - destruct (read_prop h (VRef options) "names") as [| | | | |l]; try reflexivity.
    simpl in Hin. rewrite (Ha l Hin). reflexivity.
  - unfold own_keys. rewrite He. reflexivity.
Qed.

Lemma own_keys_alloc (h : heap) (errors : loc) :
  own_keys (h ++ [Obj KPlain []]) errors = own_keys h errors.
Proof.
  unfold own_keys. destruct (h !! errors) as [e|] eqn:E.
  - rewrite lookup_alloc_old by (eapply lookup_lt_Some, E). rewrite E. reflexivity.
  - apply lookup_ge_None_1 in E.
    destruct (decide (errors = length h)) as [->|Hne].
    + rewrite lookup_alloc_new. reflexivity.
    + rewrite (lookup_ge_None_2 (h ++ [Obj KPlain []]) errors); [reflexivity|].
      rewrite length_app. simpl. lia.
Qed.

Section Loop.

Variables (h : heap) (errors options : loc) (F : list loc).
Hypothesis Htidy : tidy h errors options F = true.

Local Abbreviation keys := (own_keys h errors).
Local Abbreviation pos := (position h errors options).
Local Abbreviation rcd := (record_of h errors).

Lemma tidy_parts :
  names_plain h errors options = true
  /\ forallb (record_ok h errors F) keys = true
  /\ forallb (fun p => walkable (pathSegments p)) keys = true
  /\ all_apart (List.map pos keys) = true
  /\ In options F
  /\ closed_under h F = true.
Proof.
  unfold tidy in Htidy.
  repeat (apply andb_prop in Htidy; destruct Htidy as [Htidy ?]).
  rewrite inb_In in *. tauto.
Qed.

Lemma tidy_names :
  exists names, field_names h errors options = Ret names
    /\ forall p, In p keys ->
         isNameInFieldArray names p = Ret (in_field_array h errors options p).
Proof.
  destruct tidy_parts as (Hn & _). unfold names_plain in Hn.
  destruct (field_names h errors options) as [names| |] eqn:En; try discriminate.
  apply andb_prop in Hn. destruct Hn as [Hs Hk].
  exists names. split; [reflexivity|]. intros p Hp.
  rewrite List.forallb_forall in Hk. specialize (Hk p Hp).
  destruct (strings_are_strings names Hs) as (strs & ->).
  unfold in_field_array. rewrite En. unfold isNameInFieldArray.
  rewrite (some_match_plain _ _ Hk). reflexivity.
Qed.

Lemma tidy_record p :
  In p keys ->
  read_prop h (VRef errors) p = VRef (rcd p)
  /\ rcd p < length h /\ rcd p <> errors /\ ~ In (rcd p) F.
Proof.
  intros Hp. destruct tidy_parts as (_ & Hr & _).
  rewrite List.forallb_forall in Hr. specialize (Hr p Hp).
  unfold record_ok in Hr. unfold record_of.
  destruct (read_prop h (VRef errors) p) as [| | | | |r]; try discriminate.
  apply andb_prop in Hr. destruct Hr as [Hr H3].
  apply andb_prop in Hr. destruct Hr as [H1 H2].
  apply Nat.ltb_lt in H1. apply negb_true_iff in H2, H3.
  apply Nat.eqb_neq in H2.
  split; [reflexivity|]. split; [exact H1|]. split; [exact H2|].
  intros Hin. apply inb_In in Hin. congruence.
Qed.

Lemma tidy_walkable p :
  In p keys ->
  pathSegments p <> []
  /\ forallb (fun k => negb (forbidden_key k)) (pathSegments p) = true.
Proof.
  intros Hp. destruct tidy_parts as (_ & _ & Hw & _).
  rewrite List.forallb_forall in Hw. specialize (Hw p Hp).
  unfold walkable in Hw. destruct (pathSegments p) as [|k segs]; [discriminate|].
  split; [discriminate|].
  rewrite List.forallb_forall in Hw. apply List.forallb_forall. intros x Hx.
  specialize (Hw x Hx). apply andb_prop in Hw. apply Hw.
Qed.

Lemma errors_exists p : In p keys -> errors < length h.
Proof.
  unfold own_keys. destruct (h !! errors) eqn:E; [|intros []].
  intros _. eapply lookup_lt_Some, E.
Qed.

(** The initial state: an empty [fieldErrors] at the end of the heap. *)
Lemma inv_init :
  Inv h errors options [] (h ++ [Obj KPlain []])
    (fun t => if decide (t = []) then ENode (length h) else EAbsent).
Proof.
  constructor.
  - constructor.
    + reflexivity.
    + unfold isObject, kind_of. rewrite lookup_alloc_new. reflexivity.
    + intros s l Hs. destruct (decide (s = [])) as [->|]; [|discriminate].
      injection Hs as <-. split; [lia|]. split.
      * unfold navigable, isObject, kind_of. rewrite lookup_alloc_new. reflexivity.
      * intros k. rewrite read_alloc_new.
        destruct (decide ([] ++ [k] = [])); [discriminate|reflexivity].
    + intros s s' l Hs Hs'.
      destruct (decide (s = [])) as [->|]; [|discriminate].
      destruct (decide (s' = [])) as [->|]; [reflexivity|discriminate].
    + intros s k Hp. destruct (decide (s ++ [k] = [])) as [E|]; [|contradiction].
      exfalso. apply (snoc_not_nil _ _ E).
  - intros l Hl _. apply lookup_alloc_old, Hl.
  - intros q [].
  - intros q [].
  - intros l k Hl _. apply read_alloc_old, Hl.
  - intros l Hl. apply kind_alloc_old, Hl.
  - intros t Ht. destruct (decide (t = [])); [left; assumption|contradiction].
  - intros t v Ht. destruct (decide (t = [])); discriminate.
  - intros q [].
Qed.

Lemma position_segments p :
  exists tail, pos p = pathSegments p ++ tail.
Proof. unfold position. eexists. reflexivity. Qed.

Lemma apart_irrefl a : apart a a = false.
Proof.
  unfold apart.
  assert (H : prefixb a a = true) by (apply prefixb_spec; exists []; symmetry; apply List.app_nil_r).
  rewrite H. reflexivity.
Qed.

(** Nothing is stored on the way to a new position, nor at it, nor below. *)
Lemma free_positions pre p hi T :
  Inv h errors options pre hi T ->
  (forall q, In q pre -> apart (pos p) (pos q) = true) ->
  pos p <> [] ->
  (forall a b x, pos p = a ++ b -> b <> [] -> T a <> ELeaf x)
  /\ (forall t, T (pos p ++ t) = EAbsent).
Proof.
  intros HI Hap Hne. split.
  - intros a b x Hab Hb Hleaf.
    destruct (inv_leaf _ _ _ _ _ _ HI a x Hleaf) as (q & Hq & ->).
    destruct (apart_spec _ _ (Hap q Hq)) as [_ H2]. apply (H2 b Hab).
  - intros t. destruct (decide (T (pos p ++ t) = EAbsent)) as [E|E]; [exact E|].
    exfalso.
    destruct (inv_support _ _ _ _ _ _ HI (pos p ++ t) E) as [E0|(q & u & Hq & Hu)].
    + apply List.app_eq_nil in E0. destruct E0 as [E0 _]. contradiction.
    + destruct (apart_spec _ _ (Hap q Hq)) as [H1 _].
      apply (H1 (t ++ u)). rewrite Hu, List.app_assoc. reflexivity.
Qed.

(** The part of the invariant that speaks of the objects of [h]. *)
Lemma inv_old_step pre p hi hi' T rv :
  Inv h errors options pre hi T ->
  In p keys -> (forall q, In q pre -> In q keys) ->
  ~ In p pre ->
  rv = field_ref h options p ->
  (forall l, l < length h -> hi' !! l = write_prop hi (rcd p) "ref" rv !! l) ->
  (forall l, l < length h ->
     (forall q, In q (pre ++ [p]) -> rcd q <> l) -> hi' !! l = h !! l)
  /\ (forall q, In q (pre ++ [p]) ->
        (forall q', In q' (pre ++ [p]) -> rcd q' = rcd q -> q' = q) ->
        read_prop hi' (VRef (rcd q)) "ref" = field_ref h options q)
  /\ (forall q, In q (pre ++ [p]) -> has_own hi' (rcd q) "ref" = true)
  /\ (forall l k, l < length h -> k <> "ref" ->
        read_prop hi' (VRef l) k = read_prop h (VRef l) k)
  /\ (forall l, l < length h -> kind_of hi' (VRef l) = kind_of h (VRef l)).
Proof.
  intros HI Hp Hpre Hnew -> Hsame.
  destruct (tidy_record p Hp) as (_ & Hrlt & _).
  pose proof (rep_bound _ _ _ _ (inv_rep _ _ _ _ _ _ HI)) as Hb.
  assert (Hread : forall l k, l < length h ->
            read_prop hi' (VRef l) k
            = read_prop (write_prop hi (rcd p) "ref" (field_ref h options p)) (VRef l) k).
  { intros l k Hl. unfold read_prop. rewrite (Hsame l Hl). reflexivity. }
  split; [|split; [|split; [|split]]].
  - intros l Hl Hnot. rewrite (Hsame l Hl).
    rewrite lookup_write_ne.
    + apply (inv_old _ _ _ _ _ _ HI l Hl). intros q Hq. apply Hnot.
      apply List.in_or_app. left. exact Hq.
    + apply Hnot. apply List.in_or_app. right. left. reflexivity.
  - intros q Hq Hu. apply List.in_app_or in Hq. destruct Hq as [Hq|[<-|[]]].
    + destruct (tidy_record q (Hpre q Hq)) as (_ & Hqlt & _).
      rewrite (Hread _ _ Hqlt). rewrite read_write_ne.
      * apply (inv_ref _ _ _ _ _ _ HI q Hq). intros q' Hq' E. apply Hu; [|exact E].
        apply List.in_or_app. left. exact Hq'.
      * left. intros E. apply Hnew. rewrite (Hu p); [exact Hq| |exact E].
        apply List.in_or_app. right. left. reflexivity.
    + rewrite (Hread _ _ Hrlt). apply read_write_eq. lia.
  - intros q Hq. apply List.in_app_or in Hq. destruct Hq as [Hq|[<-|[]]].
    + destruct (tidy_record q (Hpre q Hq)) as (_ & Hqlt & _).
      unfold has_own. rewrite (Hsame _ Hqlt).
      apply has_own_write. apply (inv_has_ref _ _ _ _ _ _ HI q Hq).
    + unfold has_own. rewrite (Hsame _ Hrlt).
      assert (Hex : rcd p < length hi) by lia.
      apply lookup_lt_is_Some_2 in Hex. destruct Hex as [o Ho].
      rewrite (lookup_write_eq hi _ _ _ o Ho). simpl.
      rewrite assoc_get_set_eq. reflexivity.
  - intros l k Hl Hk. rewrite (Hread _ _ Hl). rewrite read_write_ne.
    + apply (inv_rest _ _ _ _ _ _ HI l k Hl Hk).
    + right. apply not_eq_sym, Hk.
  - intros l Hl. change (kind_of hi' (VRef l)) with (kind <$> hi' !! l).
    rewrite (Hsame l Hl).
    change (kind_of (write_prop hi (rcd p) "ref" (field_ref h options p)) (VRef l)
            = kind_of h (VRef l)).
    rewrite kind_write. apply (inv_kind _ _ _ _ _ _ HI l Hl).
Qed.

(** The part of the invariant that speaks of the shape. *)
Lemma inv_shape_step pre p hi T T' :
  Inv h errors options pre hi T ->
  (forall q, In q pre -> apart (pos p) (pos q) = true) ->
  T' (pos p) = ELeaf (VRef (rcd p)) ->
  (forall t, T' t <> T t -> exists u, pos p = t ++ u) ->
  (forall t v, T' t = ELeaf v -> t = pos p \/ T t = ELeaf v) ->
  (forall t, T' t <> EAbsent ->
     t = [] \/ exists q u, In q (pre ++ [p]) /\ pos q = t ++ u)
  /\ (forall t v, T' t = ELeaf v -> exists q, In q (pre ++ [p]) /\ t = pos q)
  /\ (forall q, In q (pre ++ [p]) -> T' (pos q) = ELeaf (VRef (rcd q))).
Proof.
  intros HI Hap Hat Hchg Hleaf.
  assert (Hlast : In p (pre ++ [p])) by (apply List.in_or_app; right; left; reflexivity).
  split; [|split].
  - intros t Ht. destruct (decide (T' t = T t)) as [E|E].
    + rewrite E in Ht.
      destruct (inv_support _ _ _ _ _ _ HI t Ht) as [->|(q & u & Hq & Hu)]; [left; reflexivity|].
      right. exists q, u. split; [apply List.in_or_app; left; exact Hq|exact Hu].
    + destruct (Hchg t E) as [u Hu]. right. exists p, u. split; [exact Hlast|exact Hu].
  - intros t v Ht. destruct (Hleaf t v Ht) as [->|Hold].
    + exists p. split; [exact Hlast|reflexivity].
    + destruct (inv_leaf _ _ _ _ _ _ HI t v Hold) as (q & Hq & ->).
      exists q. split; [apply List.in_or_app; left; exact Hq|reflexivity].
  - intros q Hq. apply List.in_app_or in Hq. destruct Hq as [Hq|[<-|[]]]; [|exact Hat].
    destruct (decide (T' (pos q) = T (pos q))) as [E|E].
    + rewrite E. apply (inv_placed _ _ _ _ _ _ HI q Hq).
    + destruct (Hchg _ E) as [u Hu].
      destruct (apart_spec _ _ (Hap q Hq)) as [_ H2]. exfalso. apply (H2 u Hu).
Qed.

(** What [get(fieldErrors, path)] finds for a path that names an array
    field: the node at its segments, or nothing. *)
Lemma get_bucket pre p hi h1 T :
  Inv h errors options pre hi T ->
  Rep (length h) (length h) h1 T ->
  In p keys -> (forall q, In q pre -> In q keys) ->
  (forall q, In q pre -> apart (pos p) (pos q) = true) ->
  in_field_array h errors options p = true ->
  get h1 (VRef (length h)) p VUndef = entry_val (T (pathSegments p))
  /\ forall x, T (pathSegments p) <> ELeaf x.
Proof.
  intros HI HR Hp Hpre Hap Harr.
  destruct (tidy_walkable p Hp) as (Hsegs & _).
  assert (Hpos : pos p = pathSegments p ++ ["root"]).
  { unfold position. rewrite Harr. reflexivity. }
  assert (Hne : pos p <> []) by (rewrite Hpos; apply snoc_not_nil).
  destruct (free_positions pre p hi T HI Hap Hne) as [Hleaf Hfree].
  assert (Hnl : forall x, T (pathSegments p) <> ELeaf x).
  { intros x. apply (Hleaf (pathSegments p) ["root"] x Hpos). discriminate. }
  split; [|exact Hnl].
  assert (Hfirst : forall k, T [k] <> EAbsent -> pathSegments k = [k]).
  { intros k Hk.
    destruct (inv_support _ _ _ _ _ _ HI [k] Hk) as [E|(q & w & Hq & Hw)]; [discriminate|].
    destruct (tidy_walkable q (Hpre q Hq)) as (Hqs & _).
    apply (pathSegments_idem q). unfold position in Hw.
    destruct (pathSegments q) as [|k0 r]; [contradiction|].
    simpl in Hw. injection Hw as -> _. left. reflexivity. }
  unfold get. rewrite (rep_root_plain _ _ _ _ HR). simpl negb. rewrite orb_false_r.
  destruct (nonempty p) eqn:Enp; simpl negb; cbv iota.
  - rewrite (rep_nav _ _ h1 T HR (pathSegments p)).
    + destruct (T (pathSegments p)) as [|x|l] eqn:Es.
      * cbn [entry_val isUndefined orb].
        destruct (rep_node _ _ _ _ HR [] _ (rep_root _ _ _ _ HR)) as (_ & _ & Hread).
        rewrite !Hread. cbn [app].
        destruct (decide (T [p] = EAbsent)) as [E|E]; [rewrite E; reflexivity|].
        rewrite (Hfirst p E) in Es. contradiction.
      * exfalso. apply (Hnl x). reflexivity.
      * simpl. destruct (Nat.eqb l (length h)) eqn:El; [|reflexivity].
        apply Nat.eqb_eq in El. subst l. exfalso. apply Hsegs.
        apply (rep_inj _ _ _ _ HR _ _ _ Es (rep_root _ _ _ _ HR)).
    + intros a b x Hab Hb. apply (Hleaf a (b ++ ["root"]) x).
      * rewrite Hpos, Hab, List.app_assoc. reflexivity.
      * destruct b; discriminate.
  - unfold nonempty in Enp. apply negb_false_iff, String.eqb_eq in Enp. subst p.
    destruct (decide (T (pathSegments EmptyString) = EAbsent)) as [E|E];
      [rewrite E; reflexivity|].
    exfalso. change (pathSegments EmptyString) with [EmptyString] in E.
    destruct (inv_support _ _ _ _ _ _ HI _ E) as [E0|(q & w & Hq & Hw)]; [discriminate|].
    destruct (tidy_walkable q (Hpre q Hq)) as (Hqs & _).
    assert (q = EmptyString).
    { unfold position in Hw. destruct (pathSegments q) as [|k0 r] eqn:Eq; [contradiction|].
      simpl in Hw. injection Hw as -> _. apply (pathSegments_head_empty q r Eq). }
    subst q. specialize (Hap _ Hq). rewrite apart_irrefl in Hap. discriminate.
Qed.

(** One turn of the loop keeps the invariant. *)
Lemma body_step pre p todo hi T :
  keys = pre ++ p :: todo ->
  Inv h errors options pre hi T ->
  exists hi' T',
    toNestErrors_body errors options (length h) hi p = Ret hi'
    /\ Inv h errors options (pre ++ [p]) hi' T'.
Proof.
  intros Hkeys HI.
  assert (Hp : In p keys) by (rewrite Hkeys; apply List.in_or_app; right; left; reflexivity).
  assert (Hpre : forall q, In q pre -> In q keys).
  { intros q Hq. rewrite Hkeys. apply List.in_or_app. left. exact Hq. }
  destruct tidy_parts as (_ & _ & _ & Hapart & HoF & Hclosed).
  rewrite Hkeys, List.map_app in Hapart. simpl in Hapart.
  destruct (all_apart_split _ _ _ Hapart) as (Hap0 & _ & _).
  assert (Hap : forall q, In q pre -> apart (pos p) (pos q) = true).
  { intros q Hq. apply Hap0. apply List.in_map. exact Hq. }
  assert (Hnew : ~ In p pre).
  { intros Hin. specialize (Hap p Hin). rewrite apart_irrefl in Hap. discriminate. }
  clear Hap0 Hapart.
  destruct (tidy_record p Hp) as (Hrd & Hrlt & Hrne & HrF).
  destruct (tidy_walkable p Hp) as (Hsegs & Hforb).
  destruct tidy_names as (names & Hnames & Hdec).
  pose proof (inv_rep _ _ _ _ _ _ HI) as HR.
  pose proof (rep_bound _ _ _ _ HR) as Hbound.
  assert (HaF : agree_on F h hi).
  { intros l Hl. destruct (closed_under_spec h F Hclosed l Hl) as [Hlt _].
    apply (inv_old _ _ _ _ _ _ HI l Hlt). intros q Hq E.
    destruct (tidy_record q (Hpre q Hq)) as (_ & _ & _ & HqF). apply HqF.
    rewrite E. exact Hl. }
  assert (Herr : hi !! errors = h !! errors).
  { apply (inv_old _ _ _ _ _ _ HI errors (errors_exists p Hp)). intros q Hq.
    destruct (tidy_record q (Hpre q Hq)) as (_ & _ & Hqe & _). exact Hqe. }
  unfold toNestErrors_body.
  (* the field and its reference are read from untouched objects *)
  assert (Hfield : js_and (get hi (read_prop hi (VRef options) "fields") p VUndef)
                     (read_prop hi (get hi (read_prop hi (VRef options) "fields") p VUndef) "ref")
                   = field_ref h options p).
  { unfold field_ref. rewrite (read_agree F h hi (VRef options) "fields" HaF HoF).
    destruct (closed_under_spec h F Hclosed options HoF) as [_ Hin].
    destruct (get_agree F h hi _ p Hclosed HaF (Hin "fields")) as [-> Hget].
    rewrite (read_agree F h hi _ "ref" HaF Hget). reflexivity. }
  rewrite Hfield.
  assert (Hrec : read_prop hi (VRef errors) p = VRef (rcd p)).
  { unfold read_prop. rewrite Herr. exact Hrd. }
  rewrite Hrec. unfold assign_ref. cbn [truthy obind].
  set (rv := field_ref h options p).
  set (h1 := write_prop hi (rcd p) "ref" rv).
  assert (Hlen1 : length h1 = length hi) by apply length_write.
  assert (Hnotnode : forall T0 h0, Rep (length h) (length h) h0 T0 ->
            forall l, l < length h -> forall t, T0 t <> ENode l).
  { intros T0 h0 HR0 l Hl t Ht.
    destruct (rep_node _ _ _ _ HR0 t l Ht) as (Hn & _). lia. }
  assert (HR1 : Rep (length h) (length h) h1 T).
  { apply rep_write_other; [exact HR|]. apply (Hnotnode T hi HR _ Hrlt). }
  assert (Hnames1 : field_names h1 errors options = Ret names).
  { rewrite <- Hnames. apply (field_names_agree F); auto.
    - intros l Hl. unfold h1. rewrite lookup_write_ne; [apply HaF, Hl|].
      intros E. apply HrF. rewrite E. exact Hl.
    - unfold h1. rewrite lookup_write_ne; [exact Herr|exact Hrne]. }
  rewrite Hnames1. cbn [obind]. rewrite (Hdec p Hp). cbn [obind].
  assert (Hroot : T [] = ENode (length h)) by apply (rep_root _ _ _ _ HR).
  destruct (in_field_array h errors options p) eqn:Earr.
  - (* the path names an array field: the record goes under [root] *)
    assert (Hpos : pos p = pathSegments p ++ ["root"]).
    { unfold position. rewrite Earr. reflexivity. }
    assert (Hne : pos p <> []) by (rewrite Hpos; apply snoc_not_nil).
    destruct (free_positions pre p hi T HI Hap Hne) as [Hleaf Hfree].
    destruct (get_bucket pre p hi h1 T HI HR1 Hp Hpre Hap Earr) as [Hget Hnl].
    rewrite Hget.
    assert (Hcopy : exists ps,
              copy_props h1 (entry_val (T (pathSegments p))) = Ret ps
              /\ forall k, obj_get (Obj KPlain ps) k
                           = entry_val (T (pathSegments p ++ [k]))).
    { destruct (T (pathSegments p)) as [|x|l] eqn:Es.
      - exists []. split; [reflexivity|]. intros k.
        rewrite (rep_absent_below _ _ h1 T _ HR1 Es [k]). reflexivity.
      - exfalso. apply (Hnl x). reflexivity.
      - destruct (rep_node _ _ _ _ HR1 _ l Es) as (_ & Hnav & Hread).
        apply navigable_exists, lookup_lt_is_Some_2 in Hnav. destruct Hnav as [o Ho].
        exists (ordered_entries (props o)). cbn [copy_props entry_val]. rewrite Ho.
        split; [reflexivity|].
        intros k. rewrite <- Hread. unfold read_prop. rewrite Ho.
        unfold obj_get. simpl props. rewrite assoc_get_ordered. reflexivity. }
    destruct Hcopy as (ps & -> & Hps). cbn [obind]. unfold alloc.
    change (set (h1 ++ [Obj KPlain ps]) (length h1) "root" (VRef (rcd p)))
      with (write_prop (h1 ++ [Obj KPlain ps]) (length h1) "root" (VRef (rcd p))).
    set (b := length h1).
    set (h3 := write_prop (h1 ++ [Obj KPlain ps]) b "root" (VRef (rcd p))).
    assert (Hbfresh : forall t, T t <> ENode b).
    { intros t Ht. pose proof (rep_node_exists _ _ h1 T t b HR1 Ht). unfold b in *. lia. }
    assert (HR3 : Rep (length h) (length h) h3 T).
    { apply rep_write_other; [apply rep_alloc; exact HR1|exact Hbfresh]. }
    assert (Hlen3 : length h3 = S (length h1)).
    { unfold h3. rewrite length_write, length_app. simpl. lia. }
    assert (Hb3 : h3 !! b = Some (Obj KPlain (assoc_set "root" (VRef (rcd p)) ps))).
    { unfold h3. rewrite (lookup_write_eq _ b _ _ (Obj KPlain ps)); [reflexivity|].
      apply lookup_alloc_new. }
    rewrite set_unfold.
    destruct (set_walk_spine (length h) (length h) (pathSegments p) h3 T []
                (length h) (VRef b) HR3 Hroot Hsegs) as
      (h4 & T1 & l1 & init & last & Hsplit & Hset & HR4 & Hl1 & Hkeep & Hchg & Hlen4 & Hfr).
    { intros a c x Hab Ha Hc. apply (Hleaf a (c ++ ["root"]) x).
      - rewrite Hpos, Hab, List.app_assoc. reflexivity.
      - destruct c; discriminate. }
    { exact Hforb. }
    cbn [app] in Hl1. rewrite Hset.
    assert (Hlong : forall u, T1 ((init ++ [last]) ++ u) = T ((init ++ [last]) ++ u)).
    { intros u.
      destruct (decide (T1 ((init ++ [last]) ++ u) = T ((init ++ [last]) ++ u))) as [E|E];
        [exact E|].
      exfalso. destruct (Hchg _ E) as ((a & c & Hab & Ha & Hta) & _).
      cbn [app] in Hta. apply (f_equal (@length string)) in Hta.
      rewrite Hab in Hta. rewrite !length_app in Hta.
      simpl in Hta. lia. }
    assert (Hb4 : h4 !! b = h3 !! b).
    { apply Hfr; [rewrite Hlen3; unfold b; lia|exact Hbfresh]. }
    exists (write_prop h4 l1 last (VRef b)),
      (upd (upd T1 ((init ++ [last]) ++ ["root"]) (ELeaf (VRef (rcd p))))
         (init ++ [last]) (ENode b)).
    split; [reflexivity|].
    assert (HR5 : Rep (length h) (length h) (write_prop h4 l1 last (VRef b))
                    (upd (upd T1 ((init ++ [last]) ++ ["root"]) (ELeaf (VRef (rcd p))))
                       (init ++ [last]) (ENode b))).
    { apply rep_graft; [exact HR4|exact Hl1| | | | |].
      - unfold b. lia.
      - unfold navigable, isObject, kind_of. rewrite Hb4, Hb3. reflexivity.
      - intros t Ht. destruct (decide (T1 t = T t)) as [E|E].
        + apply (Hbfresh t). rewrite <- E. exact Ht.
        + destruct (Hchg t E) as (_ & l' & Hl' & Hge).
          rewrite Hl' in Ht. injection Ht as ->. rewrite Hlen3 in Hge. unfold b in Hge. lia.
      - intros k'. unfold read_prop. rewrite Hb4, Hb3. unfold obj_get at 1. simpl props.
        rewrite assoc_get_set. destruct (String.eqb k' "root"); [reflexivity|].
        rewrite Hlong, <- Hsplit. apply (Hps k').
      - intros t _. rewrite <- (List.app_assoc (init ++ [last])). rewrite Hlong.
        rewrite List.app_assoc, <- Hsplit, <- Hpos. apply Hfree. }
    destruct (inv_old_step pre p hi (write_prop h4 l1 last (VRef b)) T rv
                HI Hp Hpre Hnew eq_refl) as (O1 & O2 & O2' & O3 & O4).
    { intros l Hl. rewrite lookup_write_ne.
      - rewrite Hfr; [|rewrite Hlen3; lia|apply (Hnotnode T h1 HR1 l Hl)].
        unfold h3. rewrite lookup_write_ne by (unfold b; lia).
        apply lookup_alloc_old. fold h1. lia.
      - intros <-. apply (Hnotnode T1 h4 HR4 l1 Hl init Hl1). }
    destruct (inv_shape_step pre p hi T
                (upd (upd T1 ((init ++ [last]) ++ ["root"]) (ELeaf (VRef (rcd p))))
                   (init ++ [last]) (ENode b)) HI Hap)
      as (S1 & S2 & S3).
    { rewrite Hpos, Hsplit. rewrite upd_ne by apply snoc_neq_self. apply upd_eq. }
    { intros t Ht. destruct (decide (t = init ++ [last])) as [->|HtP].
      - exists ["root"]. rewrite Hpos, Hsplit. reflexivity.
      - rewrite upd_ne in Ht by exact HtP.
        destruct (decide (t = (init ++ [last]) ++ ["root"])) as [->|HtQ].
        + exists []. rewrite Hpos, Hsplit. symmetry. apply List.app_nil_r.
        + rewrite upd_ne in Ht by exact HtQ.
          destruct (Hchg t Ht) as ((a & c & Hab & Ha & Hta) & _). cbn [app] in Hta. subst t.
          exists (c ++ [last] ++ ["root"]).
          rewrite Hpos, Hsplit, Hab, <- !List.app_assoc. reflexivity. }
    { intros t v Ht. destruct (decide (t = init ++ [last])) as [->|HtP].
      - rewrite upd_eq in Ht. discriminate.
      - rewrite upd_ne in Ht by exact HtP.
        destruct (decide (t = (init ++ [last]) ++ ["root"])) as [->|HtQ].
        + left. rewrite Hpos, Hsplit. reflexivity.
        + right. rewrite upd_ne in Ht by exact HtQ.
          destruct (decide (T1 t = T t)) as [E|E]; [rewrite <- E; exact Ht|].
          destruct (Hchg t E) as (_ & l' & Hl' & _). congruence. }
    constructor; assumption.
  - (* any other path: the record goes to the path itself *)
    assert (Hpos : pos p = pathSegments p).
    { unfold position. rewrite Earr. apply List.app_nil_r. }
    assert (Hne : pos p <> []) by (rewrite Hpos; exact Hsegs).
    destruct (free_positions pre p hi T HI Hap Hne) as [Hleaf Hfree].
    rewrite set_unfold.
    destruct (set_walk_spine (length h) (length h) (pathSegments p) h1 T []
                (length h) (VRef (rcd p)) HR1 Hroot Hsegs) as
      (h2 & T1 & l1 & init & last & Hsplit & Hset & HR2 & Hl1 & Hkeep & Hchg & Hlen2 & Hfr).
    { intros a b x Hab Ha Hb. apply (Hleaf a b x); [rewrite Hpos; exact Hab|exact Hb]. }
    { exact Hforb. }
    cbn [app] in Hl1. rewrite Hset.
    assert (Hlong : forall u, T1 ((init ++ [last]) ++ u) = T ((init ++ [last]) ++ u)).
    { intros u. destruct (decide (T1 ((init ++ [last]) ++ u) = T ((init ++ [last]) ++ u))) as [E|E]; [exact E|].
      exfalso. destruct (Hchg _ E) as ((a & b & Hab & Ha & Hta) & _).
      cbn [app] in Hta. apply (f_equal (@length string)) in Hta.
      rewrite Hab in Hta. rewrite !length_app in Hta.
      simpl in Hta. lia. }
    exists (write_prop h2 l1 last (VRef (rcd p))), (upd T1 (init ++ [last]) (ELeaf (VRef (rcd p)))).
    split; [reflexivity|].
    assert (HR3 : Rep (length h) (length h) (write_prop h2 l1 last (VRef (rcd p)))
                    (upd T1 (init ++ [last]) (ELeaf (VRef (rcd p))))).
    { apply rep_leaf; [exact HR2|exact Hl1|]. intros t Ht.
      rewrite Hlong, <- Hsplit, <- Hpos. apply Hfree. }
    destruct (inv_old_step pre p hi (write_prop h2 l1 last (VRef (rcd p))) T rv
                HI Hp Hpre Hnew eq_refl) as (O1 & O2 & O2' & O3 & O4).
    { intros l Hl. rewrite lookup_write_ne.
      - apply Hfr; [lia|]. apply (Hnotnode T h1 HR1 l Hl).
      - intros <-. apply (Hnotnode T1 h2 HR2 l1 Hl init Hl1). }
    destruct (inv_shape_step pre p hi T (upd T1 (init ++ [last]) (ELeaf (VRef (rcd p)))) HI Hap)
      as (S1 & S2 & S3).
    { rewrite Hpos, Hsplit. apply upd_eq. }
    { intros t Ht. destruct (decide (t = (init ++ [last]))) as [->|HtP].
      - exists []. rewrite Hpos, Hsplit. symmetry. apply List.app_nil_r.
      - rewrite upd_ne in Ht by exact HtP.
        destruct (Hchg t Ht) as ((a & b & Hab & Ha & Hta) & _). cbn [app] in Hta. subst t.
        exists (b ++ [last]). rewrite Hpos, Hsplit, Hab, List.app_assoc. reflexivity. }
    { intros t v Ht. destruct (decide (t = (init ++ [last]))) as [->|HtP].
      - left. rewrite Hpos, Hsplit. reflexivity.
      - right. rewrite upd_ne in Ht by exact HtP.
        destruct (decide (T1 t = T t)) as [E|E]; [rewrite <- E; exact Ht|].
        destruct (Hchg t E) as (_ & l' & Hl' & _). congruence. }
    constructor; assumption.
Qed.

Lemma loop_inv : forall todo pre hi T,
  keys = pre ++ todo ->
  Inv h errors options pre hi T ->
  exists hi' T',
    toNestErrors_loop errors options (length h) hi todo = Ret hi'
    /\ Inv h errors options (pre ++ todo) hi' T'.
Proof.
  induction todo as [|p todo IH]; intros pre hi T Hkeys HI.
  - exists hi, T. rewrite List.app_nil_r. split; [reflexivity|exact HI].
  - destruct (body_step pre p todo hi T Hkeys HI) as (hi1 & T1 & Hbody & HI1).
    destruct (IH (pre ++ [p]) hi1 T1) as (hi' & T' & Hloop & HI').
    { rewrite Hkeys, <- List.app_assoc. reflexivity. }
    { exact HI1. }
    exists hi', T'. simpl. rewrite Hbody. cbn [obind]. split; [exact Hloop|].
    rewrite <- List.app_assoc in HI'. exact HI'.
Qed.

Lemma all_apart_pairs l :
  all_apart l = true -> forall x y, In x l -> In y l -> x = y \/ apart x y = true.
Proof.
  induction l as [|a l IH]; simpl; intros H x y Hx Hy; [contradiction|].
  apply andb_prop in H. destruct H as [H1 H2]. rewrite List.forallb_forall in H1.
  destruct Hx as [<-|Hx]; destruct Hy as [<-|Hy].
  - left. reflexivity.
  - right. apply H1, Hy.
  - right. rewrite apart_sym. apply H1, Hx.
  - apply IH; assumption.
Qed.

(** Once every path has been through, each record is found by walking its
    position from the root. *)
Lemma inv_nav hi T p :
  Inv h errors options keys hi T -> In p keys ->
  nav hi (VRef (length h)) (pos p) = VRef (rcd p).
Proof.
  intros HI Hp. destruct tidy_parts as (_ & _ & _ & Hapart & _).
  rewrite (rep_nav _ _ hi T (inv_rep _ _ _ _ _ _ HI)).
  - rewrite (inv_placed _ _ _ _ _ _ HI p Hp). reflexivity.
  - intros a b x Hab Hb Hleaf.
    destruct (inv_leaf _ _ _ _ _ _ HI a x Hleaf) as (q & Hq & ->).
    destruct (all_apart_pairs _ Hapart (pos p) (pos q)) as [E|E].
    + apply List.in_map, Hp.
    + apply List.in_map, Hq.
    + rewrite <- E in Hab. symmetry in Hab. apply (app_neq_self _ _ Hb Hab).
    + destruct (apart_spec _ _ E) as [_ H2]. apply (H2 b Hab).
Qed.

End Loop.

(** ** What the loop can write into *)

Lemma in_region_mono n W len len' v :
  len <= len' -> in_region n W len v -> in_region n W len' v.
Proof. intros Hle. destruct v; simpl; try tauto. intros [H|H]; [left; exact H|right; lia]. Qed.

Lemma read_write_cases hi l k v :
  read_prop (write_prop hi l k v) (VRef l) k = v
  \/ read_prop (write_prop hi l k v) (VRef l) k = VUndef.
Proof.
  destruct (hi !! l) as [o|] eqn:Ho.
  - left. apply read_write_eq. eapply lookup_lt_Some, Ho.
  - right. unfold write_prop, read_prop. rewrite Ho, Ho. reflexivity.
Qed.

Section Region.

Variables (n : nat) (W : list loc).
Hypothesis HW : forall l, In l W -> l < n.

Lemma region_write hi l k v :
  region_closed n W hi -> in_region n W (length hi) v ->
  region_closed n W (write_prop hi l k v).
Proof.
  intros Hc Hv l' k' Hl'. rewrite length_write in *.
  destruct (decide (l = l' /\ k = k')) as [[<- <-]|Hne].
  - destruct (read_write_cases hi l k v) as [-> | ->]; [exact Hv|exact I].
  - rewrite read_write_ne; [apply Hc, Hl'|].
    destruct (decide (l = l')) as [<-|]; [|left; assumption].
    right. intros <-. apply Hne. split; reflexivity.
Qed.

Lemma region_alloc hi o :
  region_closed n W hi -> n <= length hi ->
  (forall k, in_region n W (S (length hi)) (obj_get o k)) ->
  region_closed n W (hi ++ [o]).
Proof.
  intros Hc Hn Ho l k Hl. rewrite length_app in *. simpl length in *.
  replace (length hi + 1) with (S (length hi)) in * by lia.
  destruct (decide (l = length hi)) as [->|Hne].
  - rewrite read_alloc_new. apply Ho.
  - assert (Hlt : l < length hi).
    { destruct Hl as [H|H]; [pose proof (HW l H)|]; lia. }
    rewrite read_alloc_old by exact Hlt.
    apply (in_region_mono n W (length hi)); [lia|].
    apply Hc. destruct Hl as [H|H]; [left; exact H|right; lia].
Qed.

Lemma region_read hi v k :
  region_closed n W hi -> in_region n W (length hi) v ->
  in_region n W (length hi) (read_prop hi v k).
Proof.
  intros Hc Hv. destruct v; try exact I. apply Hc. exact Hv.
Qed.

Lemma region_nav hi : region_closed n W hi -> forall segs v,
  in_region n W (length hi) v -> in_region n W (length hi) (nav hi v segs).
Proof.
  intros Hc. induction segs as [|k segs IH]; intros v Hv; simpl; [exact Hv|].
  apply IH. destruct (isNullOrUndefined v); [exact Hv|apply region_read; assumption].
Qed.

Lemma region_get hi v p :
  region_closed n W hi -> in_region n W (length hi) v ->
  in_region n W (length hi) (get hi v p VUndef).
Proof.
  intros Hc Hv. unfold get.
  destruct (negb (nonempty p) || negb (isObject hi v)); [exact I|].
  destruct (isUndefined (nav hi v (pathSegments p))
            || value_eqb (nav hi v (pathSegments p)) v).
  - destruct (isUndefined (read_prop hi v p)); [exact I|apply region_read; assumption].
  - apply region_nav; assumption.
Qed.

(** [set] stays in the region: what lies outside is as before, and no own
    property is lost anywhere. *)
Lemma set_walk_region : forall segs hi l v,
  region_closed n W hi -> n <= length hi ->
  In l W \/ (n <= l < length hi) -> in_region n W (length hi) v ->
  region_closed n W (set_walk hi l segs v)
  /\ length hi <= length (set_walk hi l segs v)
  /\ (forall l', l' < n -> ~ In l' W -> set_walk hi l segs v !! l' = hi !! l')
  /\ (forall r k, has_own hi r k = true -> has_own (set_walk hi l segs v) r k = true).
Proof.
  induction segs as [|k rest IH]; intros hi l v Hc Hn Hl Hv.
  { simpl. repeat split; auto. }
  assert (Hout : forall l', l' < n -> ~ In l' W -> l <> l').
  { intros l' Hl' Hnot ->. destruct Hl as [H|H]; [contradiction|lia]. }
  destruct rest as [|k2 rest].
  - rewrite set_walk_last. destruct (forbidden_key k); [repeat split; auto|].
    split; [apply region_write; assumption|].
    split; [rewrite length_write; lia|].
    split; [intros l' Hl' Hnot; apply lookup_write_ne, Hout; assumption|].
    intros r k' Hr. apply has_own_write, Hr.
  - rewrite set_walk_step. cbv zeta.
    set (objValue := read_prop hi (VRef l) k).
    assert (Hobj : in_region n W (length hi) objValue) by (apply Hc, Hl).
    (* the slot after the choice between keeping and allocating *)
    assert (Hpair : exists h1 newValue,
              (if navigable hi objValue then (hi, objValue)
               else let '(h', l0) :=
                      alloc hi (Obj (if js_numeric k2 then KArray else KPlain) []) in
                    (h', VRef l0)) = (h1, newValue)
              /\ region_closed n W h1 /\ length hi <= length h1
              /\ in_region n W (length h1) newValue
              /\ (forall l', l' < n -> ~ In l' W -> h1 !! l' = hi !! l')
              /\ (forall r k', has_own hi r k' = true -> has_own h1 r k' = true)).
    { destruct (navigable hi objValue).
      - exists hi, objValue. repeat split; auto.
      - unfold alloc. eexists. eexists. split; [reflexivity|].
        split; [apply region_alloc; [exact Hc|exact Hn|intros k'; exact I]|].
        split; [rewrite length_app; simpl; lia|].
        split; [simpl; right; rewrite length_app; simpl; lia|].
        split; [intros l' Hl' _; apply lookup_alloc_old; lia|].
        intros r k' Hr. apply has_own_alloc, Hr. }
    destruct Hpair as (h1 & newValue & -> & Hc1 & Hlen1 & Hnew & Hout1 & Hown1).
    destruct (forbidden_key k).
    { repeat split; auto. }
    set (h2 := write_prop h1 l k newValue).
    assert (Hc2 : region_closed n W h2) by (apply region_write; assumption).
    assert (Hlen2 : length h2 = length h1) by apply length_write.
    assert (Hl2 : In l W \/ (n <= l < length h2)).
    { destruct Hl as [H|H]; [left; exact H|right; lia]. }
    assert (Hback : in_region n W (length h2) (read_prop h2 (VRef l) k)) by (apply Hc2, Hl2).
    assert (Hout2 : forall l', l' < n -> ~ In l' W -> h2 !! l' = hi !! l').
    { intros l' Hl' Hnot. unfold h2. rewrite lookup_write_ne by (apply Hout; assumption).
      apply Hout1; assumption. }
    assert (Hown2 : forall r k', has_own hi r k' = true -> has_own h2 r k' = true).
    { intros r k' Hr. apply has_own_write, Hown1, Hr. }
    destruct (read_prop h2 (VRef l) k) as [| | | | |l'] eqn:Erb;
      try (split; [exact Hc2|split; [lia|split; assumption]]).
    destruct (IH h2 l' v Hc2 ltac:(lia) Hback) as (Hc3 & Hlen3 & Hout3 & Hown3).
    { apply (in_region_mono n W (length hi)); [lia|exact Hv]. }
    split; [exact Hc3|]. split; [lia|]. split.
    + intros x Hx Hnot. rewrite Hout3 by assumption. apply Hout2; assumption.
    + intros r k' Hr. apply Hown3, Hown2, Hr.
Qed.

End Region.

Section Confinement.

Variables (h : heap) (errors options : loc) (W : list loc).
Hypothesis Hsep : separate h errors options W = true.

Lemma separate_parts :
  closed_under h W = true /\ In options W /\ ~ In errors W
  /\ records_within h errors W = true.
Proof.
  unfold separate in Hsep.
  repeat (apply andb_prop in Hsep; destruct Hsep as [Hsep ?]).
  split; [exact Hsep|]. split; [apply inb_In; assumption|].
  split; [|assumption].
  intros Hin. apply inb_In in Hin.
  match goal with H : negb _ = true |- _ => rewrite Hin in H; discriminate end.
Qed.

Lemma W_bound l : In l W -> l < length h.
Proof.
  intros Hl. destruct separate_parts as (Hc & _).
  apply (closed_under_spec h W Hc l Hl).
Qed.

Lemma record_in_W p r : read_prop h (VRef errors) p = VRef r -> In r W.
Proof.
  destruct separate_parts as (_ & _ & _ & Hr). unfold records_within in Hr.
  unfold read_prop. destruct (h !! errors) as [o|]; [|discriminate].
  unfold obj_get. destruct (assoc_get p (props o)) as [v|] eqn:Hg; [|discriminate].
  intros ->. apply assoc_get_In in Hg. rewrite List.forallb_forall in Hr.
  specialize (Hr _ Hg). apply inb_In, Hr.
Qed.

Lemma region_initial : region_closed (length h) W h.
Proof.
  destruct separate_parts as (Hc & _). intros l k [Hl|Hl]; [|lia].
  destruct (closed_under_spec h W Hc l Hl) as [_ Hin]. specialize (Hin k).
  destruct (read_prop h (VRef l) k); try exact I. left. exact Hin.
Qed.

Lemma confined_init : Confined h errors W (h ++ [Obj KPlain []]).
Proof.
  constructor.
  - apply (region_alloc (length h) W W_bound); [apply region_initial|lia|].
    intros k. exact I.
  - rewrite length_app. simpl. lia.
  - intros l Hl _. apply lookup_alloc_old, Hl.
Qed.

(** One turn of the loop, whatever the paths: if it returns, the writes were
    confined, no own property was lost, and the record of the path, when the
    mapping holds one, has its [ref]. *)
Lemma body_region hi p hi' :
  Confined h errors W hi -> errors < length h ->
  toNestErrors_body errors options (length h) hi p = Ret hi' ->
  Confined h errors W hi'
  /\ (forall r k, has_own hi r k = true -> has_own hi' r k = true)
  /\ (forall r, read_prop h (VRef errors) p = VRef r -> has_own hi' r "ref" = true).
Proof.
  intros HC Herr. destruct separate_parts as (Hclosed & HoW & HeW & _).
  pose proof (conf_closed _ _ _ _ HC) as Hc.
  pose proof (conf_length _ _ _ _ HC) as Hlen.
  pose proof (conf_outside _ _ _ _ HC) as Hout.
  unfold toNestErrors_body.
  set (field := get hi (read_prop hi (VRef options) "fields") p VUndef).
  set (rv := js_and field (read_prop hi field "ref")).
  assert (Hfield : in_region (length h) W (length hi) field).
  { apply region_get; [exact Hc|]. apply Hc. left. exact HoW. }
  assert (Hrv : in_region (length h) W (length hi) rv).
  { unfold rv, js_and. destruct (truthy field); [|exact Hfield].
    apply region_read; assumption. }
  assert (Htarget : read_prop hi (VRef errors) p = read_prop h (VRef errors) p).
  { unfold read_prop. rewrite (Hout errors Herr HeW). reflexivity. }
  rewrite Htarget.
  (* the record after [Object.assign] *)
  assert (Hassign : forall a, assign_ref hi (read_prop h (VRef errors) p) rv = Ret a ->
            region_closed (length h) W (fst a)
            /\ length hi <= length (fst a)
            /\ (In (snd a) W \/ length h <= snd a < length (fst a))
            /\ (forall l, l < length h -> ~ In l W -> fst a !! l = hi !! l)
            /\ (forall r k, has_own hi r k = true -> has_own (fst a) r k = true)
            /\ (forall r, read_prop h (VRef errors) p = VRef r ->
                          has_own (fst a) r "ref" = true)).
  { intros a. unfold assign_ref.
    destruct (truthy (read_prop h (VRef errors) p)) eqn:Etr.
    - destruct (read_prop h (VRef errors) p) as [| | | | |r] eqn:Erd; try discriminate.
      intros [= <-]. simpl fst. simpl snd.
      pose proof (record_in_W p r Erd) as HrW. pose proof (W_bound r HrW) as Hrlt.
      split; [apply region_write; assumption|].
      split; [rewrite length_write; lia|].
      split; [left; exact HrW|].
      split; [intros l Hl Hnot; apply lookup_write_ne; intros ->; contradiction|].
      split; [intros r0 k Hr0; apply has_own_write, Hr0|].
      intros r0 [= <-]. apply has_own_written. lia.
    - unfold alloc. intros [= <-]. simpl fst. simpl snd.
      assert (Hc1 : region_closed (length h) W (hi ++ [Obj KPlain []])).
      { apply (region_alloc (length h) W W_bound); [exact Hc|lia|intros k; exact I]. }
      split.
      { apply region_write; [exact Hc1|].
        apply (in_region_mono _ _ (length hi)); [rewrite length_app; simpl; lia|exact Hrv]. }
      split; [rewrite length_write, length_app; simpl; lia|].
      split; [right; rewrite length_write, length_app; simpl; lia|].
      split.
      { intros l Hl Hnot. rewrite lookup_write_ne by lia. apply lookup_alloc_old. lia. }
      split; [intros r0 k Hr0; apply has_own_write, has_own_alloc, Hr0|].
      intros r0 Hr0. rewrite Hr0 in Etr. discriminate. }
  destruct (assign_ref hi (read_prop h (VRef errors) p) rv) as [[h1 e]| |] eqn:Ea;
    cbn [obind]; try discriminate.
  destruct (Hassign (h1, e) eq_refl) as (Hc1 & Hlen1 & He & Hout1 & Hown1 & Href1).
  simpl fst in *. simpl snd in *.
  destruct (field_names h1 errors options) as [names| |]; cbn [obind]; try discriminate.
  destruct (isNameInFieldArray names p) as [inArray| |]; cbn [obind]; try discriminate.
  assert (Hroot1 : In (length h) W \/ length h <= length h < length h1) by (right; lia).
  assert (Hev : in_region (length h) W (length h1) (VRef e)) by exact He.
  destruct inArray.
  - (* under [root] *)
    set (src := get h1 (VRef (length h)) p VUndef).
    assert (Hsrc : in_region (length h) W (length h1) src).
    { apply region_get; [exact Hc1|exact Hroot1]. }
    destruct (copy_props h1 src) as [ps| |] eqn:Ecp; cbn [obind]; try discriminate.
    assert (Hps : forall k, in_region (length h) W (length h1) (obj_get (Obj KPlain ps) k)).
    { intros k. unfold copy_props in Ecp.
      destruct src as [| | | | |l] eqn:Es; try (injection Ecp as <-; exact I); try discriminate.
      destruct (h1 !! l) as [o|] eqn:Eo; [|discriminate]. injection Ecp as <-.
      unfold obj_get. simpl props. rewrite assoc_get_ordered.
      pose proof (Hc1 l k Hsrc) as Hrd. unfold read_prop in Hrd. rewrite Eo in Hrd.
      exact Hrd. }
    unfold alloc. intros [= <-]. rewrite !set_unfold.
    set (h2 := h1 ++ [Obj KPlain ps]).
    assert (Hlen2 : length h2 = S (length h1)).
    { unfold h2. rewrite length_app. simpl. lia. }
    assert (Hc2 : region_closed (length h) W h2).
    { apply (region_alloc (length h) W W_bound); [exact Hc1|lia|].
      intros k. apply (in_region_mono _ _ (length h1)); [lia|apply Hps]. }
    destruct (set_walk_region (length h) W W_bound (pathSegments "root") h2 (length h1)
                (VRef e) Hc2 ltac:(lia)) as (Hc3 & Hlen3 & Hout3 & Hown3).
    { right. lia. }
    { apply (in_region_mono _ _ (length h1)); [lia|exact Hev]. }
    set (h3 := set_walk h2 (length h1) (pathSegments "root") (VRef e)) in *.
    destruct (set_walk_region (length h) W W_bound (pathSegments p) h3 (length h)
                (VRef (length h1)) Hc3 ltac:(lia)) as (Hc4 & Hlen4 & Hout4 & Hown4).
    { right. lia. }
    { simpl. right. lia. }
    split; [|split].
    + constructor; [exact Hc4|lia|].
      intros l Hl Hnot. rewrite Hout4, Hout3 by assumption. unfold h2.
      rewrite lookup_alloc_old by lia. rewrite Hout1 by assumption.
      apply Hout; assumption.
    + intros r k Hr. apply Hown4, Hown3. unfold h2. apply has_own_alloc, Hown1, Hr.
    + intros r Hr. apply Hown4, Hown3. unfold h2. apply has_own_alloc, Href1, Hr.
  - (* at the path *)
    intros [= <-]. rewrite set_unfold.
    destruct (set_walk_region (length h) W W_bound (pathSegments p) h1 (length h)
                (VRef e) Hc1 ltac:(lia) Hroot1 Hev) as (Hc4 & Hlen4 & Hout4 & Hown4).
    split; [|split].
    + constructor; [exact Hc4|lia|].
      intros l Hl Hnot. rewrite Hout4, Hout1 by assumption. apply Hout; assumption.
    + intros r k Hr. apply Hown4, Hown1, Hr.
    + intros r Hr. apply Hown4, Href1, Hr.
Qed.

Lemma loop_region : forall paths hi hi',
  Confined h errors W hi -> errors < length h ->
  toNestErrors_loop errors options (length h) hi paths = Ret hi' ->
  Confined h errors W hi'
  /\ (forall r k, has_own hi r k = true -> has_own hi' r k = true)
  /\ (forall p r, In p paths -> read_prop h (VRef errors) p = VRef r ->
                  has_own hi' r "ref" = true).
Proof.
  induction paths as [|p paths IH]; intros hi hi' HC Herr; simpl.
  - intros [= <-]. split; [exact HC|]. split; [auto|]. intros p r [].
  - destruct (toNestErrors_body errors options (length h) hi p) as [h1| |] eqn:Eb;
      cbn [obind]; try discriminate.
    intros Hloop.
    destruct (body_region hi p h1 HC Herr Eb) as (HC1 & Hown1 & Href1).
    destruct (IH h1 hi' HC1 Herr Hloop) as (HC' & Hown' & Href').
    split; [exact HC'|]. split; [intros r k Hr; apply Hown', Hown1, Hr|].
    intros q r [<-|Hq] Hr.
    + apply Hown', Href1, Hr.
    + apply (Href' q r Hq Hr).
Qed.

End Confinement.

(** ** [toNestErrors] on a tidy mapping *)

Section NormalizerFacts.

Variable validateFieldsNatively : heap -> value -> value -> outcome unit.

(** The call returns, [fieldErrors] is the object allocated at the end of
    the heap, and the invariant holds for all the paths. *)
Lemma toNestErrors_tidy h errors options F :
  tidy h errors options F = true ->
  native_allows validateFieldsNatively h errors options ->
  exists h' T,
    toNestErrors validateFieldsNatively h errors options = Ret (h', length h)
    /\ Inv h errors options (own_keys h errors) h' T.
Proof.
  intros Ht Hn. unfold toNestErrors.
  assert (Hnat : (if truthy (read_prop h (VRef options) "shouldUseNativeValidation")
                  then validateFieldsNatively h (VRef errors) (VRef options)
                  else Ret tt) = Ret tt).
  { unfold native_allows in Hn.
    destruct (truthy (read_prop h (VRef options) "shouldUseNativeValidation"));
      [apply Hn; reflexivity|reflexivity]. }
  rewrite Hnat. cbn [obind]. unfold alloc. rewrite own_keys_alloc.
  destruct (loop_inv h errors options F Ht (own_keys h errors) [] _ _ eq_refl
              (inv_init h errors options)) as (h' & T & Hloop & HI).
  rewrite Hloop. exists h', T. split; [reflexivity|exact HI].
Qed.





(** On a tidy mapping the record keeps its kind and its other properties,
    and the mapping is unchanged. *)
Lemma toNestErrors_tidy_records h errors options F path :
  tidy h errors options F = true ->
  native_allows validateFieldsNatively h errors options ->
  In path (own_keys h errors) ->
  exists h' r,
    toNestErrors validateFieldsNatively h errors options = Ret (h', length h)
    /\ read_prop h (VRef errors) path = VRef r
    /\ h' !! errors = h !! errors
    /\ has_own h' r "ref" = true
    /\ kind_of h' (VRef r) = kind_of h (VRef r)
    /\ forall k, k <> "ref" -> read_prop h' (VRef r) k = read_prop h (VRef r) k.
Proof.
  intros Ht Hn Hp.
  destruct (toNestErrors_tidy h errors options F Ht Hn) as (h' & T & Hrun & HI).
  destruct (tidy_record h errors options F Ht path Hp) as (Hrd & Hlt & Hne & _).
  exists h', (record_of h errors path). split; [exact Hrun|].
  split; [exact Hrd|]. split; [|split; [|split]].
  - apply (inv_old _ _ _ _ _ _ HI errors (errors_exists h errors path Hp)).
    intros q Hq. destruct (tidy_record h errors options F Ht q Hq) as (_ & _ & Hqe & _).
    exact Hqe.
  - apply (inv_has_ref _ _ _ _ _ _ HI path Hp).
  - apply (inv_kind _ _ _ _ _ _ HI _ Hlt).
  - intros k Hk. apply (inv_rest _ _ _ _ _ _ HI _ k Hlt Hk).
Qed.

(** X22: when the mapping is kept apart from its records and from the
    options, and the call returns, every record the mapping held for a path
    has an own property [ref] afterwards, written onto that very object, and
    the mapping itself is unchanged, so it still refers to these objects. *)
Theorem toNestErrors_mutates_records h errors options W h' fieldErrors path r :
  separate h errors options W = true ->
  toNestErrors validateFieldsNatively h errors options = Ret (h', fieldErrors) ->
  In path (own_keys h errors) ->
  read_prop h (VRef errors) path = VRef r ->
  has_own h' r "ref" = true /\ h' !! errors = h !! errors.
Proof.
  intros Hsep Hrun Hp Hr.
  pose proof (errors_exists h errors path Hp) as Herr.
  unfold toNestErrors in Hrun.
  destruct (if truthy (read_prop h (VRef options) "shouldUseNativeValidation")
            then validateFieldsNatively h (VRef errors) (VRef options)
            else Ret tt) as [[]| |]; cbn [obind] in Hrun; try discriminate.
  unfold alloc in Hrun. rewrite own_keys_alloc in Hrun.
  destruct (toNestErrors_loop errors options (length h) (h ++ [Obj KPlain []])
              (own_keys h errors)) as [hl| |] eqn:El; cbn [obind] in Hrun;
    try discriminate.
  injection Hrun as <- <-.
  destruct (loop_region h errors options W Hsep (own_keys h errors) _ hl
              (confined_init h errors options W Hsep) Herr El) as (HC & _ & Href).
  split; [apply (Href path r Hp Hr)|].
  destruct (separate_parts h errors options W Hsep) as (_ & _ & HeW & _).
  apply (conf_outside _ _ _ _ HC errors Herr HeW).
Qed.

End NormalizerFacts.

(** ** The Joi adapter *)

Lemma find_is_some {A} (f : A -> bool) l : is_some (List.find f l) = existsb f l.
Proof.
  induction l as [|a l IH]; simpl; [reflexivity|].
  destruct (f a); [reflexivity|exact IH].
Qed.

Lemma parseErrorSchema_plain_entry (details : list ErrorItem) (all : bool) :
  forallb plain_detail details = true ->
  exists m, parseErrorSchema details all = Ret m
            /\ forall k, entry_ok all details k (assoc_get k m).
Proof.
  intros H. exists (own_parse details all).
  split; [apply parseErrorSchema_own, H|apply own_parse_ok].
Qed.

(** X23: when no path and no error type of the details is the name of a
    property that objects inherit, [parseErrorSchema] returns a mapping that
    has an entry exactly for the dot-joined paths that occur in the details,
    and with all-criteria validation on, the [types] entry of a path and an
    error type holds every message reported for that path and type, in
    order, not only the first. *)
Theorem parseErrorSchema_flattens_and_collects (details : list ErrorItem) :
  forallb plain_detail details = true ->
  (forall all, exists m,
     parseErrorSchema details all = Ret m
     /\ forall k, is_some (assoc_get k m)
                  = existsb (fun d => String.eqb (joined_path d) k) details)
  /\ (exists m,
        parseErrorSchema details true = Ret m
        /\ forall k t, types_entry k t m = collected (messages_for k t details)).
Proof.
  intros Hplain. split.
  - intros all.
    destruct (parseErrorSchema_plain_entry details all Hplain) as (m & Hm & Hok).
    exists m. split; [exact Hm|]. intros k. rewrite <- find_is_some.
    pose proof (Hok k) as H. unfold entry_ok in H. fold (first_for k details).
    destruct (assoc_get k m) as [r|].
    + destruct H as (d & -> & _). reflexivity.
    + rewrite H. reflexivity.
  - destruct (parseErrorSchema_plain_entry details true Hplain) as (m & Hm & Hok).
    exists m. split; [exact Hm|]. intros k t. unfold types_entry.
    pose proof (Hok k) as H. unfold entry_ok in H.
    destruct (assoc_get k m) as [r|].
    + destruct H as (d & _ & _ & _ & ts & -> & Hagg). apply Hagg.
    + rewrite (messages_for_none _ _ _ H). reflexivity.
Qed.

Lemma parseErrorSchema_flattens_and_collects_witness :
  (forall all, exists m,
     parseErrorSchema sample_details all = Ret m
     /\ forall k, is_some (assoc_get k m)
                  = existsb (fun d => String.eqb (joined_path d) k) sample_details)
  /\ (exists m,
        parseErrorSchema sample_details true = Ret m
        /\ forall k t,
             types_entry k t m = collected (messages_for k t sample_details)).
Proof.
  apply (parseErrorSchema_flattens_and_collects sample_details). reflexivity.
Defined.

(** C4, where the code departs from it: a report for a field named
    [toString] gets no entry at all with all-criteria validation off, and
    with it on an entry that has the [types] but neither the message nor
    the type of the report; the resolver then returns an empty error tree
    for a failed validation. *)
Theorem parseErrorSchema_inherited_path_lost :
  parseErrorSchema inherited_details false = Ret []
  /\ parseErrorSchema inherited_details true
     = Ret [("toString",
             {| fe_message := None; fe_type := None;
                fe_types := Some [("any.required", Single (MsgStr "is required"))] |})]
  /\ exists h' tree,
       snd (joiResolver completes (failing_schema inherited_details) None
              (VStr "sync") plain_options_heap (VRef 2) VUndef 0)
       = Ret (h', {| values := EmptyObject; errors := Held (VRef tree) |})
       /\ own_keys h' tree = [].
Proof.
  split; [reflexivity|]. split; [reflexivity|].
  eexists. eexists. split; [vm_compute; reflexivity|reflexivity].
Qed.

(** C8: with all-criteria validation off, [parseErrorSchema] returns a
    mapping that has no key twice, in which every entry is the first report
    of its path (message and type), and which has that entry for every
    reported path that is not the name of a property objects inherit; with
    all-criteria validation on, a mapping it returns has no key twice
    either, and it does return one when no path and no error type is such
    a name. *)
Theorem parseErrorSchema_unique_first (details : list ErrorItem) :
  (exists m,
     parseErrorSchema details false = Ret m
     /\ List.NoDup (List.map fst m)
     /\ (forall k r,
           assoc_get k m = Some r ->
           exists d, first_for k details = Some d /\ r = first_record d)
     /\ (forall k d,
           first_for k details = Some d -> proto_key k = false ->
           assoc_get k m = Some (first_record d)))
  /\ (forall m, parseErrorSchema details true = Ret m -> List.NoDup (List.map fst m))
  /\ (forallb plain_detail details = true ->
      exists m, parseErrorSchema details true = Ret m).
Proof.
  split; [|split].
  - destruct (parseErrorSchema_first details) as (m & Hm & Hfirst).
    exists m. split; [exact Hm|]. split; [apply (parseErrorSchema_NoDup false details m Hm)|].
    split.
    + intros k r Hk. rewrite (Hfirst k) in Hk.
      destruct (proto_key k); [discriminate|].
      destruct (first_for k details) as [d|]; [|discriminate].
      exists d. split; [reflexivity|]. simpl in Hk. congruence.
    + intros k d Hd Hpk. rewrite (Hfirst k), Hpk, Hd. reflexivity.
  - intros m Hm. apply (parseErrorSchema_NoDup true details m Hm).
  - intros Hplain. exists (own_parse details true).
    apply parseErrorSchema_own, Hplain.
Qed.

Lemma parseErrorSchema_unique_first_witness :
  (exists m,
     parseErrorSchema sample_details false = Ret m
     /\ List.NoDup (List.map fst m)
     /\ (forall k r,
           assoc_get k m = Some r ->
           exists d, first_for k sample_details = Some d /\ r = first_record d)
     /\ (forall k d,
           first_for k sample_details = Some d -> proto_key k = false ->
           assoc_get k m = Some (first_record d)))
  /\ List.NoDup (List.map fst
                   [ ("items.0.name",
                      {| fe_message := Some "must be a string";
                         fe_type := Some "string.base";
                         fe_types :=
                           Some [("string.base", Single (MsgStr "must be a string"));
                                 ("string.min",
                                  Several [MsgStr "too short"; MsgStr "still too short"])] |});
                     ("age",
                      {| fe_message := Some EmptyString;
                         fe_type := Some "any.required";
                         fe_types := Some [("any.required", Single MsgTrue)] |}) ])
  /\ exists m, parseErrorSchema sample_details true = Ret m.
Proof.
  split; [|split].
  - apply (proj1 (parseErrorSchema_unique_first sample_details)).
  - apply (proj1 (proj2 (parseErrorSchema_unique_first sample_details))). reflexivity.
  - apply (proj2 (proj2 (parseErrorSchema_unique_first sample_details))). reflexivity.
Defined.

Example parseErrorSchema_sample_first :
  parseErrorSchema sample_details false
  = Ret [ ("items.0.name",
           {| fe_message := Some "must be a string";
              fe_type := Some "string.base"; fe_types := None |});
          ("age",
           {| fe_message := Some EmptyString;
              fe_type := Some "any.required"; fe_types := None |}) ].
Proof. reflexivity. Qed.

Example parseErrorSchema_sample_all :
  types_entry "items.0.name" "string.min" (own_parse sample_details true)
  = Some (Several [MsgStr "too short"; MsgStr "still too short"])
  /\ types_entry "age" "any.required" (own_parse sample_details true)
     = Some (Single MsgTrue)
  /\ parseErrorSchema sample_details true = Ret (own_parse sample_details true).
Proof. repeat split; reflexivity. Qed.

Lemma value_eqb_sync mode : value_eqb mode (VStr "sync") = true <-> mode = VStr "sync".
Proof.
  split.
  - destruct mode; simpl; try discriminate. intros H.
    apply String.eqb_eq in H. subst. reflexivity.
  - intros ->. reflexivity.
Qed.


Lemma run_validation_reports schema mode h1 values so h2 e :
  reports schema mode h1 values so h2 e ->
  exists result,
    snd (run_validation schema mode h1 values so) = Ret (h2, result)
    /\ result_error result = Some e.
Proof.
  unfold run_validation. intros [(-> & result & Hv & He)|(Hne & Hv)].
  - simpl. exists result. auto.
  - destruct (value_eqb mode (VStr "sync")) eqn:E.
    + apply value_eqb_sync in E. contradiction.
    + rewrite Hv. simpl. eexists. split; reflexivity.
Qed.

Section ResolverFacts.

Variable validateFieldsNatively : heap -> value -> value -> outcome unit.

Let resolver := joiResolver validateFieldsNatively.

(** C7: with [mode] equal to ['sync'] the only schema entry point called is
    [validate] and its answer is the validation result; with any other
    [mode] the only one called is [validateAsync], a value it resolves to
    becoming [result.value] and a rejection [result.error]. *)
Theorem joiResolver_mode_toggle (schema : Schema) (schemaOptions : option loc)
    (mode : value) (h : heap) (values context : value) (options : loc) :
  let merged := merge_options h schemaOptions context in
  (mode = VStr "sync" ->
     fst (resolver schema schemaOptions mode h values context options)
     = [CallValidate values (snd merged)]
     /\ snd (resolver schema schemaOptions mode h values context options)
        = (let* got := validate schema (fst merged) values (snd merged) in
           respond validateFieldsNatively (fst got) (snd got) options))
  /\ (mode <> VStr "sync" ->
        fst (resolver schema schemaOptions mode h values context options)
        = [CallValidateAsync values (snd merged)]
        /\ snd (resolver schema schemaOptions mode h values context options)
           = (let settled := validateAsync schema (fst merged) values (snd merged) in
              respond validateFieldsNatively (fst settled)
                match snd settled with
                | inl v => {| result_error := None; result_value := v |}
                | inr e => {| result_error := Some e; result_value := VUndef |}
                end options)).
Proof.
  intros merged. unfold resolver, joiResolver. fold merged.
  destruct merged as [h1 so] eqn:Em. simpl. unfold run_validation. split.
  - intros ->. simpl. split; [reflexivity|].
    destruct (validate schema h1 values so) as [[h2 r]| |]; reflexivity.
  - intros Hne.
    destruct (value_eqb mode (VStr "sync")) eqn:E.
    + apply value_eqb_sync in E. contradiction.
    + destruct (validateAsync schema h1 values so) as [h2 settled].
      simpl. split; reflexivity.
Qed.


(** X24: when validation reports a truthy error, whatever the resolver
    returns has the empty object as [values]. *)
Theorem joiResolver_failure_values (schema : Schema) (schemaOptions : option loc)
    (mode : value) (h : heap) (input context : value) (options : loc)
    (h2 : heap) (e : failure) (h' : heap) (answer : ResolverResult) :
  reports schema mode (fst (merge_options h schemaOptions context)) input
    (snd (merge_options h schemaOptions context)) h2 e ->
  failure_truthy e = true ->
  snd (resolver schema schemaOptions mode h input context options)
  = Ret (h', answer) ->
  values answer = EmptyObject.
Proof.
  intros Hrep Herr. apply run_validation_reports in Hrep.
  destruct Hrep as (result & Hrun & He). unfold resolver, joiResolver.
  destruct (merge_options h schemaOptions context) as [h1 so]. simpl in Hrun.
  destruct (run_validation schema mode h1 input so) as [calls validated].
  simpl in *. subst validated. cbn [obind]. unfold respond. rewrite He.
  cbn [truthy_error]. rewrite Herr.
  destruct (parse_failure h2 e _) as [parsed| |]; simpl; try discriminate.
  destruct (store_errors h2 parsed) as [h3 errs].
  destruct (toNestErrors validateFieldsNatively h3 errs options) as [[h4 fe]| |];
    simpl; try discriminate.
  intros [= <- <-]. reflexivity.
Qed.

(** Where the resolver does return on a failure: when the details name no
    inherited property and the mapping parsed from them, once on the heap,
    is tidy.  The error tree is then the object allocated last before the
    loop, and [values] is empty. *)
Lemma joiResolver_failure_returns (schema : Schema) (schemaOptions : option loc)
    (mode : value) (h : heap) (input context : value) (options : loc)
    (h2 : heap) (details : list ErrorItem) (F : list loc) :
  reports schema mode (fst (merge_options h schemaOptions context)) input
    (snd (merge_options h schemaOptions context)) h2 (ValidationError details) ->
  forallb plain_detail details = true ->
  let all := negb (truthy (read_prop h2 (VRef options) "shouldUseNativeValidation"))
             && value_eqb (read_prop h2 (VRef options) "criteriaMode") (VStr "all") in
  let stored := store_errors h2 (own_parse details all) in
  tidy (fst stored) (snd stored) options F = true ->
  native_allows validateFieldsNatively (fst stored) (snd stored) options ->
  exists h',
    snd (resolver schema schemaOptions mode h input context options)
    = Ret (h', {| values := EmptyObject; errors := Held (VRef (length (fst stored))) |}).
Proof.
  intros Hrep Hplain all stored Ht Hn. apply run_validation_reports in Hrep.
  destruct Hrep as (result & Hrun & Herr). unfold resolver, joiResolver.
  destruct (merge_options h schemaOptions context) as [h1 so]. simpl in Hrun.
  destruct (run_validation schema mode h1 input so) as [calls validated].
  simpl in *. subst validated. cbn [obind]. unfold respond. rewrite Herr.
  cbn [truthy_error failure_truthy parse_failure].
  rewrite (parseErrorSchema_own _ details Hplain). cbn [obind]. subst stored all.
  destruct (store_errors h2 _) as [h3 errs]. simpl fst in *. simpl snd in *.
  destruct (toNestErrors_tidy validateFieldsNatively h3 errs options F Ht Hn)
    as (h' & T & Hnest & _).
  rewrite Hnest. cbn [obind]. exists h'. reflexivity.
Qed.

End ResolverFacts.

Lemma joiResolver_mode_toggle_witness :
  fst (joiResolver completes (passing_schema (VRef 2)) None (VStr "sync")
         plain_options_heap (VRef 2) VUndef 0)
  = [CallValidate (VRef 2) 3]
  /\ fst (joiResolver completes (passing_schema (VRef 2)) None VUndef
            plain_options_heap (VRef 2) VUndef 0)
     = [CallValidateAsync (VRef 2) 3].
Proof.
  split.
  - apply (proj1 (joiResolver_mode_toggle completes (passing_schema (VRef 2)) None
                    (VStr "sync") plain_options_heap (VRef 2) VUndef 0)).
    reflexivity.
  - apply (proj2 (joiResolver_mode_toggle completes (passing_schema (VRef 2)) None
                    VUndef plain_options_heap (VRef 2) VUndef 0)).
    discriminate.
Defined.


Lemma joiResolver_failure_values_witness :
  exists h' answer,
    snd (joiResolver completes (failing_schema sample_details) None (VStr "sync")
           plain_options_heap (VRef 2) VUndef 0) = Ret (h', answer)
    /\ values answer = EmptyObject.
Proof.
  eexists. eexists. split.
  - vm_compute. reflexivity.
  - eapply (joiResolver_failure_values completes (failing_schema sample_details) None
              (VStr "sync") plain_options_heap (VRef 2) VUndef 0 _
              (ValidationError sample_details)).
    + left. split; [reflexivity|]. eexists. split; reflexivity.
    + reflexivity.
    + vm_compute. reflexivity.
Defined.

(** C10, where the code departs from it: validation fails for a field named
    [total (net], in either mode, and the resolver returns no object at
    all, with or without [values]: it fails with the SyntaxError of the
    pattern built from that name. *)
Theorem joiResolver_failure_without_answer :
  reports (failing_schema net_details) (VStr "sync")
    (fst (merge_options plain_options_heap None VUndef)) (VRef 2)
    (snd (merge_options plain_options_heap None VUndef))
    (fst (merge_options plain_options_heap None VUndef))
    (ValidationError net_details)
  /\ snd (joiResolver completes (failing_schema net_details) None (VStr "sync")
            plain_options_heap (VRef 2) VUndef 0) = Throw SyntaxError
  /\ snd (joiResolver completes (failing_schema net_details) None VUndef
            plain_options_heap (VRef 2) VUndef 0) = Throw SyntaxError.
Proof.
  split; [|split; reflexivity].
  left. split; [reflexivity|]. eexists. split; reflexivity.
Qed.

(** ** Concrete runs *)







Lemma toNestErrors_mutates_records_witness :
  exists h',
    toNestErrors completes overlapping_heap 0 1 = Ret (h', 5)
    /\ has_own overlapping_heap 2 "ref" = false
    /\ has_own h' 2 "ref" = true
    /\ h' !! 0 = overlapping_heap !! 0.
Proof.
  eexists. split; [vm_compute; reflexivity|]. split; [reflexivity|].
  apply (toNestErrors_mutates_records completes overlapping_heap 0 1 [1; 2; 3; 4]
           _ 5 "a.b" 2).
  - vm_compute. reflexivity.
  - vm_compute. reflexivity.
  - simpl. left. reflexivity.
  - reflexivity.
Defined.

(** C9, where the code departs from it: the mapping holds a record for [a(]
    and then one for [b]; the call stops at the first path with the
    SyntaxError of the pattern built from it and returns nothing, so the
    record of [b], which has no [ref] before the call, is never given one,
    whatever native validation would do. *)
Theorem toNestErrors_stops_before_later_records
    (validateFieldsNatively : heap -> value -> value -> outcome unit) :
  own_keys stopped_heap 0 = ["a("; "b"]
  /\ read_prop stopped_heap (VRef 0) "b" = VRef 3
  /\ has_own stopped_heap 3 "ref" = false
  /\ toNestErrors_body 0 1 5 (stopped_heap ++ [Obj KPlain []]) "a(" = Throw SyntaxError
  /\ toNestErrors validateFieldsNatively stopped_heap 0 1 = Throw SyntaxError.
Proof. repeat split. Qed.

(** The whole tree of the array-field sample: the bucket of [items] holds the
    item error under [0] and the field's own error under [root]. *)
Example toNestErrors_array_field_sample :
  exists h',
    toNestErrors completes array_field_heap 0 1 = Ret (h', 8)
    /\ h' !! 8 = Some (Obj KPlain [("items", VRef 10); ("name", VRef 5)])
    /\ h' !! 10 = Some (Obj KPlain [("0", VRef 2); ("root", VRef 3)])
    /\ h' !! 5 = Some (Obj KPlain [("message", VStr "is required");
                                    ("type", VStr "any.required"); ("ref", VRef 7)]).
Proof. eexists. split; [vm_compute; reflexivity|]. repeat split. Qed.

(** C3 fails on a field whose name opens a group: the pattern built in
    [isNameInFieldArray] is rejected and the exception leaves the resolver,
    in the synchronous mode and in the asynchronous one, whatever native
    validation would do. *)
Theorem joiResolver_unclosed_group_throws
    (validateFieldsNatively : heap -> value -> value -> outcome unit) :
  snd (joiResolver validateFieldsNatively (failing_schema unclosed_details) None
         (VStr "sync") plain_options_heap (VRef 2) VUndef 0)
  = Throw SyntaxError
  /\ snd (joiResolver validateFieldsNatively (failing_schema unclosed_details) None
            VUndef plain_options_heap (VRef 2) VUndef 0)
     = Throw SyntaxError.
Proof. split; reflexivity. Qed.

(** The same resolver on the sample details, whose paths hold no special
    character: it returns, with the tree at the end of the heap. *)
Example joiResolver_sample_failure_returns :
  exists h',
    snd (joiResolver completes (failing_schema sample_details) None (VStr "sync")
           plain_options_heap (VRef 2) VUndef 0)
    = Ret (h', {| values := EmptyObject; errors := Held (VRef 7) |}).
Proof.
  apply (joiResolver_failure_returns completes (failing_schema sample_details) None
           (VStr "sync") plain_options_heap (VRef 2) VUndef 0
           (fst (merge_options plain_options_heap None VUndef))
           sample_details [0; 1]).
  - left. split; [reflexivity|]. eexists. split; reflexivity.
  - reflexivity.
  - vm_compute. reflexivity.
  - intros H. vm_compute in H. discriminate.
Qed.
(** * Further properties *)

(** ** [escapeBrackets] *)

Lemma remove_chars_app p (s t : string) :
  remove_chars p (s ++ t) = (remove_chars p s ++ remove_chars p t)%string.
Proof.
  induction s as [|c r IH]; simpl; [reflexivity|].
  rewrite IH. destruct (p c); reflexivity.
Qed.

Lemma has_char_kept p c s :
  p c = false -> has_char c (remove_chars p s) = has_char c s.
Proof.
  intros Hc. unfold has_char. induction s as [|a r IH]; simpl; [reflexivity|].
  destruct (p a) eqn:Ea; simpl; rewrite IH; [|reflexivity].
  destruct (Ascii.eqb c a) eqn:E; [|reflexivity].
  apply Ascii.eqb_eq in E. subst a. congruence.
Qed.

Lemma has_char_removed p c s :
  p c = true -> has_char c (remove_chars p s) = false.
Proof.
  intros Hc. unfold has_char. induction s as [|a r IH]; simpl; [reflexivity|].
  destruct (p a) eqn:Ea; simpl; rewrite IH; [reflexivity|].
  destruct (Ascii.eqb c a) eqn:E; [|reflexivity].
  apply Ascii.eqb_eq in E. subst a. congruence.
Qed.

Lemma has_char_app c (s t : string) :
  has_char c (s ++ t) = has_char c s || has_char c t.
Proof.
  unfold has_char. induction s as [|a r IH]; simpl; [reflexivity|].
  rewrite IH. apply orb_assoc.
Qed.

(** X1: the result of [escapeBrackets] holds no bracket, removing the
    brackets a second time changes nothing, and the brackets of a
    concatenation are removed piece by piece. *)
Theorem escapeBrackets_removes_brackets (s : string) :
  has_char "["%char (escapeBrackets s) = false
  /\ has_char "]"%char (escapeBrackets s) = false
  /\ escapeBrackets (escapeBrackets s) = escapeBrackets s
  /\ forall t : string,
       escapeBrackets (s ++ t) = (escapeBrackets s ++ escapeBrackets t)%string.
Proof.
  unfold escapeBrackets. repeat split.
  - apply has_char_removed. reflexivity.
  - apply has_char_removed. reflexivity.
  - apply remove_chars_id, remove_chars_clean.
  - intros t. apply remove_chars_app.
Qed.

(** X2: [escapeBrackets] leaves every character that is not a bracket where
    it is; in particular the characters that have a meaning in a pattern
    are still there afterwards. *)
Theorem escapeBrackets_keeps_other_characters (s : string) (c : ascii) :
  c <> "["%char -> c <> "]"%char ->
  has_char c (escapeBrackets s) = has_char c s
  /\ (string_forall (fun a => negb (ascii_in ["]"%char; "["%char] a)) s = true ->
      escapeBrackets s = s).
Proof.
  intros H1 H2. unfold escapeBrackets. split.
  - apply has_char_kept. unfold ascii_in. simpl.
    destruct (Ascii.eqb c "]") eqn:E1; [apply Ascii.eqb_eq in E1; contradiction|].
    destruct (Ascii.eqb c "[") eqn:E2; [apply Ascii.eqb_eq in E2; contradiction|].
    reflexivity.
  - apply remove_chars_id.
Qed.

Lemma escapeBrackets_keeps_other_characters_witness :
  has_char "("%char (escapeBrackets "a[0](") = has_char "("%char "a[0]("
  /\ (string_forall (fun a => negb (ascii_in ["]"%char; "["%char] a)) "a[0]("  = true ->
      escapeBrackets "a[0](" = "a[0](").
Proof.
  apply (escapeBrackets_keeps_other_characters "a[0](" "("%char); discriminate.
Defined.

(** ** [isNameInFieldArray] *)

Lemma dot_loose_refl p : dot_loose p p = true.
Proof.
  induction p as [|a p IH]; simpl; [reflexivity|].
  rewrite IH, andb_true_r.
  destruct (Ascii.eqb a ".") eqn:E; [|apply Ascii.eqb_refl].
  apply Ascii.eqb_eq in E. subst a. reflexivity.
Qed.

(** The atoms of a name consume a prefix that is the name up to its dots. *)
Lemma match_atoms_spec p : forall s r,
  match_atoms (atoms_of p) s = Some r
  <-> exists q : string, s = (q ++ r)%string /\ dot_loose p q = true.
Proof.
  induction p as [|a p IH]; intros s r; cbn [atoms_of match_atoms].
  - split.
    + intros [= ->]. exists EmptyString. split; reflexivity.
    + intros (q & -> & Hq). destruct q; [reflexivity|discriminate].
  - destruct s as [|c s].
    + split; [discriminate|].
      intros (q & Hs & Hq). destruct q; [discriminate|]. discriminate.
    + destruct (Ascii.eqb a ".") eqn:Ea.
      * destruct (negb (line_terminator c)) eqn:Ec.
        -- rewrite IH. split.
           ++ intros (q & -> & Hq). exists (String c q). split; [reflexivity|].
              cbn [dot_loose]. rewrite Ea, Ec, Hq. reflexivity.
           ++ intros (q & Hs & Hq). destruct q as [|b q]; [discriminate|].
              simpl in Hs. injection Hs as -> ->. cbn [dot_loose] in Hq. rewrite Ea in Hq.
              apply andb_prop in Hq. destruct Hq as [_ Hq]. exists q. split; auto.
        -- split; [discriminate|].
           intros (q & Hs & Hq). destruct q as [|b q]; [discriminate|].
           simpl in Hs. injection Hs as -> ->. cbn [dot_loose] in Hq. rewrite Ea, Ec in Hq.
           discriminate.
      * destruct (Ascii.eqb a c) eqn:Eac.
        -- rewrite IH. apply Ascii.eqb_eq in Eac. subst c. split.
           ++ intros (q & -> & Hq). exists (String a q). split; [reflexivity|].
              cbn [dot_loose]. rewrite Ea, Ascii.eqb_refl, Hq. reflexivity.
           ++ intros (q & Hs & Hq). destruct q as [|b q]; [discriminate|].
              simpl in Hs. injection Hs as -> ->. cbn [dot_loose] in Hq. rewrite Ea in Hq.
              apply andb_prop in Hq. destruct Hq as [_ Hq]. exists q. split; auto.
        -- split; [discriminate|].
           intros (q & Hs & Hq). destruct q as [|b q]; [discriminate|].
           simpl in Hs. injection Hs as -> ->. cbn [dot_loose] in Hq. rewrite Ea, Eac in Hq.
           discriminate.
Qed.

Lemma dot_digit_spec (r : string) :
  match r with
  | String "."%char (String d _) => is_digit d
  | _ => false
  end = true
  <-> exists d (rest : string), r = String "."%char (String d rest) /\ is_digit d = true.
Proof.
  destruct r as [|a r].
  - split; [discriminate|]. intros (d & rest & H & _). discriminate.
  - destruct (Ascii.eqb_spec a "."%char) as [->|Hne].
    + destruct r as [|d rest].
      * split; [discriminate|]. intros (d & rest & H & _). discriminate.
      * split.
        -- intros H. exists d, rest. auto.
        -- intros (d' & rest' & [= -> ->] & H). exact H.
    + split.
      * intros H. exfalso.
        destruct a as [[] [] [] [] [] [] [] []]; try discriminate H.
        apply Hne. reflexivity.
      * intros (d & rest & [= -> _] & _). contradiction Hne. reflexivity.
Qed.

Lemma regex_match_spec p s :
  regex_match (atoms_of p) s = true
  <-> exists (q : string) d (rest : string),
        s = (q ++ String "."%char (String d rest))%string
        /\ dot_loose p q = true /\ is_digit d = true.
Proof.
  unfold regex_match. split.
  - destruct (match_atoms (atoms_of p) s) as [r|] eqn:E; [|discriminate].
    apply match_atoms_spec in E. destruct E as (q & -> & Hq).
    intros H. apply dot_digit_spec in H. destruct H as (d & rest & -> & Hd).
    exists q, d, rest. auto.
  - intros (q & d & rest & -> & Hq & Hd).
    assert (E : match_atoms (atoms_of p) (q ++ String "." (String d rest))
                = Some (String "."%char (String d rest))).
    { apply match_atoms_spec. exists q. auto. }
    rewrite E. exact Hd.
Qed.

(** X3: for a plain name, [isNameInFieldArray] on a list of strings returns
    a boolean, and it is [true] exactly when some string of the list, its
    brackets removed, starts with the name (up to the name's dots, which
    stand for any character), then a dot, then a digit. *)
Theorem isNameInFieldArray_plain (names : list string) (name : string) :
  plain_name name = true ->
  exists b,
    isNameInFieldArray (List.map VStr names) name = Ret b
    /\ (b = true
        <-> exists n (q : string) d (rest : string),
              In n names
              /\ escapeBrackets n = (q ++ String "."%char (String d rest))%string
              /\ dot_loose (escapeBrackets name) q = true
              /\ is_digit d = true).
Proof.
  intros Hp. unfold isNameInFieldArray. rewrite (some_match_plain _ _ Hp).
  eexists. split; [reflexivity|].
  rewrite existsb_exists. split.
  - intros (n & Hn & Hm). apply regex_match_spec in Hm.
    destruct Hm as (q & d & rest & E & Hq & Hd). exists n, q, d, rest. auto.
  - intros (n & q & d & rest & Hn & E & Hq & Hd). exists n. split; [exact Hn|].
    apply regex_match_spec. exists q, d, rest. auto.
Qed.

Lemma isNameInFieldArray_plain_witness :
  exists b,
    isNameInFieldArray (List.map VStr ["name"; "items[0].id"]) "items" = Ret b
    /\ (b = true
        <-> exists n (q : string) d (rest : string),
              In n ["name"; "items[0].id"]
              /\ escapeBrackets n = (q ++ String "."%char (String d rest))%string
              /\ dot_loose (escapeBrackets "items") q = true
              /\ is_digit d = true).
Proof.
  apply (isNameInFieldArray_plain ["name"; "items[0].id"] "items"). reflexivity.
Defined.

(** X4: a name that has no dot never makes a path an array field: with
    names that address their elements by brackets only, as in [items[0]],
    the test fails for every plain path. *)
Theorem isNameInFieldArray_needs_dot (names : list string) (name : string) :
  plain_name name = true ->
  (forall n, In n names -> has_char "."%char n = false) ->
  isNameInFieldArray (List.map VStr names) name = Ret false.
Proof.
  intros Hp Hdot. unfold isNameInFieldArray. rewrite (some_match_plain _ _ Hp).
  f_equal. apply not_true_is_false. intros H.
  apply existsb_exists in H. destruct H as (n & Hn & Hm).
  apply regex_match_spec in Hm. destruct Hm as (q & d & rest & E & _ & _).
  specialize (Hdot n Hn).
  assert (Hk : has_char "."%char (escapeBrackets n) = has_char "."%char n).
  { apply has_char_kept. reflexivity. }
  rewrite E, has_char_app in Hk. rewrite Hdot in Hk.
  unfold has_char in Hk at 2. simpl in Hk. rewrite orb_true_r in Hk. discriminate.
Qed.

Lemma isNameInFieldArray_needs_dot_witness :
  isNameInFieldArray (List.map VStr ["items[0]"; "items[1]"]) "items" = Ret false.
Proof.
  apply (isNameInFieldArray_needs_dot ["items[0]"; "items[1]"] "items").
  - reflexivity.
  - intros n [<-|[<-|[]]]; reflexivity.
Defined.

(** X5: for a plain path (one that, its brackets removed, holds no regex
    special character other than dots), [some] stops at the first name that
    extends the path by a dot and a digit: when the names before it are
    strings, the test is [true] whatever comes later in the list, entries
    that are no strings included. *)
Theorem isNameInFieldArray_first_match_decides
    (before : list string) (n : string) (after : list value)
    (name : string) (d : ascii) (rest : string) :
  plain_name name = true ->
  escapeBrackets n
  = (escapeBrackets name ++ String "."%char (String d rest))%string ->
  is_digit d = true ->
  isNameInFieldArray (List.map VStr before ++ VStr n :: after) name = Ret true.
Proof.
  intros Hp E Hd. unfold isNameInFieldArray.
  assert (Hm : regex_match (atoms_of (escapeBrackets name)) (escapeBrackets n) = true).
  { apply regex_match_spec. exists (escapeBrackets name), d, rest.
    split; [exact E|]. split; [apply dot_loose_refl|exact Hd]. }
  induction before as [|b before IH]; simpl.
  - unfold compile_name. unfold plain_name in Hp. rewrite Hp. cbn [obind].
    rewrite Hm. reflexivity.
  - unfold compile_name. unfold plain_name in Hp. rewrite Hp. cbn [obind].
    destruct (regex_match _ (escapeBrackets b)); [reflexivity|exact IH].
Qed.

Lemma isNameInFieldArray_first_match_decides_witness :
  isNameInFieldArray (List.map VStr ["name"] ++ VStr "items.0.id" :: [VNum 3]) "items"
  = Ret true.
Proof.
  apply (isNameInFieldArray_first_match_decides ["name"] "items.0.id" [VNum 3]
           "items" "0"%char ".id"); reflexivity.
Defined.
(** ** [parseErrorSchema]: the order of the keys *)

Lemma assoc_set_fst {A} (k : string) (v : A) ps :
  List.map fst (assoc_set k v ps)
  = if is_some (assoc_get k ps) then List.map fst ps else List.map fst ps ++ [k].
Proof.
  induction ps as [|[k0 v0] ps IH]; simpl; [reflexivity|].
  destruct (String.eqb k k0) eqn:E; simpl.
  - apply String.eqb_eq in E. subst. reflexivity.
  - rewrite IH. destruct (is_some (assoc_get k ps)); reflexivity.
Qed.

Lemma is_some_assoc_get {A} (k : string) (ps : list (string * A)) :
  is_some (assoc_get k ps) = existsb (String.eqb k) (List.map fst ps).
Proof.
  induction ps as [|[k0 v0] ps IH]; simpl; [reflexivity|].
  destruct (String.eqb k k0); [reflexivity|exact IH].
Qed.

Lemma own_step_fst all acc d :
  List.map fst (own_step all acc d)
  = if is_some (assoc_get (joined_path d) acc) then List.map fst acc
    else List.map fst acc ++ [joined_path d].
Proof.
  unfold own_step.
  destruct (assoc_get (joined_path d) acc) as [r|] eqn:E; cbn [is_some].
  - destruct all; [|reflexivity]. rewrite assoc_set_fst, E. reflexivity.
  - destruct all.
    + rewrite assoc_set_fst, assoc_get_set_eq. cbn [is_some].
      rewrite assoc_set_fst, E. reflexivity.
    + rewrite assoc_set_fst, E. reflexivity.
Qed.

Lemma filter_twice {A} (f g : A -> bool) l :
  List.filter f (List.filter g l) = List.filter (fun x => g x && f x) l.
Proof.
  induction l as [|a l IH]; simpl; [reflexivity|].
  destruct (g a); simpl; [|exact IH]. destruct (f a); rewrite IH; reflexivity.
Qed.

Lemma parse_fold_fst all ds : forall acc,
  List.map fst (List.fold_left (own_step all) ds acc)
  = List.map fst acc
    ++ List.filter (unseen (List.map fst acc))
         (first_appearances (List.map joined_path ds)).
Proof.
  induction ds as [|d ds IH]; intros acc; simpl.
  - rewrite List.app_nil_r. reflexivity.
  - rewrite IH, own_step_fst, is_some_assoc_get.
    set (k := joined_path d). set (K := List.map fst acc).
    set (fa := first_appearances (List.map joined_path ds)).
    unfold unseen at 2. destruct (existsb (String.eqb k) K) eqn:Ek; simpl.
    + f_equal. rewrite filter_twice. apply List.filter_ext. intros x.
      destruct (String.eqb x k) eqn:Ex; [|reflexivity].
      apply String.eqb_eq in Ex. subst x. unfold unseen. rewrite Ek. reflexivity.
    + rewrite <- List.app_assoc. simpl. f_equal. f_equal.
      rewrite filter_twice. apply List.filter_ext. intros x.
      unfold unseen. rewrite List.existsb_app. simpl. rewrite orb_false_r.
      rewrite negb_orb. apply andb_comm.
Qed.

Lemma own_parse_fst (details : list ErrorItem) (all : bool) :
  List.map fst (own_parse details all)
  = first_appearances (List.map joined_path details).
Proof.
  unfold own_parse. destruct details as [|d ds]; [reflexivity|].
  rewrite parse_fold_fst. simpl List.map at 1. cbn [app].
  rewrite <- (List.filter_ext (fun _ => true)) by reflexivity.
  clear. induction (first_appearances (List.map joined_path (d :: ds))) as [|x l IH];
    simpl; [reflexivity|]. rewrite IH. reflexivity.
Qed.

(** ** From a Joi path to the segments [set] walks *)

Lemma string_forall_app P (s t : string) :
  string_forall P (s ++ t) = string_forall P s && string_forall P t.
Proof.
  induction s as [|c s IH]; simpl; [reflexivity|].
  rewrite IH. apply andb_assoc.
Qed.

Lemma string_forall_impl (P Q : ascii -> bool) s :
  (forall c, P c = true -> Q c = true) ->
  string_forall P s = true -> string_forall Q s = true.
Proof.
  intros HPQ. induction s as [|c s IH]; simpl; [reflexivity|].
  intros H. apply andb_prop in H. destruct H as [Hc Hs].
  rewrite (HPQ c Hc), (IH Hs). reflexivity.
Qed.

Lemma string_of_uint_digits d :
  string_forall is_digit (NilEmpty.string_of_uint d) = true.
Proof. induction d; simpl; [reflexivity|exact IHd ..]. Qed.

Lemma N_to_string_nonempty n : nonempty (N_to_string n) = true.
Proof.
  unfold N_to_string. destruct n as [|p]; [reflexivity|]. simpl.
  pose proof (Stdlib.Numbers.DecimalPos.Unsigned.to_uint_nonnil p) as H.
  destruct (Pos.to_uint p); [contradiction| reflexivity ..].
Qed.

Lemma digit_not_special c : is_digit c = true -> negb (path_special c) = true.
Proof.
  destruct c as [[] [] [] [] [] [] [] []]; try reflexivity; discriminate.
Qed.

Lemma item_string_plain p :
  plain_item p = true ->
  nonempty (item_string p) = true
  /\ string_forall (fun c => negb (path_special c)) (item_string p) = true.
Proof.
  destruct p as [s|n]; simpl.
  - intros H. apply andb_prop in H. exact H.
  - intros _. split; [apply N_to_string_nonempty|].
    apply (string_forall_impl is_digit); [apply digit_not_special|].
    apply string_of_uint_digits.
Qed.

Lemma join_dot_cons x y r :
  join_dot (x :: y :: r) = (x ++ String "."%char (join_dot (y :: r)))%string.
Proof. reflexivity. Qed.

Lemma join_dot_forall (Q : ascii -> bool) parts :
  Q "."%char = true ->
  (forall x, In x parts -> string_forall Q x = true) ->
  string_forall Q (join_dot parts) = true.
Proof.
  intros Hdot. induction parts as [|x [|y r] IH]; intros H.
  - reflexivity.
  - apply H. left. reflexivity.
  - rewrite join_dot_cons, string_forall_app. cbn [string_forall].
    rewrite (H x (or_introl eq_refl)), Hdot. simpl.
    apply IH. intros z Hz. apply H. right. exact Hz.
Qed.

Lemma split_on_prefix sep (x t : string) c :
  string_forall (fun a => negb (sep a)) x = true -> sep c = true ->
  split_on sep (x ++ String c t) = x :: split_on sep t.
Proof.
  intros Hx Hc. induction x as [|a x IH]; simpl.
  - rewrite Hc. reflexivity.
  - simpl in Hx. apply andb_prop in Hx. destruct Hx as [Ha Hx].
    apply negb_true_iff in Ha. rewrite Ha, (IH Hx). reflexivity.
Qed.

Lemma split_on_join sep parts :
  sep "."%char = true -> parts <> [] ->
  (forall x, In x parts -> string_forall (fun a => negb (sep a)) x = true) ->
  split_on sep (join_dot parts) = parts.
Proof.
  intros Hdot. induction parts as [|x [|y r] IH]; intros Hne H.
  - contradiction.
  - apply split_on_whole, H. left. reflexivity.
  - rewrite join_dot_cons, split_on_prefix; [|apply H; left; reflexivity|exact Hdot].
    f_equal. apply IH; [discriminate|]. intros z Hz. apply H. right. exact Hz.
Qed.

Lemma compact_nonempty parts :
  (forall x, In x parts -> nonempty x = true) -> compact parts = parts.
Proof.
  unfold compact. induction parts as [|x r IH]; intros H; simpl; [reflexivity|].
  rewrite (H x (or_introl eq_refl)), IH; [reflexivity|].
  intros z Hz. apply H. right. exact Hz.
Qed.

Lemma special_covers_removed c :
  negb (path_special c) = true
  -> negb (ascii_in ["034"%char; "|"%char; "'"%char; "]"%char] c) = true.
Proof.
  unfold path_special, ascii_in. simpl.
  destruct (Ascii.eqb c "."), (Ascii.eqb c "["), (Ascii.eqb c "]"),
    (Ascii.eqb c "034"), (Ascii.eqb c "|"), (Ascii.eqb c "'");
    simpl; intros H; try discriminate H; reflexivity.
Qed.

Lemma special_covers_separators c :
  negb (path_special c) = true -> negb (ascii_in ["."%char; "["%char] c) = true.
Proof.
  unfold path_special, ascii_in. simpl.
  destruct (Ascii.eqb c "."), (Ascii.eqb c "["); simpl; intros H;
    try discriminate H; reflexivity.
Qed.

Lemma stringToPath_join parts :
  parts <> [] ->
  (forall x, In x parts ->
     nonempty x = true /\ string_forall (fun c => negb (path_special c)) x = true) ->
  stringToPath (join_dot parts) = parts.
Proof.
  intros Hne H. unfold stringToPath.
  rewrite remove_chars_id.
  - rewrite split_on_join; [|reflexivity|exact Hne|].
    + apply compact_nonempty. intros x Hx. apply (H x Hx).
    + intros x Hx. eapply string_forall_impl; [|apply (H x Hx)].
      apply special_covers_separators.
  - apply join_dot_forall; [reflexivity|]. intros x Hx.
    eapply string_forall_impl; [|apply (H x Hx)]. apply special_covers_removed.
Qed.

Lemma pathSegments_join parts :
  parts <> [] ->
  (forall x, In x parts ->
     nonempty x = true /\ string_forall (fun c => negb (path_special c)) x = true) ->
  pathSegments (join_dot parts) = parts.
Proof.
  intros Hne H. unfold pathSegments.
  destruct (isKey (join_dot parts)) eqn:Ek; [|apply stringToPath_join; assumption].
  destruct parts as [|x [|y r]]; [contradiction|reflexivity|].
  exfalso. rewrite join_dot_cons in Ek. unfold isKey in Ek.
  rewrite string_forall_app in Ek. cbn [string_forall] in Ek.
  change (is_word_char "."%char) with false in Ek.
  rewrite andb_false_r in Ek. discriminate.
Qed.

(** X7: joining a Joi path with dots and splitting the result the way [get]
    and [set] do gives the path back, element by element, when the path is
    not empty and each of its keys is free of dots, brackets, quotes and
    bars and is not the empty string; indices always qualify. *)
Theorem pathSegments_joined_path (e : ErrorItem) :
  item_path e <> [] ->
  forallb plain_item (item_path e) = true ->
  pathSegments (joined_path e) = List.map item_string (item_path e).
Proof.
  intros Hne Hall. unfold joined_path. apply pathSegments_join.
  - destruct (item_path e); [contradiction|discriminate].
  - intros x Hx. apply List.in_map_iff in Hx. destruct Hx as (p & <- & Hp).
    apply item_string_plain. rewrite List.forallb_forall in Hall. apply Hall, Hp.
Qed.

Lemma pathSegments_joined_path_witness :
  pathSegments
    (joined_path {| item_path := [PKey "items"; PIndex 0; PKey "first-name"];
                    item_message := "must be a string"; item_type := "string.base" |})
  = ["items"; "0"; "first-name"].
Proof.
  apply (pathSegments_joined_path
           {| item_path := [PKey "items"; PIndex 0; PKey "first-name"];
              item_message := "must be a string"; item_type := "string.base" |}).
  - discriminate.
  - reflexivity.
Defined.
(** ** The resolver: the options it hands on, exceptions, rejections *)

Lemma extended_refl h : extended h h.
Proof. exists []. rewrite List.app_nil_r. reflexivity. Qed.

Lemma extended_trans h1 h2 h3 : extended h1 h2 -> extended h2 h3 -> extended h1 h3.
Proof.
  intros [m1 ->] [m2 ->]. exists (m1 ++ m2). rewrite List.app_assoc. reflexivity.
Qed.

Lemma extended_alloc h o : extended h (h ++ [o]).
Proof. exists [o]. reflexivity. Qed.

Lemma extended_length h h' : extended h h' -> length h <= length h'.
Proof. intros [m ->]. rewrite length_app. lia. Qed.

Lemma extended_lookup h h' l : extended h h' -> l < length h -> h' !! l = h !! l.
Proof. intros [m ->] Hl. apply lookup_app_l, Hl. Qed.

Lemma extended_read h h' l k :
  extended h h' -> l < length h -> read_prop h' (VRef l) k = read_prop h (VRef l) k.
Proof.
  intros He Hl. unfold read_prop. rewrite (extended_lookup h h' l He Hl). reflexivity.
Qed.

Lemma store_result_extended h r : extended h (fst (store_result h r)).
Proof. destruct r; simpl; [apply extended_refl|apply extended_alloc]. Qed.

Lemma store_types_extended ts : forall h, extended h (fst (store_types h ts)).
Proof.
  induction ts as [|[k r] ts IH]; intros h; simpl; [apply extended_refl|].
  pose proof (store_result_extended h r) as H1.
  destruct (store_result h r) as [h1 v]. simpl in H1.
  pose proof (IH h1) as H2. destruct (store_types h1 ts) as [h2 ps]. simpl in *.
  eapply extended_trans; eassumption.
Qed.

(** A record is stored as a new object at the end of the heap, with its
    [message] and [type] as own properties. *)
Lemma store_field_error_spec h e :
  let stored := store_field_error h e in
  extended h (fst stored)
  /\ snd stored < length (fst stored)
  /\ length h <= snd stored
  /\ read_prop (fst stored) (VRef (snd stored)) "message" = member_value (fe_message e)
  /\ read_prop (fst stored) (VRef (snd stored)) "type" = member_value (fe_type e)
  /\ isUndefined (read_prop (fst stored) (VRef (snd stored)) "types")
     = negb (is_some (fe_types e)).
Proof.
  unfold store_field_error.
  set (pre := match fe_types e with
              | Some ts =>
                  let '(h', ps) := store_types h ts in
                  let '(h'', t) := alloc h' (Obj KPlain ps) in
                  (h'', [("types", VRef t)])
              | None => (h, [])
              end).
  assert (Hpre : extended h (fst pre)
                 /\ ((fe_types e = None /\ snd pre = [])
                     \/ exists ts t, fe_types e = Some ts
                                     /\ snd pre = [("types", VRef t)])).
  { subst pre. destruct (fe_types e) as [ts|].
    - pose proof (store_types_extended ts h) as H.
      destruct (store_types h ts) as [h' ps]. simpl in *. split.
      + eapply extended_trans; [exact H|apply extended_alloc].
      + right. eexists. eexists. split; reflexivity.
    - simpl. split; [apply extended_refl|left; split; reflexivity]. }
  destruct pre as [h1 tprops]. simpl in Hpre. destruct Hpre as [He Ht].
  cbn [alloc fst snd]. split; [|split; [|split; [|split; [|split]]]].
  - eapply extended_trans; [exact He|apply extended_alloc].
  - rewrite length_app. simpl. lia.
  - apply extended_length, He.
  - rewrite read_alloc_new. unfold obj_get. simpl props.
    destruct (fe_message e) as [m|]; [reflexivity|].
    destruct (fe_type e) as [t|]; destruct Ht as [[_ ->]|(ts & t' & _ & ->)];
      reflexivity.
  - rewrite read_alloc_new. unfold obj_get. simpl props.
    destruct (fe_message e) as [m|]; destruct (fe_type e) as [t|];
      destruct Ht as [[_ ->]|(ts & t' & _ & ->)]; reflexivity.
  - rewrite read_alloc_new. unfold obj_get. simpl props.
    destruct (fe_message e) as [m|]; destruct (fe_type e) as [t|];
      destruct Ht as [[-> ->]|(ts & t' & -> & ->)]; reflexivity.
Qed.

(** The stored mapping has the keys of the list, each referring to an
    object that holds the record's [message] and [type]. *)
Lemma store_records_spec l : forall h,
  let stored := store_records h l in
  extended h (fst stored)
  /\ List.map fst (snd stored) = List.map fst l
  /\ forall k e, assoc_get k l = Some e ->
       exists r, assoc_get k (snd stored) = Some (VRef r)
                 /\ length h <= r < length (fst stored)
                 /\ read_prop (fst stored) (VRef r) "message" = member_value (fe_message e)
                 /\ read_prop (fst stored) (VRef r) "type" = member_value (fe_type e)
                 /\ isUndefined (read_prop (fst stored) (VRef r) "types")
                    = negb (is_some (fe_types e)).
Proof.
  induction l as [|[k0 e0] l IH]; intros h; cbn zeta.
  - simpl. split; [apply extended_refl|]. split; [reflexivity|]. discriminate.
  - cbn [store_records].
    pose proof (store_field_error_spec h e0) as H0. cbn zeta in H0.
    destruct (store_field_error h e0) as [h1 r0]. cbn [fst snd] in H0.
    destruct H0 as (He0 & Hr0 & Hlo0 & Hm0 & Ht0 & Hts0).
    pose proof (IH h1) as H1. cbn zeta in H1.
    destruct (store_records h1 l) as [h2 ps]. cbn [fst snd] in *.
    destruct H1 as (He1 & Hk1 & Hrd1).
    split; [eapply extended_trans; eassumption|].
    split; [simpl; rewrite Hk1; reflexivity|].
    intros k e. cbn [assoc_get]. destruct (String.eqb k k0).
    + intros [= <-]. exists r0. split; [reflexivity|].
      split; [pose proof (extended_length _ _ He1); lia|].
      rewrite !(extended_read h1 h2 r0) by assumption. auto.
    + intros Hke. destruct (Hrd1 k e Hke) as (r & H1 & H2 & H3).
      exists r. split; [exact H1|]. split; [|exact H3].
      pose proof (extended_length _ _ He0). lia.
Qed.

Lemma store_errors_spec h l :
  let stored := store_errors h l in
  extended h (fst stored)
  /\ snd stored < length (fst stored)
  /\ length h <= snd stored
  /\ own_keys (fst stored) (snd stored) = List.map fst (ordered_entries (snd (store_records h l)))
  /\ forall k e, assoc_get k l = Some e ->
       exists r, read_prop (fst stored) (VRef (snd stored)) k = VRef r
                 /\ length h <= r < snd stored
                 /\ In k (own_keys (fst stored) (snd stored))
                 /\ read_prop (fst stored) (VRef r) "message" = member_value (fe_message e)
                 /\ read_prop (fst stored) (VRef r) "type" = member_value (fe_type e)
                 /\ isUndefined (read_prop (fst stored) (VRef r) "types")
                    = negb (is_some (fe_types e)).
Proof.
  unfold store_errors. pose proof (store_records_spec l h) as H. cbn zeta in H.
  destruct (store_records h l) as [h1 ps]. cbn [fst snd alloc] in *.
  destruct H as (He & Hk & Hrd).
  assert (Hkeys : own_keys (h1 ++ [Obj KPlain ps]) (length h1)
                  = List.map fst (ordered_entries ps)).
  { unfold own_keys. rewrite lookup_alloc_new. reflexivity. }
  split; [eapply extended_trans; [exact He|apply extended_alloc]|].
  split; [rewrite length_app; simpl; lia|].
  split; [apply extended_length, He|].
  split; [exact Hkeys|].
  intros k e Hke. destruct (Hrd k e Hke) as (r & Hps & Hr & Hm & Ht & Hts).
  exists r. split; [|split; [exact Hr|split; [|split; [|split]]]].
  - rewrite read_alloc_new. unfold obj_get. simpl. rewrite Hps. reflexivity.
  - rewrite Hkeys. apply List.in_map_iff. exists (k, VRef r). split; [reflexivity|].
    apply assoc_get_In. rewrite assoc_get_ordered. exact Hps.
  - rewrite read_alloc_old by lia. exact Hm.
  - rewrite read_alloc_old by lia. exact Ht.
  - rewrite read_alloc_old by lia. exact Hts.
Qed.

Section ResolverEdges.

Variable validateFieldsNatively : heap -> value -> value -> outcome unit.

Let resolve := joiResolver validateFieldsNatively.

(** X8: the schema is called once, with the values and with a new object
    that holds the caller's schema options (or [abortEarly: false] when
    none are given) and, as [context], the context of this call, whatever
    [context] the options had; the caller's objects are left as they are. *)
Theorem joiResolver_passes_merged_options (schema : Schema)
    (schemaOptions : option loc) (mode : value) (h : heap)
    (values context : value) (options : loc) :
  let merged := merge_options h schemaOptions context in
  (fst (resolve schema schemaOptions mode h values context options)
   = [CallValidate values (snd merged)]
   \/ fst (resolve schema schemaOptions mode h values context options)
      = [CallValidateAsync values (snd merged)])
  /\ snd merged = length h
  /\ (forall l, l < length h -> fst merged !! l = h !! l)
  /\ read_prop (fst merged) (VRef (snd merged)) "context" = context
  /\ forall k, k <> "context" ->
       read_prop (fst merged) (VRef (snd merged)) k
       = match schemaOptions with
         | Some l => read_prop h (VRef l) k
         | None => if String.eqb k "abortEarly" then VBool false else VUndef
         end.
Proof.
  intros merged. split; [|split; [|split; [|split]]].
  - unfold resolve, joiResolver. fold merged. destruct merged as [h1 so].
    unfold run_validation. destruct (value_eqb mode (VStr "sync")).
    + left. reflexivity.
    + right. destruct (validateAsync schema h1 values so). reflexivity.
  - reflexivity.
  - intros l Hl. apply lookup_alloc_old, Hl.
  - subst merged. unfold merge_options, alloc. cbn [fst snd].
    rewrite read_alloc_new. unfold obj_get. simpl props.
    rewrite assoc_get_set_eq. reflexivity.
  - intros k Hk. subst merged. unfold merge_options, alloc. cbn [fst snd].
    rewrite read_alloc_new. unfold obj_get. simpl props.
    rewrite assoc_get_set_ne by exact Hk.
    destruct schemaOptions as [l|].
    + unfold read_prop. destruct (h !! l) as [o|]; [|reflexivity].
      rewrite assoc_get_ordered. reflexivity.
    + cbn [assoc_get]. destruct (String.eqb k "abortEarly"); reflexivity.
Qed.

(** X9: in the synchronous mode nothing catches what [schema.validate]
    throws: the resolver fails with that same exception. *)
Theorem joiResolver_sync_exception_propagates (schema : Schema)
    (schemaOptions : option loc) (h : heap) (values context : value)
    (options : loc) (e : exn) :
  validate schema (fst (merge_options h schemaOptions context)) values
    (snd (merge_options h schemaOptions context)) = Throw e ->
  snd (resolve schema schemaOptions (VStr "sync") h values context options) = Throw e.
Proof.
  intros H. unfold resolve, joiResolver.
  destruct (merge_options h schemaOptions context) as [h1 so]. cbn [fst snd] in H.
  unfold run_validation. cbn [value_eqb]. rewrite String.eqb_refl, H. reflexivity.
Qed.

(** X10: in the asynchronous mode a rejection with a falsy value
    ([undefined], [null], [0], the empty string, [false]) is taken for a
    success: the resolver returns no errors and [undefined] as values. *)
Theorem joiResolver_falsy_rejection_is_success (schema : Schema)
    (schemaOptions : option loc) (mode : value) (h : heap)
    (values context : value) (options : loc) (h2 : heap) (v : value) :
  mode <> VStr "sync" ->
  validateAsync schema (fst (merge_options h schemaOptions context)) values
    (snd (merge_options h schemaOptions context)) = (h2, inr (Rejection v)) ->
  truthy v = false ->
  native_completes validateFieldsNatively h2 options ->
  snd (resolve schema schemaOptions mode h values context options)
  = Ret (h2, {| values := Held VUndef; errors := EmptyObject |}).
Proof.
  intros Hmode Hrej Hv Hnative. unfold resolve, joiResolver.
  destruct (merge_options h schemaOptions context) as [h1 so]. cbn [fst snd] in Hrej.
  unfold run_validation.
  destruct (value_eqb mode (VStr "sync")) eqn:E;
    [apply value_eqb_sync in E; contradiction|].
  rewrite Hrej. cbn [obind]. unfold respond.
  cbn [result_error truthy_error failure_truthy]. rewrite Hv.
  unfold native_completes in Hnative.
  destruct (truthy (read_prop h2 (VRef options) "shouldUseNativeValidation")).
  - unfold alloc. rewrite Hnative by reflexivity. reflexivity.
  - reflexivity.
Qed.

(** X11: in the asynchronous mode a rejection with a truthy value that has
    no [details] (any exception that is no [ValidationError]) is not
    handed on: reading [details.length] fails and the resolver fails with a
    type error. *)
Theorem joiResolver_foreign_rejection_throws (schema : Schema)
    (schemaOptions : option loc) (mode : value) (h : heap)
    (values context : value) (options : loc) (h2 : heap) (v : value) :
  mode <> VStr "sync" ->
  validateAsync schema (fst (merge_options h schemaOptions context)) values
    (snd (merge_options h schemaOptions context)) = (h2, inr (Rejection v)) ->
  truthy v = true ->
  isNullOrUndefined (read_prop h2 v "details") = true ->
  snd (resolve schema schemaOptions mode h values context options) = Throw TypeError.
Proof.
  intros Hmode Hrej Hv Hd. unfold resolve, joiResolver.
  destruct (merge_options h schemaOptions context) as [h1 so]. cbn [fst snd] in Hrej.
  unfold run_validation.
  destruct (value_eqb mode (VStr "sync")) eqn:E;
    [apply value_eqb_sync in E; contradiction|].
  rewrite Hrej. cbn [obind]. unfold respond.
  cbn [result_error truthy_error failure_truthy]. rewrite Hv.
  cbn [parse_failure]. rewrite Hd. reflexivity.
Qed.

(** X12: a failure that comes with no details at all gives an empty tree:
    the resolver returns [values] and [errors] both empty. *)
Theorem joiResolver_failure_without_details (schema : Schema)
    (schemaOptions : option loc) (mode : value) (h : heap)
    (input context : value) (options : loc) (h2 : heap) (result : ValidationResult) :
  snd (run_validation schema mode (fst (merge_options h schemaOptions context))
         input (snd (merge_options h schemaOptions context)))
  = Ret (h2, result) ->
  result_error result = Some (ValidationError []) ->
  native_allows validateFieldsNatively (h2 ++ [Obj KPlain []]) (length h2) options ->
  snd (resolve schema schemaOptions mode h input context options)
  = Ret (h2 ++ [Obj KPlain []; Obj KPlain []],
         {| values := EmptyObject; errors := Held (VRef (S (length h2))) |})
    /\ own_keys (h2 ++ [Obj KPlain []; Obj KPlain []]) (S (length h2)) = [].
Proof.
  intros Hrun Herr Hn. split.
  - unfold resolve, joiResolver.
    destruct (merge_options h schemaOptions context) as [h1 so]. simpl in Hrun.
    destruct (run_validation schema mode h1 input so) as [calls validated].
    simpl in *. subst validated. cbn [obind]. unfold respond. rewrite Herr.
    cbn [truthy_error failure_truthy parse_failure obind parseErrorSchema].
    cbn [store_errors store_records alloc]. unfold toNestErrors.
    assert (Hnat : (if truthy (read_prop (h2 ++ [Obj KPlain []]) (VRef options)
                                 "shouldUseNativeValidation")
                    then validateFieldsNatively (h2 ++ [Obj KPlain []])
                           (VRef (length h2)) (VRef options)
                    else Ret tt) = Ret tt).
    { unfold native_allows in Hn.
      destruct (truthy (read_prop (h2 ++ [Obj KPlain []]) (VRef options)
                          "shouldUseNativeValidation"));
        [apply Hn; reflexivity|reflexivity]. }
    rewrite Hnat. cbn [obind alloc]. rewrite own_keys_alloc.
    unfold own_keys at 1. rewrite lookup_alloc_new. cbn.
    rewrite length_app, <- List.app_assoc. simpl. rewrite Nat.add_1_r. reflexivity.
  - unfold own_keys.
    replace (h2 ++ [Obj KPlain []; Obj KPlain []])
      with ((h2 ++ [Obj KPlain []]) ++ [Obj KPlain []])
      by (rewrite <- List.app_assoc; reflexivity).
    replace (S (length h2)) with (length (h2 ++ [Obj KPlain []]))
      by (rewrite length_app; simpl; lia).
    rewrite lookup_alloc_new. reflexivity.
Qed.

End ResolverEdges.

Lemma joiResolver_sync_exception_propagates_witness :
  snd (joiResolver completes (rejecting_schema VUndef) None (VStr "sync")
         plain_options_heap (VRef 2) VUndef 0) = Throw HostError.
Proof.
  apply (joiResolver_sync_exception_propagates completes (rejecting_schema VUndef)
           None plain_options_heap (VRef 2) VUndef 0 HostError).
  reflexivity.
Defined.

Lemma joiResolver_falsy_rejection_is_success_witness :
  snd (joiResolver completes (rejecting_schema VNull) None VUndef
         plain_options_heap (VRef 2) VUndef 0)
  = Ret (fst (merge_options plain_options_heap None VUndef),
         {| values := Held VUndef; errors := EmptyObject |}).
Proof.
  apply (joiResolver_falsy_rejection_is_success completes (rejecting_schema VNull)
           None VUndef plain_options_heap (VRef 2) VUndef 0 _ VNull).
  - discriminate.
  - reflexivity.
  - reflexivity.
  - intros H. vm_compute in H. discriminate.
Defined.

Lemma joiResolver_foreign_rejection_throws_witness :
  snd (joiResolver completes (rejecting_schema (VStr "boom")) None VUndef
         plain_options_heap (VRef 2) VUndef 0) = Throw TypeError.
Proof.
  apply (joiResolver_foreign_rejection_throws completes (rejecting_schema (VStr "boom"))
           None VUndef plain_options_heap (VRef 2) VUndef 0
           (fst (merge_options plain_options_heap None VUndef)) (VStr "boom")).
  - discriminate.
  - reflexivity.
  - reflexivity.
  - reflexivity.
Defined.

Lemma joiResolver_failure_without_details_witness :
  snd (joiResolver completes (failing_schema []) None (VStr "sync")
         plain_options_heap (VRef 2) VUndef 0)
  = Ret (fst (merge_options plain_options_heap None VUndef)
           ++ [Obj KPlain []; Obj KPlain []],
         {| values := EmptyObject; errors := Held (VRef 5) |})
    /\ own_keys (fst (merge_options plain_options_heap None VUndef)
                   ++ [Obj KPlain []; Obj KPlain []]) 5 = [].
Proof.
  apply (joiResolver_failure_without_details completes (failing_schema []) None
           (VStr "sync") plain_options_heap (VRef 2) VUndef 0
           (fst (merge_options plain_options_heap None VUndef))
           {| result_error := Some (ValidationError []); result_value := VUndef |}).
  - reflexivity.
  - reflexivity.
  - intros H. vm_compute in H. discriminate.
Defined.
(** ** From the parsed mapping to a tidy mapping on the heap *)

Lemma strings_of_spec l : forall ss, strings_of l = Some ss -> l = List.map VStr ss.
Proof.
  induction l as [|v l IH]; intros ss; simpl.
  - intros [= <-]. reflexivity.
  - destruct v; try discriminate.
    destruct (strings_of l) as [ss'|]; simpl; [|discriminate].
    intros [= <-]. simpl. f_equal. apply IH. reflexivity.
Qed.

Lemma insert_sorted_key {A} n (x : string * A) L :
  List.map entry_key (insert_sorted n x L)
  = insert_sorted n (fst x) (List.map entry_key L).
Proof.
  induction L as [|[m y] L IH]; simpl; [reflexivity|].
  destruct (n <=? m)%N; simpl; [reflexivity|]. rewrite IH. reflexivity.
Qed.

Lemma index_entries_keys {A B} (ps : list (string * A)) :
  forall ps' : list (string * B),
    List.map fst ps = List.map fst ps' ->
    List.map entry_key (index_entries ps) = List.map entry_key (index_entries ps').
Proof.
  induction ps as [|[k v] ps IH]; intros [|[k' v'] ps']; simpl; try discriminate;
    [reflexivity|].
  intros [= <- H]. destruct (array_index k); [|apply IH, H].
  rewrite !insert_sorted_key. simpl. rewrite (IH ps' H). reflexivity.
Qed.

Lemma named_entries_keys {A B} (ps : list (string * A)) :
  forall ps' : list (string * B),
    List.map fst ps = List.map fst ps' ->
    List.map fst (named_entries ps) = List.map fst (named_entries ps').
Proof.
  unfold named_entries.
  induction ps as [|[k v] ps IH]; intros [|[k' v'] ps']; simpl; try discriminate;
    [reflexivity|].
  intros [= <- H]. destruct (array_index k); simpl; rewrite (IH ps' H); reflexivity.
Qed.

Lemma index_entries_fst {A} (L : list (N * (string * A))) :
  List.map fst (List.map snd L) = List.map snd (List.map entry_key L).
Proof. induction L as [|e L IH]; simpl; [reflexivity|]. rewrite IH. reflexivity. Qed.

(** The enumeration order of a property list depends on its keys only. *)
Lemma ordered_keys_ext {A B} (ps : list (string * A)) (ps' : list (string * B)) :
  List.map fst ps = List.map fst ps' ->
  List.map fst (ordered_entries ps) = List.map fst (ordered_entries ps').
Proof.
  intros H. unfold ordered_entries. rewrite !List.map_app, !index_entries_fst.
  rewrite (index_entries_keys ps ps' H), (named_entries_keys ps ps' H). reflexivity.
Qed.

Lemma own_parse_key_order (details : list ErrorItem) (all : bool) :
  List.map fst (ordered_entries (own_parse details all))
  = key_order (first_appearances (List.map joined_path details)).
Proof.
  unfold key_order. apply ordered_keys_ext.
  rewrite own_parse_fst, List.map_map. simpl. symmetry. apply List.map_id.
Qed.

(** X6: when no path and no error type of the details is the name of a
    property that objects inherit, [parseErrorSchema] returns a mapping
    whose keys, as [Object.keys] and [for...in] list them, are the
    dot-joined paths of the details, each once: the paths that are array
    indices first, in ascending order, then the others in the order in
    which they first appear in the details. *)
Theorem parseErrorSchema_key_order (details : list ErrorItem) (all : bool) :
  forallb plain_detail details = true ->
  exists m,
    parseErrorSchema details all = Ret m
    /\ List.map fst (ordered_entries m)
       = key_order (first_appearances (List.map joined_path details)).
Proof.
  intros Hplain. exists (own_parse details all).
  split; [apply parseErrorSchema_own, Hplain|apply own_parse_key_order].
Qed.

Lemma parseErrorSchema_key_order_witness :
  exists m,
    parseErrorSchema
      [ {| item_path := [PKey "z"]; item_message := "is required";
           item_type := "any.required" |};
        {| item_path := [PIndex 3]; item_message := "must be a string";
           item_type := "string.base" |};
        {| item_path := [PKey "z"]; item_message := "too short";
           item_type := "string.min" |} ] false = Ret m
    /\ List.map fst (ordered_entries m) = ["3"; "z"].
Proof.
  apply (parseErrorSchema_key_order
           [ {| item_path := [PKey "z"]; item_message := "is required";
                item_type := "any.required" |};
             {| item_path := [PIndex 3]; item_message := "must be a string";
                item_type := "string.base" |};
             {| item_path := [PKey "z"]; item_message := "too short";
                item_type := "string.min" |} ] false).
  reflexivity.
Defined.

Lemma In_fst_assoc_get {A} (k : string) (ps : list (string * A)) :
  In k (List.map fst ps) -> exists v, assoc_get k ps = Some v.
Proof.
  induction ps as [|[k0 v0] ps IH]; simpl; [intros []|].
  destruct (String.eqb k k0) eqn:E; [intros _; eexists; reflexivity|].
  intros [H|H]; [|apply IH, H]. subst k0. rewrite String.eqb_refl in E. discriminate.
Qed.

Lemma field_names_registered h2 h3 errs options F keys reg :
  extended h2 h3 -> closed_under h2 F = true -> In options F ->
  own_keys h3 errs = keys ->
  registered_names h2 options keys = Some reg ->
  field_names h3 errs options = Ret (List.map VStr reg).
Proof.
  intros Hext Hc Ho Hk Hreg. unfold field_names, registered_names in *.
  destruct (closed_under_spec h2 F Hc options Ho) as [Hlt Hin].
  rewrite (extended_read h2 h3 options _ Hext Hlt).
  specialize (Hin "names").
  destruct (truthy (read_prop h2 (VRef options) "names")).
  - destruct (read_prop h2 (VRef options) "names") as [| | | | |l]; try discriminate.
    simpl in Hin. destruct (closed_under_spec h2 F Hc l Hin) as [Hl _].
    rewrite (extended_lookup h2 h3 l Hext Hl).
    destruct (h2 !! l) as [o|]; [|discriminate]. destruct (kind o); try discriminate.
    rewrite (strings_of_spec _ _ Hreg). reflexivity.
  - injection Hreg as <-. rewrite Hk. reflexivity.
Qed.

(** A mapping with clean keys, stored on a heap in which [F] is a footprint
    of the options, is tidy, and its positions are the keyed positions. *)
Lemma stored_mapping_tidy h2 options F (parsed : list (string * FieldError)) reg :
  inb options F = true -> closed_under h2 F = true ->
  registered_names h2 options (List.map fst (ordered_entries parsed)) = Some reg ->
  clean_keys reg (List.map fst (ordered_entries parsed)) = true ->
  tidy (fst (store_errors h2 parsed)) (snd (store_errors h2 parsed)) options F = true
  /\ forall k,
       position (fst (store_errors h2 parsed)) (snd (store_errors h2 parsed)) options k
       = keyed_position reg k.
Proof.
  intros Ho Hc Hreg Hclean.
  pose proof (store_errors_spec h2 parsed) as Hs. cbn zeta in Hs.
  pose proof (store_records_spec parsed h2) as Hrs. cbn zeta in Hrs.
  destruct Hrs as (_ & Hfst & _).
  destruct (store_errors h2 parsed) as [h3 errs]. cbn [fst snd] in *.
  destruct Hs as (Hext & Herrs & Hlo & Hkeys & Hrd).
  assert (Hk : own_keys h3 errs = List.map fst (ordered_entries parsed)).
  { rewrite Hkeys. apply ordered_keys_ext, Hfst. }
  apply inb_In in Ho.
  pose proof (field_names_registered h2 h3 errs options F _ reg Hext Hc Ho Hk Hreg)
    as Hfn.
  assert (Hpos : forall k, position h3 errs options k = keyed_position reg k).
  { intros k. unfold position, keyed_position, in_field_array. rewrite Hfn.
    destruct (isNameInFieldArray (List.map VStr reg) k) as [[]| |]; reflexivity. }
  split; [|exact Hpos].
  unfold clean_keys in Hclean.
  apply andb_prop in Hclean. destruct Hclean as [Hclean Hap].
  apply andb_prop in Hclean. destruct Hclean as [Hpl Hw].
  assert (T1 : names_plain h3 errs options = true).
  { unfold names_plain. rewrite Hfn, Hk, Hpl, andb_true_r.
    apply List.forallb_forall. intros v Hv. apply List.in_map_iff in Hv.
    destruct Hv as (n & <- & _). reflexivity. }
  assert (T2 : forallb (record_ok h3 errs F) (own_keys h3 errs) = true).
  { apply List.forallb_forall. intros p Hp. rewrite Hk in Hp.
    assert (Hin : In p (List.map fst parsed)).
    { apply List.in_map_iff in Hp. destruct Hp as ([p' v] & <- & Hpv).
      destruct (In_fst_assoc_get p' (ordered_entries parsed)) as [v' Hv'].
      - apply List.in_map_iff. exists (p', v). split; [reflexivity|exact Hpv].
      - rewrite assoc_get_ordered in Hv'. apply assoc_get_In in Hv'.
        apply List.in_map_iff. exists (p', v'). split; [reflexivity|exact Hv']. }
    destruct (In_fst_assoc_get p parsed Hin) as [e He].
    destruct (Hrd p e He) as (r & Hread & Hr & _).
    unfold record_ok. rewrite Hread.
    assert (E1 : (r <? length h3)%nat = true) by (apply Nat.ltb_lt; lia).
    assert (E2 : (r =? errs)%nat = false) by (apply Nat.eqb_neq; lia).
    assert (E3 : inb r F = false).
    { apply not_true_is_false. intros Hin'. apply inb_In in Hin'.
      destruct (closed_under_spec h2 F Hc r Hin') as [Hlt _]. lia. }
    rewrite E1, E2, E3. reflexivity. }
  assert (T6 : closed_under h3 F = true).
  { unfold closed_under in *. rewrite List.forallb_forall in *. intros l Hl.
    destruct (closed_under_spec h2 F
                ltac:(unfold closed_under; rewrite List.forallb_forall; exact Hc) l Hl)
      as [Hlt _].
    rewrite (extended_lookup h2 h3 l Hext Hlt). apply Hc, Hl. }
  unfold tidy. rewrite T1, T2, T6, Hk, Hw. rewrite (List.map_ext _ _ Hpos), Hap.
  rewrite (proj2 (inb_In options F) Ho). reflexivity.
Qed.
(** ** [toNestErrors]: what it leaves alone, and what the tree holds *)









Lemma read_defined_own h l k :
  read_prop h (VRef l) k <> VUndef -> has_own h l k = true.
Proof.
  unfold read_prop, has_own, obj_get. destruct (h !! l) as [o|]; [|congruence].
  destruct (assoc_get k (props o)); congruence.
Qed.

Lemma and_iff_r_own h l k :
  (has_own h l k = true /\ read_prop h (VRef l) k <> VUndef)
  <-> read_prop h (VRef l) k <> VUndef.
Proof.
  split; [intros [_ H]; exact H|]. intros H.
  split; [apply read_defined_own, H|exact H].
Qed.

Section TreeFacts.

Variable validateFieldsNatively : heap -> value -> value -> outcome unit.


(** X14: on a tidy mapping (names absent or an array of strings, plain
    paths, records that are existing objects apart from the mapping and
    the options, walkable paths without a segment named [length], no
    position a prefix of another, native validation completing when
    switched on) the call returns and changes nothing of what the caller
    holds except the [ref] of the records: every object that is not a
    record of the mapping (the mapping itself, the options, the field
    registry, the elements) is as it was, and the records keep their kind
    and every property other than [ref]. *)
Theorem toNestErrors_leaves_the_rest h errors options F :
  tidy h errors options F = true ->
  native_allows validateFieldsNatively h errors options ->
  exists h',
    toNestErrors validateFieldsNatively h errors options = Ret (h', length h)
    /\ (forall l, l < length h ->
          (forall q, In q (own_keys h errors) ->
                     read_prop h (VRef errors) q <> VRef l) ->
          h' !! l = h !! l)
    /\ (forall l k, l < length h -> k <> "ref" ->
          read_prop h' (VRef l) k = read_prop h (VRef l) k)
    /\ (forall l, l < length h -> kind_of h' (VRef l) = kind_of h (VRef l)).
Proof.
  intros Ht Hn.
  destruct (toNestErrors_tidy validateFieldsNatively h errors options F Ht Hn)
    as (h' & T & Hrun & HI).
  exists h'. split; [exact Hrun|]. split; [|split].
  - intros l Hl Hnot. apply (inv_old _ _ _ _ _ _ HI l Hl).
    intros q Hq E. apply (Hnot q Hq).
    destruct (tidy_record h errors options F Ht q Hq) as (Hrd & _).
    rewrite Hrd, E. reflexivity.
  - intros l k Hl Hk. apply (inv_rest _ _ _ _ _ _ HI l k Hl Hk).
  - intros l Hl. apply (inv_kind _ _ _ _ _ _ HI l Hl).
Qed.

(** X15: on a tidy mapping (names absent or an array of strings, plain
    paths, records that are existing objects apart from the mapping and
    the options, walkable paths without a segment named [length], no
    position a prefix of another, native validation completing when
    switched on) the call returns a tree that has an own property with a
    defined value at its top level exactly for the first segments of the
    paths of the mapping. *)
Theorem toNestErrors_top_level_keys h errors options F :
  tidy h errors options F = true ->
  native_allows validateFieldsNatively h errors options ->
  exists h',
    toNestErrors validateFieldsNatively h errors options = Ret (h', length h)
    /\ forall k,
         (has_own h' (length h) k = true
          /\ read_prop h' (VRef (length h)) k <> VUndef)
         <-> exists q, In q (own_keys h errors)
                       /\ hd_error (pathSegments q) = Some k.
Proof.
  intros Ht Hn.
  destruct (toNestErrors_tidy validateFieldsNatively h errors options F Ht Hn)
    as (h' & T & Hrun & HI).
  exists h'. split; [exact Hrun|]. intros k.
  rewrite (and_iff_r_own h' (length h) k).
  pose proof (inv_rep _ _ _ _ _ _ HI) as HR.
  destruct (rep_node _ _ _ _ HR [] _ (rep_root _ _ _ _ HR)) as (_ & _ & Hread).
  rewrite (Hread k). simpl app. split.
  - intros Hv.
    assert (Hk : T [k] <> EAbsent) by (intros E; rewrite E in Hv; apply Hv; reflexivity).
    destruct (inv_support _ _ _ _ _ _ HI [k] Hk) as [E|(q & u & Hq & Hpos)];
      [discriminate|].
    exists q. split; [exact Hq|].
    destruct (tidy_walkable h errors options F Ht q Hq) as (Hne & _).
    unfold position in Hpos. destruct (pathSegments q) as [|s r]; [contradiction|].
    simpl in Hpos. injection Hpos as -> _. reflexivity.
  - intros (q & Hq & Hhd).
    pose proof (inv_placed _ _ _ _ _ _ HI q Hq) as Hplaced.
    destruct (pathSegments q) as [|s r] eqn:Es; [discriminate|].
    simpl in Hhd. injection Hhd as ->.
    assert (Hpos : position h errors options q
                   = [k] ++ (r ++ if in_field_array h errors options q
                                  then ["root"] else []))
      by (unfold position; rewrite Es; reflexivity).
    destruct (T [k]) as [|v|l] eqn:Ek.
    + rewrite Hpos, (rep_absent_below _ _ h' T [k] HR Ek) in Hplaced. discriminate.
    + destruct (inv_leaf _ _ _ _ _ _ HI [k] v Ek) as (q' & Hq' & Hk').
      pose proof (inv_placed _ _ _ _ _ _ HI q' Hq') as Hp'.
      rewrite <- Hk', Ek in Hp'. injection Hp' as ->. discriminate.
    + discriminate.
Qed.

(** What the resolver returns on a failure whose parsed mapping is tidy:
    the record of a path, found at its position in the tree, with the
    message and the type of the first report and with [types] only under
    all-criteria validation. *)
Lemma joiResolver_tree_record (schema : Schema)
    (schemaOptions : option loc) (mode : value) (h : heap)
    (input context : value) (options : loc) (h2 : heap)
    (details : list ErrorItem) (F : list loc)
    (k : string) (d : ErrorItem) :
  reports schema mode (fst (merge_options h schemaOptions context)) input
    (snd (merge_options h schemaOptions context)) h2 (ValidationError details) ->
  forallb plain_detail details = true ->
  let all := negb (truthy (read_prop h2 (VRef options) "shouldUseNativeValidation"))
             && value_eqb (read_prop h2 (VRef options) "criteriaMode") (VStr "all") in
  let stored := store_errors h2 (own_parse details all) in
  tidy (fst stored) (snd stored) options F = true ->
  native_allows validateFieldsNatively (fst stored) (snd stored) options ->
  first_for k details = Some d ->
  exists h' tree r,
    snd (joiResolver validateFieldsNatively schema schemaOptions mode h input
           context options)
    = Ret (h', {| values := EmptyObject; errors := Held (VRef tree) |})
    /\ nav h' (VRef tree) (position (fst stored) (snd stored) options k) = VRef r
    /\ read_prop h' (VRef r) "message" = VStr (item_message d)
    /\ read_prop h' (VRef r) "type" = VStr (item_type d)
    /\ isUndefined (read_prop h' (VRef r) "types") = negb all.
Proof.
  intros Hrep Hplain all stored Ht Hn Hfirst. apply run_validation_reports in Hrep.
  destruct Hrep as (result & Hrun & Herr). unfold joiResolver.
  destruct (merge_options h schemaOptions context) as [h1 so]. cbn [fst snd] in Hrun.
  destruct (run_validation schema mode h1 input so) as [calls validated].
  cbn [snd] in Hrun. subst validated. cbn [snd obind]. unfold respond. rewrite Herr.
  cbn [truthy_error failure_truthy parse_failure]. fold all.
  rewrite (parseErrorSchema_own all details Hplain). cbn [obind].
  pose proof (own_parse_ok all details k) as Hentry. unfold entry_ok in Hentry.
  destruct (assoc_get k (own_parse details all)) as [rcd|] eqn:Ek;
    [|congruence].
  destruct Hentry as (d' & Hd' & Hmsg & Htype & Htypes).
  rewrite Hfirst in Hd'. injection Hd' as <-.
  assert (Hall : is_some (fe_types rcd) = all).
  { destruct all; [destruct Htypes as (ts & -> & _)|rewrite Htypes]; reflexivity. }
  pose proof (store_errors_spec h2 (own_parse details all)) as Hs.
  cbn zeta in Hs. destruct Hs as (_ & _ & _ & _ & Hrd).
  destruct (Hrd k rcd Ek) as (r & Hread & Hr & Hin & Hm & Hty & Hts). clear Hrd.
  subst stored. revert Ht Hn Hread Hr Hin Hm Hty Hts.
  destruct (store_errors h2 (own_parse details all)) as [h3 errs].
  cbn [fst snd]. intros Ht Hn Hread Hr Hin Hm Hty Hts.
  destruct (toNestErrors_tidy validateFieldsNatively h3 errs options F Ht Hn)
    as (h' & T & Hnest & HI).
  rewrite Hnest. cbn [obind]. exists h', (length h3), r.
  split; [reflexivity|].
  assert (Hlt : r < length h3).
  { destruct (tidy_record h3 errs options F Ht k Hin) as (Hrd' & Hlt & _).
    rewrite Hread in Hrd'. injection Hrd' as ->. exact Hlt. }
  split; [|split; [|split]].
  - rewrite (inv_nav h3 errs options F Ht h' T k HI Hin).
    unfold record_of. rewrite Hread. reflexivity.
  - rewrite (inv_rest _ _ _ _ _ _ HI r "message" Hlt) by discriminate.
    rewrite Hm, Hmsg. reflexivity.
  - rewrite (inv_rest _ _ _ _ _ _ HI r "type" Hlt) by discriminate.
    rewrite Hty, Htype. reflexivity.
  - rewrite (inv_rest _ _ _ _ _ _ HI r "types" Hlt) by discriminate.
    rewrite Hts, Hall. reflexivity.
Qed.

Lemma stored_native_allows h2 options F (parsed : list (string * FieldError)) :
  inb options F = true -> closed_under h2 F = true ->
  (truthy (read_prop h2 (VRef options) "shouldUseNativeValidation") = true ->
   forall hx ex, validateFieldsNatively hx ex (VRef options) = Ret tt) ->
  native_allows validateFieldsNatively (fst (store_errors h2 parsed))
    (snd (store_errors h2 parsed)) options.
Proof.
  intros Ho Hc Hnat. apply inb_In in Ho.
  destruct (closed_under_spec h2 F Hc options Ho) as [Hlt _].
  destruct (store_errors_spec h2 parsed) as (Hext & _).
  unfold native_allows. rewrite (extended_read h2 _ options _ Hext Hlt).
  intros Hflag. apply Hnat, Hflag.
Qed.

(** X16: when validation reports a [ValidationError] in whose details no
    path and no error type is the name of a property that objects inherit,
    the keys of the parsed mapping are clean (plain names that [set] can
    walk without a segment named [length], no position on the way to
    another), [options.names] is absent or an array of strings, [F] is a
    footprint of the options and native validation, when switched on,
    completes, the resolver returns a tree in which, for every path of the
    details, the record found at the position of the path carries the
    message and the type of the first report for that path. *)
Theorem joiResolver_tree_holds_first_report (schema : Schema)
    (schemaOptions : option loc) (mode : value) (h : heap)
    (input context : value) (options : loc) (h2 : heap)
    (details : list ErrorItem) (F : list loc)
    (names : list string) (k : string) (d : ErrorItem) :
  reports schema mode (fst (merge_options h schemaOptions context)) input
    (snd (merge_options h schemaOptions context)) h2 (ValidationError details) ->
  forallb plain_detail details = true ->
  let native := truthy (read_prop h2 (VRef options) "shouldUseNativeValidation") in
  let keys := key_order (first_appearances (List.map joined_path details)) in
  inb options F = true ->
  closed_under h2 F = true ->
  registered_names h2 options keys = Some names ->
  clean_keys names keys = true ->
  (native = true ->
   forall hx ex, validateFieldsNatively hx ex (VRef options) = Ret tt) ->
  first_for k details = Some d ->
  exists h' tree r,
    snd (joiResolver validateFieldsNatively schema schemaOptions mode h input
           context options)
    = Ret (h', {| values := EmptyObject; errors := Held (VRef tree) |})
    /\ nav h' (VRef tree) (keyed_position names k) = VRef r
    /\ read_prop h' (VRef r) "message" = VStr (item_message d)
    /\ read_prop h' (VRef r) "type" = VStr (item_type d).
Proof.
  intros Hrep Hplain native keys Ho Hc Hreg Hclean Hnat Hfirst.
  set (all := negb native
              && value_eqb (read_prop h2 (VRef options) "criteriaMode") (VStr "all")).
  subst keys. rewrite <- (own_parse_key_order details all) in Hreg, Hclean.
  destruct (stored_mapping_tidy h2 options F (own_parse details all) names
              Ho Hc Hreg Hclean) as [Ht Hpos].
  pose proof (stored_native_allows h2 options F (own_parse details all)
                Ho Hc Hnat) as Hn.
  destruct (joiResolver_tree_record schema schemaOptions mode h input context
              options h2 details F k d Hrep Hplain Ht Hn Hfirst)
    as (h' & tree & r & H1 & H2 & H3 & H4 & _).
  rewrite Hpos in H2. exists h', tree, r. auto.
Qed.

(** X20: when validation reports a [ValidationError] in whose details no
    path and no error type is the name of a property that objects inherit,
    the keys of the parsed mapping are clean, [options.names] is absent or
    an array of strings, [F] is a footprint of the options and native
    validation, when switched on, completes, the records of the returned
    tree carry a [types] property exactly when native validation is off and
    [criteriaMode] is ['all']; with native validation on, [criteriaMode]
    has no effect. *)
Theorem joiResolver_types_only_without_native (schema : Schema)
    (schemaOptions : option loc) (mode : value) (h : heap)
    (input context : value) (options : loc) (h2 : heap)
    (details : list ErrorItem) (F : list loc)
    (names : list string) (k : string) (d : ErrorItem) :
  reports schema mode (fst (merge_options h schemaOptions context)) input
    (snd (merge_options h schemaOptions context)) h2 (ValidationError details) ->
  forallb plain_detail details = true ->
  let native := truthy (read_prop h2 (VRef options) "shouldUseNativeValidation") in
  let keys := key_order (first_appearances (List.map joined_path details)) in
  inb options F = true ->
  closed_under h2 F = true ->
  registered_names h2 options keys = Some names ->
  clean_keys names keys = true ->
  (native = true ->
   forall hx ex, validateFieldsNatively hx ex (VRef options) = Ret tt) ->
  first_for k details = Some d ->
  exists h' tree r,
    snd (joiResolver validateFieldsNatively schema schemaOptions mode h input
           context options)
    = Ret (h', {| values := EmptyObject; errors := Held (VRef tree) |})
    /\ nav h' (VRef tree) (keyed_position names k) = VRef r
    /\ (read_prop h' (VRef r) "types" <> VUndef
        <-> native = false
            /\ read_prop h2 (VRef options) "criteriaMode" = VStr "all").
Proof.
  intros Hrep Hplain native keys Ho Hc Hreg Hclean Hnat Hfirst.
  set (all := negb native
              && value_eqb (read_prop h2 (VRef options) "criteriaMode") (VStr "all")).
  subst keys. rewrite <- (own_parse_key_order details all) in Hreg, Hclean.
  destruct (stored_mapping_tidy h2 options F (own_parse details all) names
              Ho Hc Hreg Hclean) as [Ht Hpos].
  pose proof (stored_native_allows h2 options F (own_parse details all)
                Ho Hc Hnat) as Hn.
  destruct (joiResolver_tree_record schema schemaOptions mode h input context
              options h2 details F k d Hrep Hplain Ht Hn Hfirst)
    as (h' & tree & r & H1 & H2 & _ & _ & H5).
  rewrite Hpos in H2. exists h', tree, r. split; [exact H1|]. split; [exact H2|].
  fold native in H5. fold all in H5.
  assert (Hall : all = true
                 <-> native = false
                     /\ read_prop h2 (VRef options) "criteriaMode" = VStr "all").
  { subst all. rewrite andb_true_iff, negb_true_iff. split.
    - intros [Hn' Hcm]. split; [exact Hn'|].
      destruct (read_prop h2 (VRef options) "criteriaMode"); try discriminate.
      simpl in Hcm. apply String.eqb_eq in Hcm. subst. reflexivity.
    - intros [Hn' ->]. split; [exact Hn'|reflexivity]. }
  rewrite <- Hall. destruct all.
  - split; [reflexivity|]. intros _ E. rewrite E in H5. discriminate.
  - split; [|discriminate]. intros Hne. exfalso. apply Hne.
    destruct (read_prop h' (VRef r) "types"); try discriminate. reflexivity.
Qed.

(** X21: when the mapping is separate from its records and from the
    options ([W] holds all that these can reach, and not the mapping), the
    call, if it returns, changes no object outside [W]: whatever else the
    caller holds is as it was, also when paths overlap. *)
Theorem toNestErrors_confined h errors options W h' fieldErrors :
  separate h errors options W = true ->
  errors < length h ->
  toNestErrors validateFieldsNatively h errors options = Ret (h', fieldErrors) ->
  forall l, l < length h -> ~ In l W -> h' !! l = h !! l.
Proof.
  intros Hsep Herr Hrun. unfold toNestErrors in Hrun.
  destruct (if truthy (read_prop h (VRef options) "shouldUseNativeValidation")
            then validateFieldsNatively h (VRef errors) (VRef options)
            else Ret tt) as [[]| |]; cbn [obind] in Hrun; try discriminate.
  unfold alloc in Hrun. rewrite own_keys_alloc in Hrun.
  destruct (toNestErrors_loop errors options (length h) (h ++ [Obj KPlain []])
              (own_keys h errors)) as [hl| |] eqn:El; cbn [obind] in Hrun;
    try discriminate.
  injection Hrun as <- <-.
  destruct (loop_region h errors options W Hsep (own_keys h errors) _ hl
              (confined_init h errors options W Hsep) Herr El) as (HC & _).
  intros l Hl HW. apply (conf_outside _ _ _ _ HC l Hl HW).
Qed.

End TreeFacts.

(** X17: when [shouldUseNativeValidation] is not set, [validateFieldsNatively]
    has no part in the result: the resolver behaves the same whatever that
    function would do. *)
Theorem joiResolver_native_validation_off
    (native1 native2 : heap -> value -> value -> outcome unit)
    (schema : Schema) (schemaOptions : option loc) (mode : value) (h : heap)
    (input context : value) (options : loc) :
  (forall h2 result,
     snd (run_validation schema mode (fst (merge_options h schemaOptions context))
            input (snd (merge_options h schemaOptions context)))
     = Ret (h2, result) ->
     options < length h2
     /\ truthy (read_prop h2 (VRef options) "shouldUseNativeValidation") = false) ->
  joiResolver native1 schema schemaOptions mode h input context options
  = joiResolver native2 schema schemaOptions mode h input context options.
Proof.
  intros Hoff. unfold joiResolver.
  destruct (merge_options h schemaOptions context) as [h1 so]. cbn [fst snd] in Hoff.
  destruct (run_validation schema mode h1 input so) as [calls validated].
  cbn [snd] in Hoff. f_equal.
  destruct validated as [[h2 result]| |]; cbn [obind]; try reflexivity.
  destruct (Hoff h2 result eq_refl) as [Hopt Hflag].
  unfold respond. rewrite Hflag.
  destruct (truthy_error (result_error result)) as [e|]; [|reflexivity].
  destruct (parse_failure h2 e _) as [parsed| |]; cbn [obind]; try reflexivity.
  pose proof (store_errors_spec h2 parsed) as Hs. cbn zeta in Hs.
  destruct (store_errors h2 parsed) as [h3 errs]. cbn [fst snd] in Hs.
  destruct Hs as (Hext & _).
  unfold toNestErrors.
  rewrite (extended_read h2 h3 options _ Hext Hopt), Hflag. reflexivity.
Qed.
(** ** Concrete runs of the further properties *)


Lemma toNestErrors_leaves_the_rest_witness :
  exists h',
    toNestErrors completes array_field_heap 0 1 = Ret (h', length array_field_heap)
    /\ (forall l, l < length array_field_heap ->
          (forall q, In q (own_keys array_field_heap 0) ->
                     read_prop array_field_heap (VRef 0) q <> VRef l) ->
          h' !! l = array_field_heap !! l)
    /\ (forall l k, l < length array_field_heap -> k <> "ref" ->
          read_prop h' (VRef l) k = read_prop array_field_heap (VRef l) k)
    /\ (forall l, l < length array_field_heap ->
          kind_of h' (VRef l) = kind_of array_field_heap (VRef l)).
Proof.
  apply (toNestErrors_leaves_the_rest completes array_field_heap 0 1
           array_field_footprint).
  - vm_compute. reflexivity.
  - intros H. vm_compute in H. discriminate.
Defined.

Lemma toNestErrors_top_level_keys_witness :
  exists h',
    toNestErrors completes array_field_heap 0 1 = Ret (h', length array_field_heap)
    /\ forall k,
         (has_own h' (length array_field_heap) k = true
          /\ read_prop h' (VRef (length array_field_heap)) k <> VUndef)
         <-> exists q, In q (own_keys array_field_heap 0)
                       /\ hd_error (pathSegments q) = Some k.
Proof.
  apply (toNestErrors_top_level_keys completes array_field_heap 0 1
           array_field_footprint).
  - vm_compute. reflexivity.
  - intros H. vm_compute in H. discriminate.
Defined.

Lemma joiResolver_tree_holds_first_report_witness :
  exists h' tree r,
    snd (joiResolver completes (failing_schema array_details) None (VStr "sync")
           registered_heap (VRef 2) VUndef 0)
    = Ret (h', {| values := EmptyObject; errors := Held (VRef tree) |})
    /\ nav h' (VRef tree) ["items"; "root"] = VRef r
    /\ read_prop h' (VRef r) "message" = VStr "at least two"
    /\ read_prop h' (VRef r) "type" = VStr "array.min".
Proof.
  apply (joiResolver_tree_holds_first_report completes
           (failing_schema array_details) None
           (VStr "sync") registered_heap (VRef 2) VUndef 0
           (fst (merge_options registered_heap None VUndef))
           array_details [0; 1; 3]
           ["items.0.name"] "items"
           {| item_path := [PKey "items"];
              item_message := "at least two"; item_type := "array.min" |}).
  - left. split; [reflexivity|]. eexists. split; reflexivity.
  - reflexivity.
  - reflexivity.
  - reflexivity.
  - reflexivity.
  - vm_compute. reflexivity.
  - intros H. vm_compute in H. discriminate.
  - reflexivity.
Defined.

Lemma joiResolver_native_validation_off_witness :
  joiResolver completes (failing_schema sample_details) None VUndef
    plain_options_heap (VRef 2) VUndef 0
  = joiResolver (fun _ _ _ => Throw HostError) (failing_schema sample_details) None
      VUndef plain_options_heap (VRef 2) VUndef 0.
Proof.
  apply (joiResolver_native_validation_off completes (fun _ _ _ => Throw HostError)
           (failing_schema sample_details) None VUndef plain_options_heap
           (VRef 2) VUndef 0).
  intros h2 result H. vm_compute in H. injection H as <- <-.
  split; [vm_compute; lia|reflexivity].
Defined.

Lemma joiResolver_types_only_without_native_witness :
  exists h' tree r,
    snd (joiResolver completes (failing_schema sample_details) None (VStr "sync")
           all_criteria_heap (VRef 2) VUndef 0)
    = Ret (h', {| values := EmptyObject; errors := Held (VRef tree) |})
    /\ nav h' (VRef tree) ["items"; "0"; "name"] = VRef r
    /\ (read_prop h' (VRef r) "types" <> VUndef
        <-> false = false /\ VStr "all" = VStr "all").
Proof.
  apply (joiResolver_types_only_without_native completes
           (failing_schema sample_details) None
           (VStr "sync") all_criteria_heap (VRef 2) VUndef 0
           (fst (merge_options all_criteria_heap None VUndef))
           sample_details [0; 1]
           ["items.0.name"; "age"] "items.0.name"
           {| item_path := [PKey "items"; PIndex 0; PKey "name"];
              item_message := "must be a string"; item_type := "string.base" |}).
  - left. split; [reflexivity|]. eexists. split; reflexivity.
  - reflexivity.
  - reflexivity.
  - reflexivity.
  - reflexivity.
  - vm_compute. reflexivity.
  - intros H. vm_compute in H. discriminate.
  - reflexivity.
Defined.

Lemma toNestErrors_confined_witness :
  exists h',
    toNestErrors completes bystander_heap 0 1 = Ret (h', 6)
    /\ forall l, l < length bystander_heap -> ~ In l [1; 2; 3; 4] ->
                 h' !! l = bystander_heap !! l.
Proof.
  eexists. split; [vm_compute; reflexivity|].
  apply (toNestErrors_confined completes bystander_heap 0 1 [1; 2; 3; 4] _ 6).
  - vm_compute. reflexivity.
  - vm_compute. lia.
  - vm_compute. reflexivity.
Defined.
(** ** Names the pattern engine rejects *)

Lemma has_char_not_forall (P : ascii -> bool) c s :
  has_char c s = true -> P c = false -> string_forall P s = false.
Proof.
  unfold has_char. intros Hs Hc. induction s as [|a s IH]; simpl in *; [discriminate|].
  destruct (Ascii.eqb c a) eqn:E.
  - apply Ascii.eqb_eq in E. subst a. rewrite Hc. reflexivity.
  - simpl in Hs. rewrite (IH Hs). apply andb_false_r.
Qed.

Lemma compile_unclosed name :
  unclosed_group name = true -> compile_name (escapeBrackets name) = Throw SyntaxError.
Proof.
  unfold unclosed_group. intros H.
  apply andb_prop in H. destruct H as [H H3].
  apply andb_prop in H. destruct H as [H1 H2].
  unfold compile_name, escapeBrackets.
  rewrite !has_char_kept by reflexivity. rewrite H1, H2, H3.
  rewrite (has_char_not_forall _ "("%char); [reflexivity| |reflexivity].
  rewrite has_char_kept by reflexivity. exact H1.
Qed.

Lemma isNameInFieldArray_unclosed_names (name n : string) (rest : list value) :
  unclosed_group name = true ->
  isNameInFieldArray (VStr n :: rest) name = Throw SyntaxError
  /\ isNameInFieldArray [] name = Ret false.
Proof.
  intros H. split; [|reflexivity].
  unfold isNameInFieldArray. cbn [some_match].
  rewrite (compile_unclosed name H). reflexivity.
Qed.

(** X18: for a name with an unclosed group, the test does not return as
    soon as there is a first name to try it on: the pattern built from the
    name is rejected and a syntax error is thrown.  With no name to try,
    the pattern is never built and the test is [false]. *)
Theorem isNameInFieldArray_unclosed_group_throws (name n : string) (rest : list value) :
  unclosed_group name = true ->
  isNameInFieldArray (VStr n :: rest) name = Throw SyntaxError
  /\ isNameInFieldArray [] name = Ret false.
Proof.
  intros H. apply isNameInFieldArray_unclosed_names, H.
Qed.

Lemma isNameInFieldArray_unclosed_group_throws_witness :
  isNameInFieldArray [VStr "price (net"; VStr "name"] "price (net" = Throw SyntaxError
  /\ isNameInFieldArray [] "price (net" = Ret false.
Proof.
  apply (isNameInFieldArray_unclosed_group_throws "price (net" "price (net"
           [VStr "name"]).
  reflexivity.
Defined.

Lemma read_alloc_empty (h : heap) l k :
  read_prop (h ++ [Obj KPlain []]) (VRef l) k = read_prop h (VRef l) k.
Proof.
  unfold read_prop. destruct (h !! l) as [o|] eqn:E.
  - rewrite lookup_alloc_old by (eapply lookup_lt_Some, E). rewrite E. reflexivity.
  - apply lookup_ge_None_1 in E.
    destruct (decide (l = length h)) as [->|Hne].
    + rewrite lookup_alloc_new. reflexivity.
    + rewrite (lookup_ge_None_2 (h ++ [Obj KPlain []]) l); [reflexivity|].
      rewrite length_app. simpl. lia.
Qed.

Lemma own_keys_write_nonempty (h : heap) errors l k v :
  own_keys h errors <> [] -> own_keys (write_prop h l k v) errors <> [].
Proof.
  unfold own_keys. destruct (decide (l = errors)) as [->|Hne].
  - destruct (h !! errors) as [o|] eqn:E; [|intros H; exfalso; apply H; reflexivity].
    rewrite (lookup_write_eq h errors k v o E). simpl. intros _ Hnil.
    pose proof (assoc_get_ordered (assoc_set k v (props o)) k) as Hg.
    rewrite assoc_get_set_eq in Hg.
    destruct (ordered_entries (assoc_set k v (props o))); [discriminate|discriminate].
  - rewrite lookup_write_ne by exact Hne. intros H. exact H.
Qed.

Section Rejected.

Variable validateFieldsNatively : heap -> value -> value -> outcome unit.

(** X19: when no [names] are given and the first path of the mapping has an
    unclosed group and an object as its entry, [toNestErrors] does not
    return a tree: the syntax error thrown by the array-field test leaves
    the function. *)
Theorem toNestErrors_unclosed_group_throws h errors options path rest l :
  native_allows validateFieldsNatively h errors options ->
  own_keys h errors = path :: rest ->
  read_prop h (VRef errors) path = VRef l ->
  truthy (read_prop h (VRef options) "names") = false ->
  unclosed_group path = true ->
  toNestErrors validateFieldsNatively h errors options = Throw SyntaxError.
Proof.
  intros Hn Hkeys Hrec Hnames Hpath. unfold toNestErrors.
  assert (Hnat : (if truthy (read_prop h (VRef options) "shouldUseNativeValidation")
                  then validateFieldsNatively h (VRef errors) (VRef options)
                  else Ret tt) = Ret tt).
  { unfold native_allows in Hn.
    destruct (truthy (read_prop h (VRef options) "shouldUseNativeValidation"));
      [apply Hn; reflexivity|reflexivity]. }
  rewrite Hnat. cbn [obind alloc]. rewrite own_keys_alloc, Hkeys.
  cbn [toNestErrors_loop]. unfold toNestErrors_body.
  rewrite (read_alloc_empty h errors path), Hrec.
  cbn [assign_ref truthy obind].
  set (h1 := write_prop (h ++ [Obj KPlain []]) l "ref" _).
  assert (Hne : own_keys h1 errors <> []).
  { subst h1. apply own_keys_write_nonempty. rewrite own_keys_alloc, Hkeys.
    discriminate. }
  assert (Hread : read_prop h1 (VRef options) "names"
                  = read_prop h (VRef options) "names").
  { subst h1. rewrite read_write_ne by (right; discriminate). apply read_alloc_empty. }
  assert (Hfn : exists k names, field_names h1 errors options = Ret (VStr k :: names)).
  { unfold field_names. rewrite Hread, Hnames.
    destruct (own_keys h1 errors) as [|k ks]; [contradiction|].
    exists k, (List.map VStr ks). reflexivity. }
  destruct Hfn as (k & names & ->). cbn [obind].
  rewrite (proj1 (isNameInFieldArray_unclosed_names path k names Hpath)).
  reflexivity.
Qed.

End Rejected.

Lemma toNestErrors_unclosed_group_throws_witness :
  toNestErrors completes unclosed_heap 0 1 = Throw SyntaxError.
Proof.
  apply (toNestErrors_unclosed_group_throws completes unclosed_heap 0 1 "a(" [] 2).
  - intros H. vm_compute in H. discriminate.
  - reflexivity.
  - reflexivity.
  - reflexivity.
  - reflexivity.
Defined.
